(** * etcd: cluster membership, bootstrap strings and the transport hub

    A shallow embedding of
      - etcdserver/cluster.go   (Cluster, NewClusterFromString, Members,
                                 MemberIDs, String, ValidateAndAssignIDs,
                                 genID, AddMember, RemoveMember),
      - etcdmain/etcd.go        (genClusterString, genDNSClusterString),
      - rafthttp/transport.go   (transport.Send),
    together with the library functions they call (crypto/sha1,
    encoding/binary, net/url.ParseQuery, sort, strings).

    Go maps are [gmap]s.  A [range] over a Go map visits the entries in an
    order the language leaves open; every function that ranges over a map
    takes the visiting order as an explicit list, and the theorems quantify
    over all orders that enumerate the map. *)

From Stdlib Require Import ZArith List Ascii String Sorted Permutation Lia Bool.
From stdpp Require Import base option list sorting gmap strings pretty.

Local Open Scope Z_scope.

(** ** crypto/sha1 and encoding/binary

    Bytes are integers in [0, 256); 32-bit words are integers in
    [0, 2^32) with the wrap-around written out. *)
Module SHA1.

Definition w32 (x : Z) : Z := x mod 2 ^ 32.

Definition rotl (n x : Z) : Z :=
  w32 (Z.lor (Z.shiftl x n) (Z.shiftr x (32 - n))).

Definition not32 (x : Z) : Z := Z.lxor x 0xFFFFFFFF.

(** Big-endian encoding of [x] on [n] bytes. *)
Fixpoint be_bytes (n : nat) (x : Z) : list Z :=
  match n with
  | O => []
  | S n' => (Z.shiftr x (8 * Z.of_nat n')) mod 256 :: be_bytes n' x
  end.

(** Big-endian decoding. *)
Definition be_value (bs : list Z) : Z :=
  fold_left (fun acc b => acc * 256 + b) bs 0.

(** Padding: 0x80, zeros up to 56 mod 64, then the bit length on 8 bytes. *)
Definition pad (msg : list Z) : list Z :=
  let len := Z.of_nat (length msg) in
  let zeros := Z.to_nat ((55 - len) mod 64) in
  msg ++ 0x80 :: repeat 0 zeros ++ be_bytes 8 (8 * len).

Fixpoint words (fuel : nat) (bs : list Z) : list Z :=
  match fuel, bs with
  | S f, b0 :: b1 :: b2 :: b3 :: rest =>
      be_value [b0; b1; b2; b3] :: words f rest
  | _, _ => []
  end.

Fixpoint blocks (fuel : nat) (ws : list Z) : list (list Z) :=
  match fuel, ws with
  | S f, _ :: _ => take 16 ws :: blocks f (drop 16 ws)
  | _, _ => []
  end.

(** The message schedule, most recent word first. *)
Fixpoint schedule (n : nat) (w : list Z) : list Z :=
  match n with
  | O => w
  | S n' =>
      let x := Z.lxor (Z.lxor (nth 2 w 0) (nth 7 w 0))
                      (Z.lxor (nth 13 w 0) (nth 15 w 0)) in
      schedule n' (rotl 1 x :: w)
  end.

Record state := State { ha : Z; hb : Z; hc : Z; hd : Z; he : Z }.

Definition init : state :=
  State 0x67452301 0xEFCDAB89 0x98BADCFE 0x10325476 0xC3D2E1F0.

Definition round (s : state) (tw : Z * Z) : state :=
  let '(t, w) := tw in
  let '(State a b c d e) := s in
  let '(f, k) :=
    if t <? 20 then (Z.lor (Z.land b c) (Z.land (not32 b) d), 0x5A827999)
    else if t <? 40 then (Z.lxor (Z.lxor b c) d, 0x6ED9EBA1)
    else if t <? 60 then
      (Z.lor (Z.lor (Z.land b c) (Z.land b d)) (Z.land c d), 0x8F1BBCDC)
    else (Z.lxor (Z.lxor b c) d, 0xCA62C1D6) in
  State (w32 (rotl 5 a + f + e + k + w)) a (rotl 30 b) c d.

Definition block (s : state) (w16 : list Z) : state :=
  let w80 := rev (schedule 64 (rev w16)) in
  let s' := fold_left round (combine (map Z.of_nat (seq 0 80)) w80) s in
  State (w32 (ha s + ha s')) (w32 (hb s + hb s')) (w32 (hc s + hc s'))
        (w32 (hd s + hd s')) (w32 (he s + he s')).

(** [sha1.Sum]: the 20-byte digest. *)
Definition Sum (msg : list Z) : list Z :=
  let p := pad msg in
  let s := fold_left block (blocks (length p) (words (length p) p)) init in
  be_bytes 4 (ha s) ++ be_bytes 4 (hb s) ++ be_bytes 4 (hc s)
    ++ be_bytes 4 (hd s) ++ be_bytes 4 (he s).

End SHA1.

(** [binary.BigEndian.PutUint64] and [binary.BigEndian.Uint64]. *)
Definition PutUint64 (id : Z) : list Z := SHA1.be_bytes 8 id.
Definition Uint64 (b : list Z) : Z := SHA1.be_value (take 8 b).

(** [[]byte(s)] *)
Definition bytes_of_string (s : string) : list Z :=
  map (fun c => Z.of_N (N_of_ascii c)) (list_ascii_of_string s).

(** ** Results *)

(** The errors the modelled functions return; each constructor is one
    [fmt.Errorf] or library error site. *)
Inductive Error :=
  | ErrEscape                      (* url.ParseQuery: invalid URL escape *)
  | ErrEmptyURL (name : string)    (* "Empty URL given for %q" *)
  | ErrInvalidURLs                 (* flags.URLsValue.Set failed *)
  | ErrDuplicateID (id : Z)        (* "Member exists with identical ID %v" *)
  | ErrMemberCount                 (* "... the member count is unequal" *)
  | ErrUnmatchedMember             (* "unmatched member while checking PeerURLs" *)
  | ErrResolve (host : string)     (* net.ResolveTCPAddr failed *)
  | ErrLookupSRV (service : string). (* the SRV query failed *)

Global Instance Error_eq_dec : EqDecision Error.
Proof. solve_decision. Defined.

(** A Go function returning [(T, error)]. *)
Inductive result (A : Type) :=
  | Ok (a : A)
  | Err (e : Error).
Global Arguments Ok {A} a.
Global Arguments Err {A} e.

(** A Go function that may [log.Panicf]. *)
Inductive outcome (A : Type) :=
  | Ret (a : A)
  | Panic.
Global Arguments Ret {A} a.
Global Arguments Panic {A}.

(** ** sort.Sort

    [sort_Sort less l] arranges [l] so that no element is [less] than one
    before it, as [sort.Sort] does with the [Less] method of the slice
    type.  On a strict total order the arrangement is unique. *)
Definition not_less {A} (less : A → A → bool) (x y : A) : Prop :=
  less y x = false.

Global Instance not_less_dec {A} (less : A → A → bool) :
  RelDecision (not_less less).
Proof. intros x y. unfold not_less. apply _. Defined.

Definition sort_Sort {A} (less : A → A → bool) (l : list A) : list A :=
  merge_sort (not_less less) l.

(** [sort.Strings]: Go compares strings byte-wise, as [String.ltb] does. *)
Definition sort_Strings (l : list string) : list string :=
  sort_Sort String.ltb l.

(** [sort.Sort(types.Uint64Slice(ids))] *)
Definition sort_Uint64 (l : list Z) : list Z := sort_Sort Z.ltb l.

(** ** Ranging over a Go map

    The order in which [range] visits a map is a choice of the runtime:
    a [visit] function picks the order, and is admissible when it lists
    exactly the entries of the map. *)
Definition admissible {K A} `{Countable K}
    (visit : gmap K A → list (K * A)) : Prop :=
  ∀ m, visit m ≡ₚ map_to_list m.

(** ** Members *)

(** [url.URL], as far as the cluster code reads it: scheme and host:port. *)
Record URL := mkURL { Scheme : string; Host : string }.

Global Instance URL_eq_dec : EqDecision URL.
Proof. solve_decision. Defined.

(** [u.String()] *)
Definition URL_String (u : URL) : string := Scheme u +:+ "://" +:+ Host u.

(** [types.URLs.StringSlice] *)
Definition StringSlice (us : list URL) : list string := map URL_String us.

(** [Member]: [RaftAttributes] and [Attributes] are flattened. *)
Record Member := mkMember {
  ID : Z;
  Name : string;
  PeerURLs : list string;
  ClientURLs : list string
}.

Global Instance Member_eq_dec : EqDecision Member.
Proof. solve_decision. Defined.

Definition setID (m : Member) (i : Z) : Member :=
  {| ID := i; Name := Name m; PeerURLs := PeerURLs m;
     ClientURLs := ClientURLs m |}.

(** Modelled from the spec: [NewMember] (etcdserver/member.go is not among
    the sources).  The id is the first 8 bytes, big-endian, of the SHA-1 of
    the sorted peer URLs followed, when [createdAt] is set, by the cluster
    name and the creation time.  The vectors of TestMemberTime fix what the
    text leaves open: the bytes hashed for a URL are those of its full
    string form, the member's name is never hashed, and the time is the
    decimal count of Unix seconds. *)
Definition NewMember (name : string) (peerURLs : list URL)
    (clusterName : string) (now : option Z) : Member :=
  let purls := StringSlice peerURLs in
  let b := flat_map bytes_of_string (sort_Strings purls) in
  let b := match now with
           | Some t => b ++ bytes_of_string clusterName
                         ++ bytes_of_string (pretty t)
           | None => b
           end in
  {| ID := Uint64 (SHA1.Sum b); Name := name;
     PeerURLs := purls; ClientURLs := [] |}.

(** ** The store

    Modelled from the spec: the durable store (package store is not among
    the sources) is a key-value tree reached through [Create] and
    [Delete]; a JSON text is kept as the value it encodes.  [Create]
    refuses a path that exists; a recursive directory [Delete] refuses a
    path that does not exist and removes everything below it. *)
Inductive StoreValue :=
  | VRaftAttributes (peerURLs : list string)
  | VAttributes (name : string) (clientURLs : list string)
  | VEmpty.

Definition below (dir key : string) : bool :=
  String.eqb key dir || String.prefix (dir +:+ "/") key.

Definition store_exists (st : gmap string StoreValue) (p : string) : bool :=
  existsb (λ kv, below p kv.1) (map_to_list st).

Definition store_Create (st : gmap string StoreValue) (p : string)
    (v : StoreValue) : option (gmap string StoreValue) :=
  if store_exists st p then None else Some (<[p := v]> st).

Definition store_Delete (st : gmap string StoreValue) (p : string)
    : option (gmap string StoreValue) :=
  if store_exists st p
  then Some (filter (λ kv, below p kv.1 = false) st)
  else None.

Definition hex_digit (d : Z) : ascii :=
  ascii_of_N (Z.to_N (if d <? 10 then 48 + d else 87 + d)).

Fixpoint hex (n : nat) (x : Z) : string :=
  match n with
  | O => EmptyString
  | S n' => String (hex_digit ((Z.shiftr x (4 * Z.of_nat n')) mod 16)) (hex n' x)
  end.

(** Modelled from the spec: the store keys of section 6,
    [/0/members/<16-hex-id>/...] and [/0/removed_members/<16-hex-id>]
    ([memberStoreKey] and [removedMemberStoreKey] live in member.go). *)
Definition memberStoreKey (i : Z) : string := "/0/members/" +:+ hex 16 i.
Definition removedMemberStoreKey (i : Z) : string :=
  "/0/removed_members/" +:+ hex 16 i.

Definition raftAttributesSuffix : string := "raftAttributes".
Definition attributesSuffix : string := "attributes".

(** [path.Join] of a clean path and one element. *)
Definition path_Join (dir elem : string) : string := dir +:+ "/" +:+ elem.

(** ** Cluster *)
Record Cluster := mkCluster {
  c_id : Z;
  c_name : string;
  c_members : gmap Z Member;
  c_removed : gmap Z bool;
  c_store : option (gmap string StoreValue)
}.

Definition set_id (c : Cluster) (i : Z) : Cluster :=
  mkCluster i (c_name c) (c_members c) (c_removed c) (c_store c).
Definition set_members (c : Cluster) (ms : gmap Z Member) : Cluster :=
  mkCluster (c_id c) (c_name c) ms (c_removed c) (c_store c).
Definition set_removed (c : Cluster) (r : gmap Z bool) : Cluster :=
  mkCluster (c_id c) (c_name c) (c_members c) r (c_store c).
Definition set_store (c : Cluster) (st : option (gmap string StoreValue))
    : Cluster :=
  mkCluster (c_id c) (c_name c) (c_members c) (c_removed c) st.

Definition newCluster (name : string) : Cluster :=
  mkCluster 0 name ∅ ∅ None.

Definition NewClusterFromMembers (name : string) (i : Z)
    (membs : list Member) : Cluster :=
  fold_left (λ c m, set_members c (<[ID m := m]> (c_members c))) membs
            (set_id (newCluster name) i).

Definition Cluster_ID (c : Cluster) : Z := c_id c.
Definition SetID (c : Cluster) (i : Z) : Cluster := set_id c i.
Definition SetStore (c : Cluster) (st : gmap string StoreValue) : Cluster :=
  set_store c (Some st).

(** [c.members[id]]: the nil pointer is [None]. *)
Definition Cluster_Member (c : Cluster) (i : Z) : option Member :=
  c_members c !! i.

(** [c.removed[id]]: a missing key reads [false]. *)
Definition IsIDRemoved (c : Cluster) (i : Z) : bool :=
  default false (c_removed c !! i).

(** [SortableMemberSlice.Less] *)
Definition lessByID (a b : Member) : bool := ID a <? ID b.

Section RangeMembers.
Context (visit : gmap Z Member → list (Z * Member)).

Definition Members (c : Cluster) : list Member :=
  sort_Sort lessByID (map snd (visit (c_members c))).

Definition MemberIDs (c : Cluster) : list Z :=
  sort_Uint64 (map (λ kv, ID kv.2) (visit (c_members c))).

Definition Cluster_PeerURLs (c : Cluster) : list string :=
  sort_Strings (flat_map (λ kv, PeerURLs kv.2) (visit (c_members c))).

Definition Cluster_ClientURLs (c : Cluster) : list string :=
  sort_Strings (flat_map (λ kv, ClientURLs kv.2) (visit (c_members c))).

(** [fmt.Sprintf("%s=%s", m.Name, u)] for each peer URL of each member,
    sorted and joined with commas. *)
Definition Cluster_String (c : Cluster) : string :=
  String.concat ","
    (sort_Strings
       (flat_map (λ kv, map (λ u, Name kv.2 +:+ "=" +:+ u) (PeerURLs kv.2))
                 (visit (c_members c)))).

Definition genID (c : Cluster) : Cluster :=
  let mIDs := MemberIDs c in
  let b := flat_map PutUint64 mIDs in
  let hash := SHA1.Sum b in
  set_id c (Uint64 hash).

(** The loop of [ValidateAndAssignIDs] over the two sorted slices.
    The members are shared with the map, so the ids written before a
    mismatch stay written: the slice is returned with them, next to the
    verdict.  Each element carries the map key it is stored under. *)
Fixpoint assignIDs (omembs : list (Z * Member)) (membs : list Member)
    : outcome (list (Z * Member) * option Error) :=
  match omembs with
  | [] => Ret ([], None)
  | (k, o) :: os =>
      match membs with
      | [] => Panic  (* membs[i]: index out of range *)
      | m :: ms =>
          if decide (PeerURLs o = PeerURLs m) then
            match assignIDs os ms with
            | Ret (os', e) => Ret ((k, setID o (ID m)) :: os', e)
            | Panic => Panic
            end
          else Ret (omembs, Some ErrUnmatchedMember)
      end
  end.

(** [less] is [SortableMemberSliceByPeerURLs.Less], which lives in
    member.go; it is a parameter here. *)
Definition ValidateAndAssignIDs (less : Member → Member → bool)
    (c : Cluster) (membs : list Member)
    : outcome (Cluster * option Error) :=
  if negb (size (c_members c) =? length membs)%nat then
    Ret (c, Some ErrMemberCount)
  else
    let omembs := sort_Sort (λ a b, less a.2 b.2) (visit (c_members c)) in
    let membs := sort_Sort less membs in
    match assignIDs omembs membs with
    | Panic => Panic
    | Ret (omembs', Some e) =>
        (* the map keeps its keys; the members reached carry new ids *)
        Ret (set_members c
               (fold_left (λ ms km, <[km.1 := km.2]> ms) omembs'
                          (c_members c)), Some e)
    | Ret (omembs', None) =>
        Ret (set_members c
               (fold_left (λ ms km, <[ID km.2 := km.2]> ms) omembs' ∅),
             None)
    end.
End RangeMembers.

(** [AddMember]: two store keys, then the map.  A nil store or a refused
    [Create] panics; [json.Marshal] of these records of strings does not
    fail. *)
Definition AddMember (c : Cluster) (m : Member) : outcome Cluster :=
  match c_store c with
  | None => Panic
  | Some st =>
      let p := path_Join (memberStoreKey (ID m)) raftAttributesSuffix in
      match store_Create st p (VRaftAttributes (PeerURLs m)) with
      | None => Panic
      | Some st =>
          let p := path_Join (memberStoreKey (ID m)) attributesSuffix in
          match store_Create st p (VAttributes (Name m) (ClientURLs m)) with
          | None => Panic
          | Some st =>
              Ret (set_members (set_store c (Some st))
                               (<[ID m := m]> (c_members c)))
          end
      end
  end.

(** [RemoveMember] *)
Definition RemoveMember (c : Cluster) (i : Z) : outcome Cluster :=
  match c_store c with
  | None => Panic
  | Some st =>
      match store_Delete st (memberStoreKey i) with
      | None => Panic
      | Some st =>
          let ms := delete i (c_members c) in
          match store_Create st (removedMemberStoreKey i) VEmpty with
          | None => Panic
          | Some st =>
              Ret (set_removed (set_members (set_store c (Some st)) ms)
                               (<[i := true]> (c_removed c)))
          end
      end
  end.

(** ** strings and net/url *)

(** [strings.Replace(s, ",", "&", -1)] *)
Fixpoint replace_char (old new : ascii) (s : string) : string :=
  match s with
  | EmptyString => EmptyString
  | String c s' =>
      String (if Ascii.eqb c old then new else c) (replace_char old new s')
  end.

(** [strings.Split(s, sep)] for a separator of one byte, generalised to a
    set of separator bytes: the pieces between separators, empty ones
    included. *)
Fixpoint split_on (sep : ascii → bool) (s : string) : list string :=
  match s with
  | EmptyString => [EmptyString]
  | String c s' =>
      if sep c then EmptyString :: split_on sep s'
      else match split_on sep s' with
           | [] => [String c EmptyString]
           | seg :: segs => String c seg :: segs
           end
  end.

Definition strings_Split (s : string) (sep : ascii) : list string :=
  split_on (Ascii.eqb sep) s.

(** [strings.Join] *)
Definition strings_Join (l : list string) (sep : string) : string :=
  String.concat sep l.

(** The text before the first [sep] and the text after it; without a
    [sep] the whole text and the empty string. *)
Fixpoint cut_at (sep : ascii) (s : string) : string * string :=
  match s with
  | EmptyString => (EmptyString, EmptyString)
  | String c s' =>
      if Ascii.eqb c sep then (EmptyString, s')
      else let '(k, v) := cut_at sep s' in (String c k, v)
  end.

Definition ishex (c : ascii) : bool :=
  let n := N_of_ascii c in
  ((48 <=? n) && (n <=? 57) || (97 <=? n) && (n <=? 102)
   || (65 <=? n) && (n <=? 70))%N.

Definition unhex (c : ascii) : N :=
  let n := N_of_ascii c in
  (if (48 <=? n) && (n <=? 57) then n - 48
   else if (97 <=? n) && (n <=? 102) then n - 97 + 10
   else if (65 <=? n) && (n <=? 70) then n - 65 + 10
   else 0)%N.

(** [url.QueryUnescape]: [%XX] is the byte XX, [+] is a space; a [%] not
    followed by two hex digits is an error. *)
Fixpoint QueryUnescape (s : string) : option string :=
  match s with
  | EmptyString => Some EmptyString
  | String "%" (String h1 (String h2 rest)) =>
      if ishex h1 && ishex h2 then
        String (ascii_of_N (unhex h1 * 16 + unhex h2)) <$> QueryUnescape rest
      else None
  | String "%" _ => None
  | String "+" rest => String " " <$> QueryUnescape rest
  | String c rest => String c <$> QueryUnescape rest
  end.

(** [url.Values] *)
Definition Values_add (m : gmap string (list string)) (key value : string)
    : gmap string (list string) :=
  <[key := default [] (m !! key) ++ [value]]> m.

(** One turn of the loop of [url.parseQuery] on the piece [seg]. *)
Definition parseQuery_step (st : gmap string (list string) * option Error)
    (seg : string) : gmap string (list string) * option Error :=
  let '(m, err) := st in
  if String.eqb seg "" then st
  else
    let '(key, value) := cut_at "=" seg in
    match QueryUnescape key with
    | None => (m, Some (default ErrEscape err))
    | Some key =>
        match QueryUnescape value with
        | None => (m, Some (default ErrEscape err))
        | Some value => (Values_add m key value, err)
        end
    end.

(** [url.ParseQuery], with the separators [&] and [;] of the Go releases
    this code was written for.  It returns the map of the settings it
    could read together with the first error. *)
Definition ParseQuery (query : string)
    : gmap string (list string) * option Error :=
  fold_left parseQuery_step
    (split_on (λ c, Ascii.eqb c "&" || Ascii.eqb c ";") query) (∅, None).

(** ** flags.URLsValue and types.NewURLs *)

(** [types.URLs.Less] *)
Definition lessURL (a b : URL) : bool :=
  String.ltb (URL_String a) (URL_String b).

Fixpoint parse_all (parseURL : string → option URL) (strs : list string)
    : option (list URL) :=
  match strs with
  | [] => Some []
  | s :: rest =>
      match parseURL s with
      | None => None
      | Some u => cons u <$> parse_all parseURL rest
      end
  end.

(** Modelled from the spec: [types.NewURLs] and [flags.URLsValue.Set]
    (packages pkg/types and pkg/flags are not among the sources).  Section
    2 has URLs as "a sorted, normalized list of URLs" and section 3 as a
    sequence of validated URLs: every text is validated and normalized, an
    empty list is refused, and the list is sorted.  What a valid URL is
    stays a parameter: [parseURL] stands for trimming, [url.Parse] and the
    checks on scheme, host:port and path. *)
Definition NewURLs (parseURL : string → option URL) (strs : list string)
    : option (list URL) :=
  match strs with
  | [] => None
  | _ => sort_Sort lessURL <$> parse_all parseURL strs
  end.

(** [URLsValue.Set]: split on commas, then [NewURLs]. *)
Definition URLsValue_Set (parseURL : string → option URL) (s : string)
    : option (list URL) :=
  NewURLs parseURL (strings_Split s ",").

(** ** NewClusterFromString *)
Section Bootstrap.
Context (parseURL : string → option URL).
Context (visitV : gmap string (list string) → list (string * list string)).
Context (visitM : gmap Z Member → list (Z * Member)).

(** One turn of the loop over the parsed settings. *)
Definition addParsed (c : Cluster) (name : string) (urls : list string)
    : result Cluster :=
  match urls with
  | [] => Err (ErrEmptyURL name)
  | u0 :: _ =>
      if String.eqb u0 "" then Err (ErrEmptyURL name)
      else
        match URLsValue_Set parseURL (strings_Join urls ",") with
        | None => Err ErrInvalidURLs
        | Some purls =>
            let m := NewMember name purls (c_name c) None in
            match c_members c !! ID m with
            | Some _ => Err (ErrDuplicateID (ID m))
            | None => Ok (set_members c (<[ID m := m]> (c_members c)))
            end
        end
  end.

Fixpoint addAllParsed (c : Cluster) (entries : list (string * list string))
    : result Cluster :=
  match entries with
  | [] => Ok c
  | (name, urls) :: rest =>
      match addParsed c name urls with
      | Err e => Err e
      | Ok c' => addAllParsed c' rest
      end
  end.

Definition NewClusterFromString (name cluster : string) : result Cluster :=
  let c := newCluster name in
  match ParseQuery (replace_char "," "&" cluster) with
  | (_, Some e) => Err e
  | (v, None) =>
      match addAllParsed c (visitV v) with
      | Err e => Err e
      | Ok c => Ok (genID visitM c)
      end
  end.
End Bootstrap.

(** ** etcdmain: the cluster strings *)

(** [genClusterString] *)
Definition genClusterString (name : string) (urls : list URL) : string :=
  strings_Join (map (λ u, name +:+ "=" +:+ URL_String u) urls) ",".

(** [net.SRV], as far as it is read. *)
Record SRV := mkSRV { Target : string; Port : Z }.

Definition contains_char (c : ascii) (s : string) : bool :=
  existsb (Ascii.eqb c) (list_ascii_of_string s).

(** [net.JoinHostPort] *)
Definition JoinHostPort (host port : string) : string :=
  if contains_char ":" host || contains_char "%" host
  then "[" +:+ host +:+ "]:" +:+ port
  else host +:+ ":" +:+ port.

Section DNS.
(** The resolver: [lookupSRV(service, "tcp", domain)] and
    [net.ResolveTCPAddr("tcp", host)] followed by [String()]. *)
Context (lookupSRV : string → string → option (list SRV)).
Context (ResolveTCPAddr : string → option string).

(** The state the closure [updateNodeMap] shares with its caller. *)
Record dnsState := mkDns { stringParts : list string; tempName : Z }.

Fixpoint resolveAPUrls (apurls : list URL) : result (list string) :=
  match apurls with
  | [] => Ok []
  | u :: rest =>
      match ResolveTCPAddr (Host u) with
      | None => Err (ErrResolve (Host u))
      | Some a =>
          match resolveAPUrls rest with
          | Err e => Err e
          | Ok l => Ok (a :: l)
          end
      end
  end.

(** The body of the loop over the SRV answers. *)
Definition updateNode (name : string) (tcpAPUrls : list string)
    (prefix : string) (st : dnsState) (srv : SRV) : dnsState :=
  let host := JoinHostPort (Target srv) (pretty (Port srv)) in
  match ResolveTCPAddr host with
  | None => st
  | Some tcpAddr =>
      let n := fold_left (λ n url, if String.eqb url tcpAddr then name else n)
                         tcpAPUrls "" in
      let '(n, tmp) :=
        if String.eqb n "" then (pretty (tempName st), tempName st + 1)
        else (n, tempName st) in
      mkDns (stringParts st ++ [n +:+ "=" +:+ prefix +:+ tcpAddr]) tmp
  end.

Definition updateNodeMap (name dns : string) (tcpAPUrls : list string)
    (service prefix : string) (st : dnsState) : dnsState * option Error :=
  match lookupSRV service dns with
  | None => (st, Some (ErrLookupSRV service))
  | Some addrs =>
      (fold_left (updateNode name tcpAPUrls prefix) addrs st, None)
  end.

Definition genDNSClusterString (name dns defaultToken : string)
    (apurls : list URL) : result (string * string) :=
  let st := mkDns [] 0 in
  match resolveAPUrls apurls with
  | Err e => Err e
  | Ok tcpAPUrls =>
      let failCount := 0 in
      let '(st, err) :=
        updateNodeMap name dns tcpAPUrls "etcd-server-ssl" "https://" st in
      let failCount := if err is Some _ then failCount + 1 else failCount in
      let '(st, err) :=
        updateNodeMap name dns tcpAPUrls "etcd-server" "http://" st in
      let failCount := if err is Some _ then failCount + 1 else failCount in
      if failCount =? 2 then Err (default (ErrLookupSRV "etcd-server") err)
      else Ok (strings_Join (stringParts st) ",", defaultToken)
  end.
End DNS.

(** ** rafthttp: the transport hub *)

Inductive MessageType := MsgHup | MsgBeat | MsgProp | MsgApp | MsgAppResp
  | MsgVote | MsgVoteResp | MsgSnap | MsgHeartbeat | MsgHeartbeatResp.

Global Instance MessageType_eq_dec : EqDecision MessageType.
Proof. solve_decision. Defined.

(** [raftpb.Message], as far as the hub reads it: the addressee, the type
    and the length [m.Size()] of its encoding. *)
Record Message := mkMessage { To : Z; Type_ : MessageType; Size : Z }.

(** A [Peer] is represented by the messages its [Send] has been given,
    oldest first. *)
Record Peer := mkPeer { received : list Message }.

Definition Peer_Send (p : Peer) (m : Message) : Peer :=
  mkPeer (received p ++ [m]).

(** Modelled from the spec: [stats.ServerStats] (package etcdserver/stats
    is not among the sources) carries a counter of the bytes of append
    requests sent, which [SendAppendReq] raises by the size it is given. *)
Record ServerStats := mkServerStats { sendAppendReqBytes : Z }.

Definition SendAppendReq (ss : ServerStats) (reqSize : Z) : ServerStats :=
  mkServerStats (sendAppendReqBytes ss + reqSize).

Record transport := mkTransport {
  t_id : Z;
  serverStats : ServerStats;
  peers : gmap Z Peer
}.

(** The body of the loop of [transport.Send]. *)
Definition sendOne (t : transport) (m : Message) : transport :=
  if To m =? 0 then t
  else
    let to := To m in
    match peers t !! to with
    | None => t
    | Some p =>
        let ss := if decide (Type_ m = MsgApp)
                  then SendAppendReq (serverStats t) (Size m)
                  else serverStats t in
        mkTransport (t_id t) ss (<[to := Peer_Send p m]> (peers t))
    end.

Definition transport_Send (t : transport) (msgs : list Message) : transport :=
  fold_left sendOne msgs t.

(** ** A URL validator for the examples

    It accepts [scheme://host] where the scheme is [http] or [https] and
    the host holds a colon and no slash, and nothing else. *)
Definition exampleParseURL (s : string) : option URL :=
  let '(scheme, rest) := cut_at ":" s in
  match rest with
  | String "/" (String "/" host) =>
      if (String.eqb scheme "http" || String.eqb scheme "https")
         && contains_char ":" host && negb (contains_char "/" host)
      then Some (mkURL scheme host) else None
  | _ => None
  end.

(** ** Notions used in the statements *)

(** The members map is keyed by the ids of its members, as every
    constructor of the package leaves it. *)
Definition keyed (c : Cluster) : Prop :=
  ∀ k m, c_members c !! k = Some m → ID m = k.

(** The members of a cluster, in the order of [map_to_list]. *)
Definition member_list (c : Cluster) : list Member :=
  map snd (map_to_list (c_members c)).

(** Clusters used by the examples. *)
Definition example_members : list Member :=
  [mkMember 3 "c" ["http://c:2380"] []; mkMember 1 "a" ["http://a:2380"] [];
   mkMember 2 "b" ["http://b:2380"] []].

Definition example_cluster : Cluster :=
  SetStore (NewClusterFromMembers "etcd" 7 example_members) ∅.

Definition from_Ok (r : result Cluster) : Cluster :=
  match r with Ok c => c | Err _ => newCluster "" end.

Definition from_Ret (r : outcome Cluster) : Cluster :=
  match r with Ret c => c | Panic => newCluster "" end.

(** A cluster of one member built from a string, bound to an empty store,
    and the same after a second member is added. *)
Definition booted : Cluster :=
  from_Ok (NewClusterFromString exampleParseURL map_to_list map_to_list
             "etcd" "n1=http://10.0.0.1:2380").

Definition booted_grown : Cluster :=
  from_Ret (AddMember (SetStore booted ∅)
              (NewMember "n2" [mkURL "http" "10.0.0.2:2380"] "etcd" None)).

(** [example_cluster] after member 1 is added through [AddMember] and
    removed again. *)
Definition member_one : Member := mkMember 1 "a" ["http://a:2380"] [].

Definition one_removed : Cluster :=
  from_Ret (RemoveMember
              (from_Ret (AddMember (SetStore (newCluster "etcd") ∅) member_one))
              1).

(** The sum of the sizes of a list of messages. *)
Definition total_size (l : list Message) : Z :=
  foldr (λ m s, Size m + s) 0 l.

(** A message the hub hands to a peer: it has an addressee, and the
    addressee is registered. *)
Definition forwarded (t : transport) (m : Message) : Prop :=
  To m ≠ 0 ∧ is_Some (peers t !! To m).

Global Instance forwarded_dec t m : Decision (forwarded t m).
Proof. unfold forwarded. apply _. Defined.

(** *** DNS discovery, declaratively *)

(** The SRV answers that resolve, in the order they are treated, each
    with the URL prefix of its pass: the SSL answers, then the plaintext
    ones.  A failed query contributes nothing. *)
Definition resolved_pass (lookupSRV : string → string → option (list SRV))
    (ResolveTCPAddr : string → option string) (dns service prefix : string)
    : list (string * string) :=
  match lookupSRV service dns with
  | None => []
  | Some addrs =>
      omap (λ srv, pair prefix <$>
                   ResolveTCPAddr (JoinHostPort (Target srv) (pretty (Port srv))))
           addrs
  end.

Definition discovered (lookupSRV : string → string → option (list SRV))
    (ResolveTCPAddr : string → option string) (dns : string)
    : list (string * string) :=
  resolved_pass lookupSRV ResolveTCPAddr dns "etcd-server-ssl" "https://"
  ++ resolved_pass lookupSRV ResolveTCPAddr dns "etcd-server" "http://".

Definition is_self (self : list string) (addr : string) : bool :=
  bool_decide (addr ∈ self).

(** The label of the [i]-th discovered address: the caller's name when
    the address is one of its own, else the number of addresses before it
    that are not. *)
Definition label (name : string) (self : list string)
    (found : list (string * string)) (i : nat) (addr : string) : string :=
  if is_self self addr then name
  else pretty (Z.of_nat
         (length (filter (λ e, is_self self e.2 = false) (take i found)))).

Definition labelled (name : string) (self : list string)
    (found : list (string * string)) : list string :=
  imap (λ i e, label name self found i e.2 +:+ "=" +:+ e.1 +:+ e.2) found.

(** The resolver of TestGenDNSClusterString. *)
Definition test_lookupSRV (withSSL withoutSSL : list SRV)
    (service dns : string) : option (list SRV) :=
  if String.eqb service "etcd-server-ssl" then Some withSSL
  else if String.eqb service "etcd-server" then Some withoutSSL
  else None.

(** The entries of a cluster string that carry the label [name]. *)
Definition entries_labelled (name s : string) : list string :=
  filter (λ e, String.prefix (name +:+ "=") e = true) (strings_Split s ",").

(** Modelled from the spec: [SortableMemberSliceByPeerURLs.Less] (member.go
    is not among the sources) sorts "by peer URLs"; it compares the first
    peer URL of the two members. *)
Definition lessByFirstPeerURL (a b : Member) : bool :=
  String.ltb (hd "" (PeerURLs a)) (hd "" (PeerURLs b)).

Definition external_members : list Member :=
  [mkMember 20 "" ["http://b:2380"] []; mkMember 30 "" ["http://c:2380"] [];
   mkMember 10 "" ["http://a:2380"] []].

(** Some position of the two sorted slices has unequal peer URLs. *)
Definition mismatch (os : list (Z * Member)) (ms : list Member) : Prop :=
  ∃ i o m, os !! i = Some o ∧ ms !! i = Some m ∧ PeerURLs o.2 ≠ PeerURLs m.

(** The members after the ids are carried over, position by position. *)
Definition reassigned (os : list (Z * Member)) (ms : list Member)
    : list Member :=
  zip_with (λ o m, setID o.2 (ID m)) os ms.

(** *** Bootstrap, declaratively *)

(** What the loop of [NewClusterFromString] makes of one setting of the
    parsed string: the checks on the URLs, then the member. *)
Definition derive (parseURL : string → option URL) (clusterName : string)
    (name : string) (urls : list string) : result Member :=
  match urls with
  | [] => Err (ErrEmptyURL name)
  | u0 :: _ =>
      if String.eqb u0 "" then Err (ErrEmptyURL name)
      else match URLsValue_Set parseURL (strings_Join urls ",") with
           | None => Err ErrInvalidURLs
           | Some purls => Ok (NewMember name purls clusterName None)
           end
  end.

Definition accepted (parseURL : string → option URL) (clusterName : string)
    (e : string * list string) : Prop :=
  ∃ m, derive parseURL clusterName e.1 e.2 = Ok m.

(** The members of the settings that pass the checks. *)
Definition derived (parseURL : string → option URL) (clusterName : string)
    (entries : list (string * list string)) : list Member :=
  omap (λ e, match derive parseURL clusterName e.1 e.2 with
             | Ok m => Some m
             | Err _ => None
             end) entries.

Definition by_id (ms : list Member) : list (Z * Member) :=
  map (λ m, (ID m, m)) ms.

(** *** Well-formed initial-cluster strings *)

(** No byte of [s] satisfies [bad]. *)
Fixpoint free_of (bad : ascii → bool) (s : string) : bool :=
  match s with
  | EmptyString => true
  | String c s' => negb (bad c) && free_of bad s'
  end.

(** The bytes that [NewClusterFromString] and [ParseQuery] treat
    specially: the separators [,] [&] [;] and the escapes [%] [+]. *)
Definition reserved (c : ascii) : bool :=
  Ascii.eqb c "," || Ascii.eqb c "&" || Ascii.eqb c ";"
  || Ascii.eqb c "%" || Ascii.eqb c "+".

Definition plain (s : string) : Prop := free_of reserved s = true.

(** A name must not hold an equals sign either. *)
Definition plain_name (s : string) : Prop :=
  free_of (λ c, reserved c || Ascii.eqb c "=") s = true.

(** [entry (',' entry)*] with [entry := name '=' url]. *)
Definition render_entry (e : string * string) : string :=
  e.1 +:+ "=" +:+ e.2.

Definition render (entries : list (string * string)) : string :=
  strings_Join (map render_entry entries) ",".

(** The URLs given under the name [k], in the order they are given. *)
Definition urls_of (k : string) (entries : list (string * string))
    : list string :=
  map snd (filter (λ e, e.1 = k) entries).

(** The settings a list of entries amounts to: one per distinct name. *)
Definition group (entries : list (string * string))
    : gmap string (list string) :=
  fold_left (λ m e, Values_add m e.1 e.2) entries ∅.

Definition settings (entries : list (string * string))
    : list (string * list string) :=
  map (λ k, (k, urls_of k entries)) (remove_dups entries.*1).


(** The pairs of name and peer URL that [Cluster.String] prints. *)
Definition pairs_of (ms : list Member) : list (string * string) :=
  flat_map (λ m, map (λ u, (Name m, u)) (PeerURLs m)) ms.


(** Scenario S1. *)
Definition S1_entries : list (string * string) :=
  [("n1", "http://10.0.0.1:2380"); ("n1", "http://10.0.0.2:2380");
   ("n2", "http://10.0.0.3:2380")].

(** What a member built by [NewClusterFromString] looks like: it is the
    [NewMember] of validated URLs, at least one, and its peer URLs are
    sorted. *)
Definition bootstrapped (parseURL : string → option URL)
    (clusterName : string) (m : Member) : Prop :=
  ∃ purls, m = NewMember (Name m) purls clusterName None
    ∧ purls ≠ []
    ∧ Forall (λ u, ∃ s, parseURL s = Some u) purls
    ∧ Sorted (not_less String.ltb) (PeerURLs m).

(** A validator gives back unchanged the URLs it has produced. *)
Definition stable (parseURL : string → option URL) : Prop :=
  ∀ s u, parseURL s = Some u → parseURL (URL_String u) = Some u.

(** A cluster built from a string with an escaped comma in a name. *)
Definition escaped_name : Cluster :=
  from_Ok (NewClusterFromString exampleParseURL map_to_list map_to_list
             "etcd" "a%2Cb=http://10.0.0.1:2380").

(** * More of the code *)

(** ** cluster.go: MemberByName *)

(** The loop of [MemberByName]; [memb] is the member found so far, a
    second member of the name panics. *)
Fixpoint MemberByName_loop (name : string) (l : list (Z * Member))
    (memb : option Member) : outcome (option Member) :=
  match l with
  | [] => Ret memb
  | (_, m) :: rest =>
      if String.eqb (Name m) name then
        match memb with
        | Some _ => Panic
        | None => MemberByName_loop name rest (Some m)
        end
      else MemberByName_loop name rest memb
  end.

Definition MemberByName (visit : gmap Z Member → list (Z * Member))
    (c : Cluster) (name : string) : outcome (option Member) :=
  MemberByName_loop name (visit (c_members c)) None.

(** The members of the cluster that carry the name. *)
Definition named (c : Cluster) (name : string) : list Member :=
  filter (λ m, Name m = name) (member_list c).

(** ** etcdmain: setupCluster *)

(** The fields of [config] that [setupCluster] and [startProxy] read. *)
Record config := mkConfig {
  cfg_name : string;
  cfg_durl : string;
  cfg_dproxy : string;
  cfg_dnsCluster : string;
  cfg_initialClusterToken : string;
  cfg_initialCluster : string;
  cfg_apurls : list URL
}.

(** A returned pair [(cls, err)]: the nil pointer and the nil error are
    [None]. *)
Definition returned (r : result Cluster) : option Cluster * option Error :=
  match r with
  | Ok c => (Some c, None)
  | Err e => (None, Some e)
  end.

Section setup.
Context (parseURL : string → option URL).
Context (visitV : gmap string (list string) → list (string * list string)).
Context (visitM : gmap Z Member → list (Z * Member)).
Context (lookupSRV : string → string → option (list SRV)).
Context (ResolveTCPAddr : string → option string).

(** [setupCluster].  In the DNS case the short declaration
    [clusterStr, clusterToken, err := genDNSClusterString(...)] declares
    an [err] of the case clause; the assignment
    [cls, err = NewClusterFromString(...)] that follows writes that one,
    and the function returns the [err] of its own block, which no
    statement of this case has written. *)
Definition setupCluster (cfg : config) : option Cluster * option Error :=
  if negb (String.eqb (cfg_durl cfg) "") then
    let clusterStr := genClusterString (cfg_name cfg) (cfg_apurls cfg) in
    returned (NewClusterFromString parseURL visitV visitM
                (cfg_durl cfg) clusterStr)
  else if negb (String.eqb (cfg_dnsCluster cfg) "") then
    match genDNSClusterString lookupSRV ResolveTCPAddr (cfg_name cfg)
            (cfg_dnsCluster cfg) (cfg_initialClusterToken cfg)
            (cfg_apurls cfg) with
    | Err e => (None, Some e)
    | Ok (clusterStr, clusterToken) =>
        match NewClusterFromString parseURL visitV visitM
                clusterToken clusterStr with
        | Ok c => (Some c, None)
        | Err _ => (None, None)
        end
    end
  else
    returned (NewClusterFromString parseURL visitV visitM
                (cfg_initialClusterToken cfg) (cfg_initialCluster cfg)).

(** [startProxy], up to [peerURLs := cls.PeerURLs()]: the error returned
    before that line, or the peer URLs.  [GetCluster] is
    [discovery.GetCluster]; [NewTransport] is the error of
    [transport.NewTransport], if any; an error wrapped by [fmt.Errorf] is
    given as the error it wraps.  [PeerURLs] has a value receiver, so the
    call through the nil pointer panics. *)
Context (GetCluster : string → string → result string).
Context (NewTransport : option Error).
Context (visit : gmap Z Member → list (Z * Member)).

Definition startProxy_peerURLs (cfg : config)
    : outcome (result (list string)) :=
  match setupCluster cfg with
  | (_, Some e) => Ret (Err e)
  | (cls, None) =>
      let fetched :=
        if negb (String.eqb (cfg_durl cfg) "") then
          match GetCluster (cfg_durl cfg) (cfg_dproxy cfg) with
          | Err e => Err e
          | Ok s =>
              match NewClusterFromString parseURL visitV visitM
                      (cfg_durl cfg) s with
              | Err e => Err e
              | Ok c => Ok (Some c)
              end
          end
        else Ok cls in
      match fetched with
      | Err e => Ret (Err e)
      | Ok cls =>
          match NewTransport with
          | Some e => Ret (Err e)
          | None =>
              match cls with
              | None => Panic
              | Some c => Ret (Ok (Cluster_PeerURLs visit c))
              end
          end
      end
  end.
End setup.

(** ** rafthttp: the peers of the hub *)

(** Modelled from the spec: [stats.FollowerStats] and
    [LeaderStats.Follower] (package etcdserver/stats is not among the
    sources): per-follower counters, created on first use. *)
Record FollowerStats := mkFollowerStats { fs_success : Z; fs_fail : Z }.

Definition Follower (followers : gmap string FollowerStats) (name : string)
    : gmap string FollowerStats :=
  match followers !! name with
  | Some _ => followers
  | None => <[name := mkFollowerStats 0 0]> followers
  end.

(** The hub with the state that [transport.Send] does not touch: the
    follower statistics of [leaderStats], the URLs each peer was started
    or updated with, and the peers stopped so far, oldest first. *)
Record hub := mkHub {
  h_transport : transport;
  h_followers : gmap string FollowerStats;
  h_urls : gmap Z (list URL);
  h_stopped : list Z
}.

Definition set_peers (t : transport) (ps : gmap Z Peer) : transport :=
  mkTransport (t_id t) (serverStats t) ps.

(** [NewTransporter] *)
Definition NewTransporter (i : Z) (ss : ServerStats)
    (ls : gmap string FollowerStats) : hub :=
  mkHub (mkTransport i ss ∅) ls ∅ [].

(** [transport.Get]: the nil peer is [None]. *)
Definition transport_Get (h : hub) (i : Z) : option Peer :=
  peers (h_transport h) !! i.

(** [transport.Send] on the hub. *)
Definition hub_Send (h : hub) (msgs : list Message) : hub :=
  mkHub (transport_Send (h_transport h) msgs) (h_followers h) (h_urls h)
        (h_stopped h).

Section peers.
(** [types.NewURLs] needs the validator; [idString] is [types.ID.String],
    which lives in pkg/types. *)
Context (parseURL : string → option URL).
Context (idString : Z → string).

(** [AddPeer]: [startPeer] gives a peer that has been sent nothing. *)
Definition AddPeer (h : hub) (i : Z) (us : list string) : outcome hub :=
  let t := h_transport h in
  if i =? t_id t then Ret h
  else
    match peers t !! i with
    | Some _ => Ret h
    | None =>
        match NewURLs parseURL us with
        | None => Panic
        | Some urls =>
            Ret (mkHub (set_peers t (<[i := mkPeer []]> (peers t)))
                       (Follower (h_followers h) (idString i))
                       (<[i := urls]> (h_urls h))
                       (h_stopped h))
        end
    end.

(** [removePeer]: the caller holds the lock. *)
Definition removePeer (h : hub) (i : Z) : outcome hub :=
  let t := h_transport h in
  match peers t !! i with
  | None => Panic
  | Some _ =>
      Ret (mkHub (set_peers t (delete i (peers t)))
                 (delete (idString i) (h_followers h))
                 (delete i (h_urls h))
                 (h_stopped h ++ [i]))
  end.

(** [RemovePeer] *)
Definition RemovePeer (h : hub) (i : Z) : outcome hub :=
  if i =? t_id (h_transport h) then Ret h else removePeer h i.

Fixpoint removePeers (h : hub) (ids : list Z) : outcome hub :=
  match ids with
  | [] => Ret h
  | i :: rest =>
      match removePeer h i with
      | Panic => Panic
      | Ret h' => removePeers h' rest
      end
  end.

(** [RemoveAllPeers]: the range is over the peer map, whose entries are
    deleted as they are visited. *)
Definition RemoveAllPeers (visit : gmap Z Peer → list (Z * Peer)) (h : hub)
    : outcome hub :=
  removePeers h (visit (peers (h_transport h))).*1.

(** [UpdatePeer] *)
Definition UpdatePeer (h : hub) (i : Z) (us : list string) : outcome hub :=
  let t := h_transport h in
  if i =? t_id t then Ret h
  else
    match peers t !! i with
    | None => Ret h
    | Some _ =>
        match NewURLs parseURL us with
        | None => Panic
        | Some urls =>
            Ret (mkHub t (h_followers h) (<[i := urls]> (h_urls h))
                       (h_stopped h))
        end
    end.

(** [transport.Stop]: every peer is stopped; the map is left as it is. *)
Definition transport_Stop (visit : gmap Z Peer → list (Z * Peer)) (h : hub)
    : hub :=
  mkHub (h_transport h) (h_followers h) (h_urls h)
        (h_stopped h ++ (visit (peers (h_transport h))).*1).
End peers.

(** The calls a server makes on its transport. *)
Inductive hub_call :=
  | CallAddPeer (i : Z) (us : list string)
  | CallRemovePeer (i : Z)
  | CallRemoveAllPeers
  | CallUpdatePeer (i : Z) (us : list string)
  | CallSend (msgs : list Message)
  | CallStop.

Definition hub_step (parseURL : string → option URL) (idString : Z → string)
    (visit : gmap Z Peer → list (Z * Peer)) (h : hub) (call : hub_call)
    : outcome hub :=
  match call with
  | CallAddPeer i us => AddPeer parseURL idString h i us
  | CallRemovePeer i => RemovePeer idString h i
  | CallRemoveAllPeers => RemoveAllPeers idString visit h
  | CallUpdatePeer i us => UpdatePeer parseURL h i us
  | CallSend msgs => Ret (hub_Send h msgs)
  | CallStop => Ret (transport_Stop visit h)
  end.

Fixpoint hub_run (parseURL : string → option URL) (idString : Z → string)
    (visit : gmap Z Peer → list (Z * Peer)) (h : hub) (calls : list hub_call)
    : outcome hub :=
  match calls with
  | [] => Ret h
  | call :: rest =>
      match hub_step parseURL idString visit h call with
      | Panic => Panic
      | Ret h' => hub_run parseURL idString visit h' rest
      end
  end.

(** ** cluster.go: reading members back from the store *)

(** [path.Base] *)
Fixpoint strip_slashes (p : string) : string :=
  match p with
  | EmptyString => EmptyString
  | String c r =>
      match strip_slashes r with
      | EmptyString => if Ascii.eqb c "/" then EmptyString
                       else String c EmptyString
      | r' => String c r'
      end
  end.

Definition path_Base (p : string) : string :=
  if String.eqb p "" then "."%string
  else
    let e := List.last (split_on (Ascii.eqb "/") (strip_slashes p))
                       EmptyString in
    if String.eqb e "" then "/"%string else e.

(** [strconv.ParseUint(s, 16, 64)]: the empty text, a byte that is not a
    hex digit and a value of more than 64 bits are errors. *)
Fixpoint ParseUint_loop (s : string) (n : Z) : option Z :=
  match s with
  | EmptyString => Some n
  | String c r =>
      if ishex c then
        if 2 ^ 60 <=? n then None
        else ParseUint_loop r (n * 16 + Z.of_N (unhex c))
      else None
  end.

Definition ParseUint16 (s : string) : option Z :=
  if String.eqb s "" then None else ParseUint_loop s 0.

(** Modelled from the spec: [parseMemberID] (member.go is not among the
    sources) reads the id back from the last element of a store key of
    section 6, and panics when that is not a hex number. *)
Definition parseMemberID (key : string) : outcome Z :=
  match ParseUint16 (path_Base key) with
  | Some i => Ret i
  | None => Panic
  end.

(** [json.Unmarshal] into [Attributes] and into [RaftAttributes], on the
    value a JSON text encodes: a field of the text that the record does
    not have is skipped, a field the text does not have keeps its zero
    value, and the empty text is an error. *)
Definition unmarshal_Attributes (v : StoreValue)
    : option (string * list string) :=
  match v with
  | VAttributes name clientURLs => Some (name, clientURLs)
  | VRaftAttributes _ => Some (EmptyString, [])
  | VEmpty => None
  end.

Definition unmarshal_RaftAttributes (v : StoreValue)
    : option (list string) :=
  match v with
  | VRaftAttributes peerURLs => Some peerURLs
  | VAttributes _ _ => Some []
  | VEmpty => None
  end.

(** [store.NodeExtern], as far as [nodeToMember] reads it: the key of the
    node and, of each child, its key and its value, nil for a directory. *)
Record NodeExtern := mkNode {
  n_Key : string;
  n_Nodes : list (string * option StoreValue)
}.

Inductive NodeError :=
  | ErrNodes (len : nat)            (* "len(nodes) = %d, want 2" *)
  | ErrKey (key want : string)      (* "key = %v, want %v" *)
  | ErrUnmarshalAttributes          (* "unmarshal attributes error: %v" *)
  | ErrUnmarshalRaftAttributes.     (* "unmarshal raftAttributes error: %v" *)

(** [nodeToMember]: the member, filled as far as the function got, and the
    error, if any; a key that holds no id and a child without a value
    panic. *)
Definition nodeToMember (n : NodeExtern)
    : outcome (Member * option NodeError) :=
  match parseMemberID (n_Key n) with
  | Panic => Panic
  | Ret i =>
      let m := mkMember i EmptyString [] [] in
      match n_Nodes n with
      | [(k0, v0); (k1, v1)] =>
          let w := path_Join (n_Key n) attributesSuffix in
          if negb (String.eqb k0 w) then Ret (m, Some (ErrKey k0 w))
          else
            match v0 with
            | None => Panic
            | Some v0 =>
                match unmarshal_Attributes v0 with
                | None => Ret (m, Some ErrUnmarshalAttributes)
                | Some (name, clientURLs) =>
                    let m := mkMember i name [] clientURLs in
                    let w := path_Join (n_Key n) raftAttributesSuffix in
                    if negb (String.eqb k1 w) then Ret (m, Some (ErrKey k1 w))
                    else
                      match v1 with
                      | None => Panic
                      | Some v1 =>
                          match unmarshal_RaftAttributes v1 with
                          | None =>
                              Ret (m, Some ErrUnmarshalRaftAttributes)
                          | Some peerURLs =>
                              Ret (mkMember i name peerURLs clientURLs, None)
                          end
                      end
                end
            end
      | nodes => Ret (m, Some (ErrNodes (length nodes)))
      end
  end.

(** Modelled from the spec: [Store.Get(key, true, true)] (package store is
    not among the sources), as far as [nodeToMember] reads its result: the
    children of a directory are the first elements of the paths below it,
    each once, in ascending order of their keys. *)
Fixpoint strip_prefix (p s : string) : option string :=
  match p, s with
  | EmptyString, _ => Some s
  | String a p', String b s' =>
      if Ascii.eqb a b then strip_prefix p' s' else None
  | String _ _, EmptyString => None
  end.

Definition child_key (dir key : string) : option string :=
  match strip_prefix (dir +:+ "/") key with
  | Some rest => Some (path_Join dir (cut_at "/" rest).1)
  | None => None
  end.

Definition store_children (st : gmap string StoreValue) (dir : string)
    : list string :=
  sort_Strings (remove_dups (omap (child_key dir) (map_to_list st).*1)).

Definition store_node (st : gmap string StoreValue) (dir : string)
    : NodeExtern :=
  mkNode dir (map (λ k, (k, st !! k)) (store_children st dir)).

(** ** cluster.go: NewClusterFromStore *)

(** Modelled from the spec: the key prefixes of section 6
    ([storeMembersPrefix] and [storeRemovedMembersPrefix] live in
    member.go). *)
Definition storeMembersPrefix : string := "/0/members".
Definition storeRemovedMembersPrefix : string := "/0/removed_members".

(** What [Store.Get(key, true, true)] returns: the child nodes of the
    node of the key, the key-not-found error, or another error.  The
    store is an interface, its reads are a parameter. *)
Inductive GetResult :=
  | GetNodes (nodes : list NodeExtern)
  | GetKeyNotFound
  | GetFailed.

(** The loop over the member nodes. *)
Fixpoint load_members (c : Cluster) (nodes : list NodeExtern)
    : outcome Cluster :=
  match nodes with
  | [] => Ret c
  | n :: rest =>
      match nodeToMember n with
      | Ret (m, None) =>
          load_members (set_members c (<[ID m := m]> (c_members c))) rest
      | _ => Panic
      end
  end.

(** The loop over the nodes of the removed members. *)
Fixpoint load_removed (c : Cluster) (nodes : list NodeExtern)
    : outcome Cluster :=
  match nodes with
  | [] => Ret c
  | n :: rest =>
      match parseMemberID (n_Key n) with
      | Panic => Panic
      | Ret i =>
          load_removed (set_removed c (<[i := true]> (c_removed c))) rest
      end
  end.

Definition NewClusterFromStore (Get : string → GetResult) (name : string)
    (st : gmap string StoreValue) : outcome Cluster :=
  let c := set_store (newCluster name) (Some st) in
  match Get storeMembersPrefix with
  | GetKeyNotFound => Ret c
  | GetFailed => Panic
  | GetNodes nodes =>
      match load_members c nodes with
      | Panic => Panic
      | Ret c =>
          match Get storeRemovedMembersPrefix with
          | GetKeyNotFound => Ret c
          | GetFailed => Panic
          | GetNodes nodes => load_removed c nodes
          end
      end
  end.

(** The node of a member as [AddMember] leaves it in the store, its
    children in the order of their keys, and the node of a removed id. *)
Definition member_node (m : Member) : NodeExtern :=
  mkNode (memberStoreKey (ID m))
    [(path_Join (memberStoreKey (ID m)) attributesSuffix,
      Some (VAttributes (Name m) (ClientURLs m)));
     (path_Join (memberStoreKey (ID m)) raftAttributesSuffix,
      Some (VRaftAttributes (PeerURLs m)))].

Definition removed_node (i : Z) : NodeExtern :=
  mkNode (removedMemberStoreKey i) [].

(** * Facts *)

(** ** The hash and the member ids against their test vectors *)

Example sha1_abc :
  SHA1.Sum (bytes_of_string "abc") =
  [0xa9; 0x99; 0x3e; 0x36; 0x47; 0x06; 0x81; 0x6a; 0xba; 0x3e;
   0x25; 0x71; 0x78; 0x50; 0xc2; 0x6c; 0x9c; 0xd0; 0xd8; 0x9d].
Proof. vm_compute. reflexivity. Qed.

Example sha1_two_blocks :
  Uint64 (SHA1.Sum (bytes_of_string
    "abcdbcdecdefdefgefghfghighijhijkijkljklmklmnlmnomnopnopq")) =
  0x84983e441c3bd26e.
Proof. vm_compute. reflexivity. Qed.

(** The rows of TestMemberTime (1984-12-23T15:04:05Z is 472662245). *)
Example TestMemberTime_0 :
  ID (NewMember "mem1" [mkURL "http" "10.0.0.8:2379"] "" None)
  = 14544069596553697298.
Proof. vm_compute. reflexivity. Qed.

Example TestMemberTime_1 :
  ID (NewMember "memfoo" [mkURL "http" "10.0.0.8:2379"] "" None)
  = 14544069596553697298.
Proof. vm_compute. reflexivity. Qed.

Example TestMemberTime_2 :
  ID (NewMember "mem1" [mkURL "http" "10.0.0.8:2379"] "" (Some 472662245))
  = 2448790162483548276.
Proof. vm_compute. reflexivity. Qed.

Example TestMemberTime_3 :
  ID (NewMember "mcm1" [mkURL "http" "10.0.0.8:2379"] "etcd" (Some 472662245))
  = 6973882743191604649.
Proof. vm_compute. reflexivity. Qed.

Example TestMemberTime_4 :
  ID (NewMember "mem1" [mkURL "http" "10.0.0.1:2379"] "" (Some 472662245))
  = 1466075294948436910.
Proof. vm_compute. reflexivity. Qed.

Example TestMemberTime_5 :
  ID (NewMember "mem1"
        [mkURL "http" "10.0.0.1:2379"; mkURL "http" "10.0.0.2:2379"] "" None)
  = 16552244735972308939.
Proof. vm_compute. reflexivity. Qed.

Example TestMemberTime_6 :
  ID (NewMember "mem1"
        [mkURL "http" "10.0.0.2:2379"; mkURL "http" "10.0.0.1:2379"] "" None)
  = 16552244735972308939.
Proof. vm_compute. reflexivity. Qed.

(** ** Orders and sorting *)

Lemma ascii_compare_refl a : Ascii.compare a a = Eq.
Proof. unfold Ascii.compare. apply N.compare_refl. Qed.

Lemma string_compare_refl s : String.compare s s = Eq.
Proof.
  induction s as [|a s IH]; simpl; [done|].
  by rewrite ascii_compare_refl.
Qed.

Lemma string_compare_lt_trans s1 : ∀ s2 s3,
  String.compare s1 s2 = Lt → String.compare s2 s3 = Lt →
  String.compare s1 s3 = Lt.
Proof.
  induction s1 as [|a s1 IH]; intros [|b s2] [|c s3]; simpl; try done.
  unfold Ascii.compare.
  destruct (N.compare_spec (N_of_ascii a) (N_of_ascii b)) as [Hab|Hab|Hab];
    try done;
    destruct (N.compare_spec (N_of_ascii b) (N_of_ascii c)) as [Hbc|Hbc|Hbc];
    try done; intros H1 H2.
  - rewrite Hab, Hbc, N.compare_refl. eauto.
  - rewrite Hab. by apply N.compare_lt_iff in Hbc as ->.
  - rewrite <- Hbc. by apply N.compare_lt_iff in Hab as ->.
  - assert (N_of_ascii a < N_of_ascii c)%N as Hac by lia.
    by apply N.compare_lt_iff in Hac as ->.
Qed.

Lemma string_not_less_leb s1 s2 :
  not_less String.ltb s1 s2 ↔ String.leb s1 s2 = true.
Proof.
  unfold not_less, String.ltb, String.leb.
  rewrite (String.compare_antisym s1 s2).
  destruct (String.compare s2 s1); simpl; split; congruence.
Qed.

Global Instance string_not_less_total : Total (not_less String.ltb).
Proof.
  intros s1 s2. rewrite !string_not_less_leb. apply String.leb_total.
Qed.

Global Instance string_not_less_antisym : AntiSymm (=) (not_less String.ltb).
Proof.
  intros s1 s2. rewrite !string_not_less_leb. apply String.leb_antisym.
Qed.

Global Instance string_not_less_trans : Transitive (not_less String.ltb).
Proof.
  intros s1 s2 s3. unfold not_less, String.ltb. intros H12 H23.
  destruct (String.compare s3 s1) eqn:H31; try done.
  destruct (String.compare s2 s1) eqn:H21; try done.
  - apply String.compare_eq_iff in H21 as ->. by rewrite H31 in H23.
  - pose proof (String.compare_antisym s1 s2) as Ha. rewrite H21 in Ha.
    simpl in Ha.
    by rewrite (string_compare_lt_trans _ _ _ H31 Ha) in H23.
Qed.

Global Instance Z_not_less_total : Total (not_less Z.ltb).
Proof. intros x y. unfold not_less. rewrite !Z.ltb_ge. lia. Qed.

Global Instance Z_not_less_antisym : AntiSymm (=) (not_less Z.ltb).
Proof. intros x y. unfold not_less. rewrite !Z.ltb_ge. lia. Qed.

Global Instance Z_not_less_trans : Transitive (not_less Z.ltb).
Proof. intros x y z. unfold not_less. rewrite !Z.ltb_ge. lia. Qed.

Section sort_facts.
Context {A : Type} (less : A → A → bool).

Lemma sort_Sort_perm l : sort_Sort less l ≡ₚ l.
Proof. apply merge_sort_Permutation. Qed.

Lemma sort_Sort_sorted `{!Total (not_less less)} l :
  Sorted (not_less less) (sort_Sort less l).
Proof. apply (Sorted_merge_sort _). Qed.

Lemma sort_Sort_length l : length (sort_Sort less l) = length l.
Proof. by rewrite sort_Sort_perm. Qed.

(** On a total order the sorted arrangement is unique: the outcome of
    the sort is that of any other correct sort, on any permutation of
    the input. *)
Lemma sort_Sort_unique
    `{!Total (not_less less), !Transitive (not_less less),
      !AntiSymm (=) (not_less less)} l1 l2 :
  l1 ≡ₚ l2 → sort_Sort less l1 = sort_Sort less l2.
Proof.
  intros Hp. apply (Sorted_unique (not_less less)).
  - apply sort_Sort_sorted.
  - apply sort_Sort_sorted.
  - by rewrite !sort_Sort_perm.
Qed.

Lemma sort_Sort_sorted_id
    `{!Total (not_less less), !Transitive (not_less less),
      !AntiSymm (=) (not_less less)} l :
  Sorted (not_less less) l → sort_Sort less l = l.
Proof.
  intros Hs. apply (Sorted_unique (not_less less)); [|done|].
  - apply sort_Sort_sorted.
  - apply sort_Sort_perm.
Qed.
End sort_facts.

(** ** Member ids *)

(** C1. The id of a member made with [createdAt] unset is the same for
    any permutation of the peer URLs and for any name. *)
Theorem NewMember_ID_perm_name (name1 name2 : string) (urls1 urls2 : list URL)
    (clusterName : string) :
  urls1 ≡ₚ urls2 →
  ID (NewMember name1 urls1 clusterName None)
  = ID (NewMember name2 urls2 clusterName None).
Proof.
  intros Hp. unfold NewMember, StringSlice, sort_Strings. simpl.
  do 3 f_equal. apply (sort_Sort_unique _). by apply Permutation_map.
Qed.

Lemma NewMember_ID_perm_name_witness :
  ID (NewMember "mem1"
        [mkURL "http" "10.0.0.1:2379"; mkURL "http" "10.0.0.2:2379"] "" None)
  = ID (NewMember "memfoo"
        [mkURL "http" "10.0.0.2:2379"; mkURL "http" "10.0.0.1:2379"] "" None).
Proof.
  apply (NewMember_ID_perm_name "mem1" "memfoo"
           [mkURL "http" "10.0.0.1:2379"; mkURL "http" "10.0.0.2:2379"]
           [mkURL "http" "10.0.0.2:2379"; mkURL "http" "10.0.0.1:2379"] "").
  apply perm_swap.
Defined.

(** ** Members() *)

Global Instance lessByID_total : Total (not_less lessByID).
Proof. intros a b. unfold not_less, lessByID. rewrite !Z.ltb_ge. lia. Qed.

Lemma Sorted_weaken {A} (R R' : relation A) l :
  (∀ x y, R x y → R' x y) → Sorted R l → Sorted R' l.
Proof.
  intros HR. induction 1 as [|x l Hs IH Hhd]; constructor; [done|].
  destruct Hhd; constructor; auto.
Qed.

Lemma admissible_map_to_list {K A} `{Countable K} :
  admissible (map_to_list : gmap K A → list (K * A)).
Proof. intros m. reflexivity. Qed.

(** C9. [Members()] returns exactly the members of the cluster, in
    ascending order of their ids, whatever the order in which the map is
    visited. *)
Theorem Members_sorted_exact (visit : gmap Z Member → list (Z * Member))
    (c : Cluster) :
  admissible visit →
  Members visit c ≡ₚ member_list c
  ∧ (∀ m, m ∈ Members visit c ↔ ∃ k, c_members c !! k = Some m)
  ∧ length (Members visit c) = size (c_members c)
  ∧ StronglySorted (λ a b, ID a ≤ ID b) (Members visit c).
Proof.
  intros Hv.
  assert (Members visit c ≡ₚ member_list c) as Hp.
  { unfold Members, member_list. rewrite sort_Sort_perm.
    apply Permutation_map, Hv. }
  split_and!; [done| | |].
  - intros m. rewrite Hp. unfold member_list. rewrite list_elem_of_fmap.
    split.
    + intros [[k m'] [-> Hin]]. exists k. by apply elem_of_map_to_list.
    + intros [k Hk]. exists (k, m). split; [done|].
      by apply elem_of_map_to_list.
  - rewrite Hp. unfold member_list. rewrite length_map.
    apply length_map_to_list.
  - apply Sorted_StronglySorted.
    { intros x y z. lia. }
    eapply Sorted_weaken; [|apply (sort_Sort_sorted lessByID)].
    intros x y. unfold not_less, lessByID. rewrite Z.ltb_ge. lia.
Qed.

Lemma Members_sorted_exact_witness :
  Members map_to_list example_cluster
  = [mkMember 1 "a" ["http://a:2380"] []; mkMember 2 "b" ["http://b:2380"] [];
     mkMember 3 "c" ["http://c:2380"] []]
  ∧ StronglySorted (λ a b, ID a ≤ ID b) (Members map_to_list example_cluster).
Proof.
  split; [vm_compute; reflexivity|].
  apply (Members_sorted_exact map_to_list example_cluster).
  intros m. reflexivity.
Defined.

(** ** The cluster id *)

Lemma be_value_be_bytes_acc n : ∀ x acc,
  fold_left (λ acc b, acc * 256 + b) (SHA1.be_bytes n x) acc
  = acc * 2 ^ (8 * Z.of_nat n) + x mod 2 ^ (8 * Z.of_nat n).
Proof.
  induction n as [|n IH]; intros x acc.
  - simpl. rewrite Z.mod_1_r. lia.
  - cbn [SHA1.be_bytes fold_left]. rewrite IH.
    rewrite Z.shiftr_div_pow2 by lia.
    replace (8 * Z.of_nat (S n)) with (8 * Z.of_nat n + 8) by lia.
    rewrite Z.pow_add_r by lia.
    change (2 ^ 8) with 256.
    rewrite (Z.rem_mul_r x (2 ^ (8 * Z.of_nat n)) 256) by lia.
    lia.
Qed.

(** The encoding is big-endian on 8 bytes: decoding gives the id back. *)
Lemma Uint64_PutUint64 i : 0 ≤ i < 2 ^ 64 → Uint64 (PutUint64 i) = i.
Proof.
  intros Hi. unfold Uint64, PutUint64, SHA1.be_value.
  replace (take 8 (SHA1.be_bytes 8 i)) with (SHA1.be_bytes 8 i) by done.
  rewrite be_value_be_bytes_acc. change (8 * Z.of_nat 8) with 64.
  rewrite Z.mod_small; lia.
Qed.

Lemma PutUint64_bytes i :
  length (PutUint64 i) = 8%nat ∧ Forall (λ b, 0 ≤ b < 256) (PutUint64 i).
Proof.
  split; [done|]. unfold PutUint64. cbn [SHA1.be_bytes].
  repeat constructor; apply Z.mod_pos_bound; lia.
Qed.

Lemma MemberIDs_spec visit c :
  admissible visit →
  MemberIDs visit c ≡ₚ map ID (member_list c)
  ∧ Sorted Z.le (MemberIDs visit c).
Proof.
  intros Hv. unfold MemberIDs, sort_Uint64, member_list. split.
  - rewrite sort_Sort_perm, (Hv (c_members c)). by rewrite map_map.
  - eapply Sorted_weaken; [|apply (sort_Sort_sorted Z.ltb)].
    intros x y. unfold not_less. rewrite Z.ltb_ge. lia.
Qed.

(** The sorted ids do not depend on the order of the visit. *)
Lemma MemberIDs_visit visit visit' c :
  admissible visit → admissible visit' →
  MemberIDs visit c = MemberIDs visit' c.
Proof.
  intros Hv Hv'. unfold MemberIDs, sort_Uint64.
  apply (sort_Sort_unique _). by rewrite (Hv _), (Hv' _).
Qed.

Lemma genID_visit visit visit' c :
  admissible visit → admissible visit' → genID visit c = genID visit' c.
Proof.
  intros Hv Hv'. unfold genID. by rewrite (MemberIDs_visit visit visit').
Qed.

Lemma keyed_ids c :
  keyed c → map ID (member_list c) = map fst (map_to_list (c_members c)).
Proof.
  intros Hk. unfold member_list. rewrite map_map.
  apply map_ext_in. intros [k m] Hin. simpl.
  apply Hk. apply elem_of_map_to_list. by apply list_elem_of_In.
Qed.

(** C2, as the code has it.  [genID] sets the cluster id to the first 8
    bytes, big-endian, of the SHA-1 of the 8-byte big-endian encodings of
    the member ids in ascending order; the id so derived depends only on
    the set of member ids; [AddMember] and [RemoveMember] leave the
    cluster id as it is. *)
Theorem genID_derivation (visit : gmap Z Member → list (Z * Member))
    (c : Cluster) :
  admissible visit →
  (∃ ids, ids ≡ₚ map ID (member_list c) ∧ Sorted Z.le ids
     ∧ Forall (λ i, 0 ≤ i < 2 ^ 64 →
                 length (PutUint64 i) = 8%nat ∧ Uint64 (PutUint64 i) = i) ids
     ∧ genID visit c
       = set_id c (SHA1.be_value
                     (take 8 (SHA1.Sum (concat (map PutUint64 ids))))))
  ∧ (∀ visit' c', admissible visit' → keyed c → keyed c' →
       dom (c_members c) = dom (c_members c') →
       c_id (genID visit c) = c_id (genID visit' c'))
  ∧ (∀ m c', AddMember c m = Ret c' → c_id c' = c_id c)
  ∧ (∀ i c', RemoveMember c i = Ret c' → c_id c' = c_id c).
Proof.
  intros Hv. split_and!.
  - exists (MemberIDs visit c).
    destruct (MemberIDs_spec visit c Hv) as [Hp Hs]. split_and!; [done..| |].
    + apply Forall_forall. intros i _ Hi. split; [done|].
      by apply Uint64_PutUint64.
    + unfold genID, Uint64. by rewrite flat_map_concat_map.
  - intros visit' c' Hv' Hk Hk' Hdom. unfold genID. simpl. do 3 f_equal.
    destruct (MemberIDs_spec visit c Hv) as [Hp Hs].
    destruct (MemberIDs_spec visit' c' Hv') as [Hp' Hs'].
    apply (Sorted_unique Z.le); [done..|].
    rewrite Hp, Hp', (keyed_ids c Hk), (keyed_ids c' Hk').
    apply NoDup_Permutation; [apply NoDup_fst_map_to_list..|].
    intros k. rewrite !list_elem_of_fmap.
    assert (∀ d : Cluster,
      (∃ y, k = y.1 ∧ y ∈ map_to_list (c_members d)) ↔ k ∈ dom (c_members d))
      as Hd.
    { intros d. rewrite elem_of_dom. split.
      - intros [[k' m] [-> Hin]]. exists m. by apply elem_of_map_to_list.
      - intros [m Hm]. exists (k, m). split; [done|].
        by apply elem_of_map_to_list. }
    by rewrite !Hd, Hdom.
  - intros m c'. unfold AddMember. repeat case_match; try done.
    by intros [= <-].
  - intros i c'. unfold RemoveMember. repeat case_match; try done.
    by intros [= <-].
Qed.

Lemma genID_derivation_witness :
  ∃ ids, ids ≡ₚ map ID (member_list example_cluster) ∧ Sorted Z.le ids
     ∧ Forall (λ i, 0 ≤ i < 2 ^ 64 →
                 length (PutUint64 i) = 8%nat ∧ Uint64 (PutUint64 i) = i) ids
     ∧ genID map_to_list example_cluster
       = set_id example_cluster
           (SHA1.be_value (take 8 (SHA1.Sum (concat (map PutUint64 ids))))).
Proof.
  apply (genID_derivation map_to_list example_cluster).
  intros m. reflexivity.
Defined.

(** C2, the part that fails: the cluster id is not derived again when the
    membership changes.  A cluster built from a string keeps its id when a
    second member is added, and that id is not the one [genID] derives
    from the two members. *)
Lemma cluster_id_kept_on_AddMember :
  NewClusterFromString exampleParseURL map_to_list map_to_list
    "etcd" "n1=http://10.0.0.1:2380" = Ok booted
  ∧ AddMember (SetStore booted ∅)
      (NewMember "n2" [mkURL "http" "10.0.0.2:2380"] "etcd" None)
    = Ret booted_grown
  ∧ size (c_members booted) = 1%nat
  ∧ size (c_members booted_grown) = 2%nat
  ∧ c_id booted_grown = c_id booted
  ∧ c_id booted_grown ≠ c_id (genID map_to_list booted_grown).
Proof.
  split_and!; try (vm_compute; reflexivity).
  vm_compute. discriminate.
Qed.

(** ** Removed ids *)

Lemma AddMember_removed c m r :
  AddMember (set_removed c r) m
  = match AddMember c m with
    | Ret c' => Ret (set_removed c' r)
    | Panic => Panic
    end.
Proof. unfold AddMember. simpl. by repeat case_match. Qed.

Lemma AddMember_keeps_removed c m c' :
  AddMember c m = Ret c' → c_removed c' = c_removed c.
Proof.
  unfold AddMember. repeat case_match; try done. by intros [= <-].
Qed.

(** What [RemoveMember] records.  After [RemoveMember(id)] has returned,
    the id is in the removed set and is no member, and it stays in the
    removed set through any later [AddMember].  [AddMember] does not read
    the removed set: its outcome is the same whatever that set holds. *)
Lemma RemoveMember_records (c : Cluster) (i : Z) (c' : Cluster) :
  RemoveMember c i = Ret c' →
  IsIDRemoved c' i = true
  ∧ c_members c' !! i = None
  ∧ (∀ m c'', AddMember c' m = Ret c'' → IsIDRemoved c'' i = true)
  ∧ (∀ m r, AddMember (set_removed c' r) m
            = match AddMember c' m with
              | Ret c'' => Ret (set_removed c'' r)
              | Panic => Panic
              end).
Proof.
  intros Hrm.
  assert (IsIDRemoved c' i = true ∧ c_members c' !! i = None) as [H1 H2].
  { revert Hrm. unfold RemoveMember. repeat case_match; try done.
    intros [= <-]. unfold IsIDRemoved. simpl.
    by rewrite lookup_insert_eq, lookup_delete_eq. }
  split_and!; [done..| |].
  - intros m c'' Hadd. unfold IsIDRemoved in *.
    by rewrite (AddMember_keeps_removed _ _ _ Hadd).
  - intros m r. apply AddMember_removed.
Qed.

Lemma RemoveMember_records_witness :
  IsIDRemoved one_removed 1 = true
  ∧ c_members one_removed !! 1 = None
  ∧ (∀ m c'', AddMember one_removed m = Ret c'' → IsIDRemoved c'' 1 = true)
  ∧ (∀ m r, AddMember (set_removed one_removed r) m
            = match AddMember one_removed m with
              | Ret c'' => Ret (set_removed c'' r)
              | Panic => Panic
              end).
Proof.
  apply (RemoveMember_records
           (from_Ret (AddMember (SetStore (newCluster "etcd") ∅) member_one))
           1 one_removed).
  vm_compute. reflexivity.
Defined.

(** C5.  The code at the failing input: a cluster bound to an empty
    store, [AddMember] of a member with id 1, [RemoveMember(1)], then
    [AddMember] of a member with id 1 again.  The second [AddMember]
    returns, it does not panic: the id is recorded as removed and is the
    id of a member at once, against the comment on the field [removed]
    (removed id cannot be reused). *)
Lemma AddMember_reuses_removed_id :
  RemoveMember
    (from_Ret (AddMember (SetStore (newCluster "etcd") ∅) member_one)) 1
  = Ret one_removed
  ∧ IsIDRemoved one_removed 1 = true
  ∧ ∃ c, AddMember one_removed (mkMember 1 "again" ["http://z:2380"] [])
         = Ret c
       ∧ c_members c !! 1 = Some (mkMember 1 "again" ["http://z:2380"] [])
       ∧ IsIDRemoved c 1 = true.
Proof.
  split_and!; try (vm_compute; reflexivity).
  eexists. split; [vm_compute; reflexivity|].
  split; vm_compute; reflexivity.
Qed.

(** ** The transport hub *)

Lemma sendOne_drop t m : ¬ forwarded t m → sendOne t m = t.
Proof.
  unfold sendOne, forwarded. intros Hn.
  destruct (Z.eqb_spec (To m) 0) as [H0|H0]; [done|].
  destruct (peers t !! To m) as [q|] eqn:Hq; [|done].
  destruct Hn. eauto.
Qed.

Lemma sendOne_forward t m p :
  To m ≠ 0 → peers t !! To m = Some p →
  sendOne t m
  = mkTransport (t_id t)
      (if decide (Type_ m = MsgApp)
       then SendAppendReq (serverStats t) (Size m) else serverStats t)
      (<[To m := Peer_Send p m]> (peers t)).
Proof.
  unfold sendOne. intros H0 Hp.
  destruct (Z.eqb_spec (To m) 0) as [?|_]; [done|]. by rewrite Hp.
Qed.

Lemma sendOne_spec t m :
  t_id (sendOne t m) = t_id t
  ∧ dom (peers (sendOne t m)) = dom (peers t)
  ∧ (∀ i p, peers t !! i = Some p →
       peers (sendOne t m) !! i
       = Some (if decide (To m = i ∧ To m ≠ 0) then Peer_Send p m else p))
  ∧ sendAppendReqBytes (serverStats (sendOne t m))
    = sendAppendReqBytes (serverStats t)
      + (if decide (forwarded t m ∧ Type_ m = MsgApp) then Size m else 0).
Proof.
  destruct (decide (forwarded t m)) as [Hf|Hn].
  - pose proof Hf as [H0 [q Hq]].
    rewrite (sendOne_forward t m q H0 Hq). simpl. split_and!; [done| | |].
    + rewrite dom_insert_L.
      apply subseteq_union_1_L, singleton_subseteq_l.
      by eapply elem_of_dom_2.
    + intros i p Hp. destruct (decide (To m = i)) as [<-|Hne].
      * rewrite lookup_insert_eq. rewrite decide_True by done. congruence.
      * rewrite lookup_insert_ne by done. rewrite Hp.
        rewrite decide_False; [done|]. intros [? _]. done.
    + destruct (decide (Type_ m = MsgApp)) as [Ht|Ht]; simpl.
      * rewrite decide_True; done.
      * rewrite decide_False; [lia|]. intros [_ ?]. done.
  - rewrite (sendOne_drop t m Hn). split_and!; [done..| |].
    + intros i p Hp. rewrite decide_False; [done|].
      intros [Heq H0]. apply Hn. split; [done|]. rewrite Heq. eauto.
    + rewrite decide_False; [lia|]. intros [? _]. done.
Qed.

Lemma forwarded_dom t t' m :
  dom (peers t') = dom (peers t) → forwarded t' m ↔ forwarded t m.
Proof.
  intros Hd. unfold forwarded. rewrite <- !elem_of_dom. by rewrite Hd.
Qed.

(** C8. [Send] keeps the set of peers; each registered peer is given, in
    order, exactly the messages addressed to it, so that a message to 0
    or to an unregistered id reaches no peer; and the counter of append
    bytes grows by the sizes of the [MsgApp] messages handed over.
    [Send] is a total function: no input makes it fail. *)
Theorem transport_Send_spec (t : transport) (msgs : list Message) :
  t_id (transport_Send t msgs) = t_id t
  ∧ dom (peers (transport_Send t msgs)) = dom (peers t)
  ∧ (∀ i p, peers t !! i = Some p →
       peers (transport_Send t msgs) !! i
       = Some (mkPeer (received p
                       ++ filter (λ m, To m = i ∧ To m ≠ 0) msgs)))
  ∧ sendAppendReqBytes (serverStats (transport_Send t msgs))
    = sendAppendReqBytes (serverStats t)
      + total_size (filter (λ m, forwarded t m ∧ Type_ m = MsgApp) msgs).
Proof.
  unfold transport_Send. revert t.
  induction msgs as [|m msgs IH]; intros t.
  - simpl. split_and!; [done..| |lia].
    intros i [r] Hp. simpl. by rewrite app_nil_r.
  - cbn [fold_left].
    destruct (sendOne_spec t m) as (Hid & Hdom & Hpeers & Hstats).
    destruct (IH (sendOne t m)) as (Hid' & Hdom' & Hpeers' & Hstats').
    split_and!.
    + congruence.
    + congruence.
    + intros i p Hp. rewrite (Hpeers' _ _ (Hpeers _ _ Hp)).
      rewrite filter_cons. f_equal.
      destruct (decide (To m = i ∧ To m ≠ 0)); simpl; [|done].
      by rewrite <- app_assoc.
    + rewrite Hstats', Hstats.
      rewrite filter_cons.
      rewrite (list_filter_iff
                 (λ m0, forwarded (sendOne t m) m0 ∧ Type_ m0 = MsgApp)
                 (λ m0, forwarded t m0 ∧ Type_ m0 = MsgApp)).
      2:{ intros m0. by rewrite (forwarded_dom _ _ _ Hdom). }
      destruct (decide (forwarded t m ∧ Type_ m = MsgApp)); simpl; lia.
Qed.

(** Scenario S5: a hub without a sender for id 7. *)
Example Send_to_unknown_peer :
  let t := mkTransport 1 (mkServerStats 0) {[ 2 := mkPeer [] ]} in
  transport_Send t [mkMessage 7 MsgApp 10] = t.
Proof. vm_compute. reflexivity. Qed.

Example Send_forwards_and_counts :
  let t := mkTransport 1 (mkServerStats 0) {[ 2 := mkPeer [] ]} in
  transport_Send t [mkMessage 0 MsgApp 5; mkMessage 2 MsgApp 10;
                    mkMessage 2 MsgHeartbeat 3; mkMessage 7 MsgApp 9]
  = mkTransport 1 (mkServerStats 10)
      {[ 2 := mkPeer [mkMessage 2 MsgApp 10; mkMessage 2 MsgHeartbeat 3] ]}.
Proof. vm_compute. reflexivity. Qed.

(** ** DNS discovery *)

(** The rows of TestGenDNSClusterString; the resolver of the test leaves
    an IP address and port as they are. *)
Example TestGenDNSClusterString_0 :
  genDNSClusterString (test_lookupSRV [] []) Some
    "dnsClusterTest" "example.com" "token" []
  = Ok ("", "token").
Proof. vm_compute. reflexivity. Qed.

Example TestGenDNSClusterString_1 :
  genDNSClusterString
    (test_lookupSRV [mkSRV "10.0.0.1" 2480; mkSRV "10.0.0.2" 2480;
                     mkSRV "10.0.0.3" 2480] [])
    Some "dnsClusterTest" "example.com" "token" []
  = Ok ("0=https://10.0.0.1:2480,1=https://10.0.0.2:2480,2=https://10.0.0.3:2480",
        "token").
Proof. vm_compute. reflexivity. Qed.

Example TestGenDNSClusterString_2 :
  genDNSClusterString
    (test_lookupSRV [mkSRV "10.0.0.1" 2480; mkSRV "10.0.0.2" 2480;
                     mkSRV "10.0.0.3" 2480] [mkSRV "10.0.0.1" 7001])
    Some "dnsClusterTest" "example.com" "token" []
  = Ok ("0=https://10.0.0.1:2480,1=https://10.0.0.2:2480,2=https://10.0.0.3:2480,3=http://10.0.0.1:7001",
        "token").
Proof. vm_compute. reflexivity. Qed.

Example TestGenDNSClusterString_3 :
  genDNSClusterString
    (test_lookupSRV [mkSRV "10.0.0.1" 2480; mkSRV "10.0.0.2" 2480;
                     mkSRV "10.0.0.3" 2480] [mkSRV "10.0.0.1" 7001])
    Some "dnsClusterTest" "example.com" "token"
    [mkURL "https" "10.0.0.1:2480"]
  = Ok ("dnsClusterTest=https://10.0.0.1:2480,0=https://10.0.0.2:2480,1=https://10.0.0.3:2480,2=http://10.0.0.1:7001",
        "token").
Proof. vm_compute. reflexivity. Qed.

Section DNS_facts.
Context (lookupSRV : string → string → option (list SRV)).
Context (ResolveTCPAddr : string → option string).
Context (name : string) (self : list string).

Let nonself (l : list (string * string)) : Z :=
  Z.of_nat (length (filter (λ e, is_self self e.2 = false) l)).

Lemma self_name_fold a : ∀ n0,
  fold_left (λ n url, if String.eqb url a then name else n) self n0
  = if is_self self a then name else n0.
Proof using Type.
  unfold is_self. induction self as [|url l IH]; intros n0; [done|].
  cbn [fold_left]. rewrite IH.
  destruct (String.eqb_spec url a) as [->|Hne].
  - rewrite (bool_decide_eq_true_2 (a ∈ a :: l)) by left.
    by case_bool_decide.
  - destruct (decide (a ∈ l)) as [Hin|Hnin].
    + rewrite !bool_decide_eq_true_2; [done| by right | done].
    + rewrite !bool_decide_eq_false_2; [done| | done].
      intros [?|?]%elem_of_cons; done.
Qed.

Lemma updateNode_resolved prefix st srv a :
  name ≠ "" →
  ResolveTCPAddr (JoinHostPort (Target srv) (pretty (Port srv))) = Some a →
  updateNode ResolveTCPAddr name self prefix st srv
  = mkDns (stringParts st
           ++ [(if is_self self a then name else pretty (tempName st))
               +:+ "=" +:+ prefix +:+ a])
          (tempName st + (if is_self self a then 0 else 1)).
Proof using Type.
  intros Hname Hres. unfold updateNode. rewrite Hres, self_name_fold.
  destruct (is_self self a).
  - destruct (String.eqb_spec name "") as [?|_]; [done|].
    by rewrite Z.add_0_r.
  - done.
Qed.

Lemma updateNode_fold prefix : name ≠ "" → ∀ addrs st,
  fold_left (updateNode ResolveTCPAddr name self prefix) addrs st
  = let found :=
      omap (λ srv, pair prefix <$>
              ResolveTCPAddr (JoinHostPort (Target srv) (pretty (Port srv))))
           addrs in
    mkDns (stringParts st
           ++ imap (λ i e,
                (if is_self self e.2 then name
                 else pretty (tempName st + nonself (take i found)))
                +:+ "=" +:+ e.1 +:+ e.2) found)
          (tempName st + nonself found).
Proof using Type.
  intros Hname. induction addrs as [|srv addrs IH]; intros st.
  - cbn. destruct st. by rewrite app_nil_r, Z.add_0_r.
  - cbn [fold_left omap list_omap].
    destruct (ResolveTCPAddr (JoinHostPort (Target srv) (pretty (Port srv))))
      as [a|] eqn:Hres.
    + rewrite (updateNode_resolved prefix st srv a Hname Hres), IH.
      cbn [fmap option_fmap option_map stringParts tempName].
      cbv zeta. rewrite imap_cons. cbn [take fst snd].
      rewrite <- app_assoc. cbn [app]. f_equal.
      * do 2 f_equal.
        { destruct (is_self self a) eqn:Hs; [done|].
          unfold nonself. cbn. by rewrite Z.add_0_r. }
        apply imap_ext. intros i e _. cbn [compose take].
        destruct (is_self self e.2); [done|]. do 2 f_equal.
        unfold nonself. rewrite filter_cons. cbn [snd].
        destruct (is_self self a) eqn:Hs.
        -- rewrite decide_False by done. lia.
        -- rewrite decide_True by done. cbn [length]. lia.
      * unfold nonself. rewrite filter_cons. cbn [snd].
        destruct (is_self self a) eqn:Hs.
        -- rewrite decide_False by done. lia.
        -- rewrite decide_True by done. cbn [length]. lia.
    + unfold updateNode at 2. rewrite Hres. cbn. apply IH.
Qed.

Lemma updateNodeMap_spec dns service prefix st :
  name ≠ "" →
  updateNodeMap lookupSRV ResolveTCPAddr name dns self service prefix st
  = let found := resolved_pass lookupSRV ResolveTCPAddr dns service prefix in
    (mkDns (stringParts st
            ++ imap (λ i e,
                 (if is_self self e.2 then name
                  else pretty (tempName st + nonself (take i found)))
                 +:+ "=" +:+ e.1 +:+ e.2) found)
           (tempName st + nonself found),
     if lookupSRV service dns is Some _ then None
     else Some (ErrLookupSRV service)).
Proof using Type.
  intros Hname. unfold updateNodeMap, resolved_pass.
  destruct (lookupSRV service dns) as [addrs|].
  - by rewrite updateNode_fold.
  - cbn. destruct st. by rewrite app_nil_r, Z.add_0_r.
Qed.
End DNS_facts.

Lemma labelled_two_passes (name : string) (self : list string)
    (l1 l2 : list (string * string)) :
  imap (λ i e,
     (if is_self self e.2 then name
      else pretty (0 + Z.of_nat (length
             (filter (λ e0, is_self self e0.2 = false) (take i l1)))))
     +:+ "=" +:+ e.1 +:+ e.2) l1
  ++ imap (λ i e,
     (if is_self self e.2 then name
      else pretty (0 + Z.of_nat (length
                    (filter (λ e0, is_self self e0.2 = false) l1))
                  + Z.of_nat (length
                    (filter (λ e0, is_self self e0.2 = false) (take i l2)))))
     +:+ "=" +:+ e.1 +:+ e.2) l2
  = labelled name self (l1 ++ l2).
Proof.
  unfold labelled. rewrite imap_app. f_equal.
  - apply imap_ext. intros i e Hi. unfold label.
    destruct (is_self self e.2); [done|].
    rewrite take_app_le; [done|].
    apply lookup_lt_Some in Hi. lia.
  - apply imap_ext. intros i e Hi. unfold label. cbn [compose].
    destruct (is_self self e.2); [done|].
    rewrite take_app_add, filter_app, length_app. do 3 f_equal. lia.
Qed.

(** C6, as the code has it.  Every SRV answer that resolves yields
    exactly one entry, in the order of discovery: those of the SSL query
    first, with [https://], then those of the plaintext query, with
    [http://].  An entry whose address is one of the caller's resolved
    addresses is labelled with the caller's name, provided that name is
    not empty; any other entry is labelled with the number of entries
    before it that are not the caller's.  Nothing is left out when an
    address appears in both passes. *)
Theorem genDNSClusterString_labelled
    (lookupSRV : string → string → option (list SRV))
    (ResolveTCPAddr : string → option string)
    (name dns defaultToken : string) (apurls : list URL) (self : list string) :
  name ≠ "" →
  resolveAPUrls ResolveTCPAddr apurls = Ok self →
  is_Some (lookupSRV "etcd-server-ssl" dns)
    ∨ is_Some (lookupSRV "etcd-server" dns) →
  let found := discovered lookupSRV ResolveTCPAddr dns in
  genDNSClusterString lookupSRV ResolveTCPAddr name dns defaultToken apurls
  = Ok (strings_Join (labelled name self found) ",", defaultToken)
  ∧ length (labelled name self found) = length found.
Proof.
  intros Hname Hself Hlook found. split.
  2:{ unfold labelled. apply length_imap. }
  unfold genDNSClusterString. rewrite Hself.
  rewrite (updateNodeMap_spec _ _ _ _ _ _ _ _ Hname). cbv beta iota zeta.
  rewrite (updateNodeMap_spec _ _ _ _ _ _ _ _ Hname). cbv beta iota zeta.
  cbn [stringParts tempName app].
  assert (((if lookupSRV "etcd-server-ssl" dns is Some _ then 0 else 1)
           + (if lookupSRV "etcd-server" dns is Some _ then 0 else 1)
           =? 2) = false) as Hcount.
  { destruct Hlook as [[? ->]|[? ->]]; destruct (lookupSRV _ dns); done. }
  destruct (lookupSRV "etcd-server-ssl" dns) as [a1|] eqn:E1;
    destruct (lookupSRV "etcd-server" dns) as [a2|] eqn:E2;
    try discriminate Hcount; simpl (_ =? _); cbv beta iota.
  all: do 3 f_equal; apply labelled_two_passes.
Qed.

Lemma genDNSClusterString_labelled_witness :
  genDNSClusterString
    (test_lookupSRV [mkSRV "10.0.0.1" 2480; mkSRV "10.0.0.2" 2480;
                     mkSRV "10.0.0.3" 2480] [mkSRV "10.0.0.1" 7001])
    Some "dnsClusterTest" "example.com" "token"
    [mkURL "https" "10.0.0.1:2480"]
  = Ok ("dnsClusterTest=https://10.0.0.1:2480,0=https://10.0.0.2:2480,1=https://10.0.0.3:2480,2=http://10.0.0.1:7001",
        "token").
Proof.
  refine (proj1 (genDNSClusterString_labelled
    (test_lookupSRV [mkSRV "10.0.0.1" 2480; mkSRV "10.0.0.2" 2480;
                     mkSRV "10.0.0.3" 2480] [mkSRV "10.0.0.1" 7001])
    Some "dnsClusterTest" "example.com" "token"
    [mkURL "https" "10.0.0.1:2480"] ["10.0.0.1:2480"] _ _ _)).
  - discriminate.
  - reflexivity.
  - left. vm_compute. eauto.
Defined.

(** C6, the part that fails: an address that is the caller's own and is
    answered by both queries is emitted by both passes, so twice, each
    time under the caller's name. *)
Lemma self_address_emitted_twice :
  ∃ s, genDNSClusterString
         (test_lookupSRV [mkSRV "10.0.0.1" 2480] [mkSRV "10.0.0.1" 2480])
         Some "dnsClusterTest" "example.com" "token"
         [mkURL "https" "10.0.0.1:2480"]
       = Ok (s, "token")
     ∧ s = "dnsClusterTest=https://10.0.0.1:2480,dnsClusterTest=http://10.0.0.1:2480"
     ∧ length (entries_labelled "dnsClusterTest" s) = 2%nat.
Proof.
  eexists. split; [vm_compute; reflexivity|].
  split; [reflexivity|]. vm_compute. reflexivity.
Qed.

(** ** ValidateAndAssignIDs *)

Lemma assignIDs_spec : ∀ os ms,
  length os = length ms →
  (¬ mismatch os ms
   ∧ assignIDs os ms
     = Ret (zip_with (λ o m, (o.1, setID o.2 (ID m))) os ms, None))
  ∨ (mismatch os ms
     ∧ ∃ os', assignIDs os ms = Ret (os', Some ErrUnmatchedMember)).
Proof.
  induction os as [|[k o] os IH]; intros [|m ms] Hlen; try done.
  - left. split; [|done]. intros (i & o & m & Hi & _). done.
  - injection Hlen as Hlen. cbn [assignIDs].
    destruct (decide (PeerURLs o = PeerURLs m)) as [Heq|Hne].
    + destruct (IH ms Hlen) as [[Hno ->]|[Hmis [os' ->]]].
      * left. split; [|done].
        intros (i & o' & m' & Hi & Hm & Hneq). destruct i as [|i].
        -- injection Hi as <-. injection Hm as <-. done.
        -- apply Hno. by exists i, o', m'.
      * right. split; [|eauto].
        destruct Hmis as (i & o' & m' & Hi & Hm & Hneq).
        by exists (S i), o', m'.
    + right. split; [|eauto]. by exists 0%nat, (k, o), m.
Qed.

Lemma zip_assign_snd : ∀ (os : list (Z * Member)) (ms : list Member),
  (zip_with (λ o m, (o.1, setID o.2 (ID m))) os ms).*2 = reassigned os ms.
Proof.
  unfold reassigned.
  induction os as [|o os IH]; intros [|m ms]; try done.
  cbn. by rewrite IH.
Qed.

Lemma reassigned_ids : ∀ (os : list (Z * Member)) (ms : list Member),
  length os = length ms → map ID (reassigned os ms) = map ID ms.
Proof.
  unfold reassigned.
  induction os as [|o os IH]; intros [|m ms] Hlen; try done.
  injection Hlen as Hlen. cbn. by rewrite IH.
Qed.

Section rekey.
Let ins (ms : gmap Z Member) (km : Z * Member) : gmap Z Member :=
  <[ID km.2 := km.2]> ms.

Lemma rekey_lookup : ∀ l acc k m,
  fold_left ins l acc !! k = Some m →
  (ID m = k ∧ m ∈ l.*2) ∨ acc !! k = Some m.
Proof using Type.
  induction l as [|km l IH]; intros acc k m Hk; [by right|].
  cbn [fold_left] in Hk. destruct (IH _ _ _ Hk) as [[? ?]|Hacc].
  - left. split; [done|]. rewrite fmap_cons. by right.
  - unfold ins in Hacc. destruct (decide (ID km.2 = k)) as [<-|Hne].
    + rewrite lookup_insert_eq in Hacc. injection Hacc as <-.
      left. split; [done|]. rewrite fmap_cons. by left.
    + rewrite lookup_insert_ne in Hacc by done. by right.
Qed.

Lemma rekey_notin : ∀ l acc k,
  k ∉ map ID l.*2 → fold_left ins l acc !! k = acc !! k.
Proof using Type.
  induction l as [|km l IH]; intros acc k Hk; [done|].
  cbn [fold_left]. rewrite fmap_cons in Hk. cbn [map] in Hk.
  apply not_elem_of_cons in Hk as [Hne Hk].
  rewrite IH by done. unfold ins. by rewrite lookup_insert_ne.
Qed.

Lemma rekey_mono : ∀ l acc k,
  is_Some (acc !! k) → is_Some (fold_left ins l acc !! k).
Proof using Type.
  induction l as [|km l IH]; intros acc k Hk; [done|].
  cbn [fold_left]. apply IH. unfold ins.
  destruct (decide (ID km.2 = k)) as [<-|Hne].
  - rewrite lookup_insert_eq. eauto.
  - by rewrite lookup_insert_ne.
Qed.

Lemma rekey_is_Some : ∀ l acc m,
  m ∈ l.*2 → is_Some (fold_left ins l acc !! ID m).
Proof using Type.
  induction l as [|km l IH]; intros acc m Hm; [by apply elem_of_nil in Hm|].
  rewrite fmap_cons in Hm. cbn [fold_left].
  apply elem_of_cons in Hm as [->|Hm]; [|by apply IH].
  apply rekey_mono. unfold ins. rewrite lookup_insert_eq. eauto.
Qed.

Lemma rekey_NoDup : ∀ l acc m,
  NoDup (map ID l.*2) → m ∈ l.*2 → fold_left ins l acc !! ID m = Some m.
Proof using Type.
  induction l as [|km l IH]; intros acc m Hnd Hm;
    [by apply elem_of_nil in Hm|].
  rewrite fmap_cons in Hm, Hnd. cbn [map] in Hnd.
  apply NoDup_cons in Hnd as [Hnotin Hnd]. cbn [fold_left].
  apply elem_of_cons in Hm as [->|Hm]; [|by apply IH].
  rewrite rekey_notin by done. unfold ins. by rewrite lookup_insert_eq.
Qed.
End rekey.

(** The outcome in terms of the two sorted slices, for any comparator. *)
Lemma ValidateAndAssignIDs_reassigned
    (visit : gmap Z Member → list (Z * Member))
    (less : Member → Member → bool) (c : Cluster) (membs : list Member) :
  admissible visit →
  let os := sort_Sort (λ a b, less a.2 b.2) (visit (c_members c)) in
  let ms := sort_Sort less membs in
  ∃ c' e,
    ValidateAndAssignIDs visit less c membs = Ret (c', e)
    ∧ (is_Some e ↔ size (c_members c) ≠ length membs ∨ mismatch os ms)
    ∧ (e = None →
         length (reassigned os ms) = size (c_members c)
         ∧ c' = set_members c (c_members c')
         ∧ (∀ k m, c_members c' !! k = Some m →
              ID m = k ∧ m ∈ reassigned os ms)
         ∧ (∀ m, m ∈ reassigned os ms → is_Some (c_members c' !! ID m))
         ∧ (NoDup (map ID membs) →
              ∀ m, m ∈ reassigned os ms → c_members c' !! ID m = Some m)).
Proof.
  intros Hv os ms. unfold ValidateAndAssignIDs.
  destruct (Nat.eqb_spec (size (c_members c)) (length membs)) as [Hsz|Hsz];
    cbn [negb].
  2:{ eexists _, _. split; [done|]. split; [|done].
      split; [by left | eauto]. }
  assert (length os = length ms) as Hlen.
  { unfold os, ms. rewrite !sort_Sort_length, (Hv _), length_map_to_list.
    done. }
  fold os ms.
  destruct (assignIDs_spec os ms Hlen) as [[Hno ->]|[Hmis [os' ->]]].
  - eexists _, None. split; [done|]. split.
    { split; [by intros [? ?]|]. intros [?|?]; done. }
    intros _. cbn [c_members set_members]. rewrite <- zip_assign_snd.
    split_and!.
    + rewrite zip_assign_snd. unfold reassigned.
      rewrite length_zip_with, Hlen, Nat.min_id. unfold ms.
      by rewrite sort_Sort_length.
    + done.
    + intros k m Hk. apply rekey_lookup in Hk as [?|Hk]; [done|].
      by rewrite lookup_empty in Hk.
    + intros m Hm. by apply rekey_is_Some.
    + intros Hnd m Hm. apply rekey_NoDup; [|done].
      rewrite zip_assign_snd, (reassigned_ids os ms Hlen).
      unfold ms. by rewrite sort_Sort_perm.
  - eexists _, (Some ErrUnmatchedMember). split; [done|]. split; [|done].
    split; [by right | eauto].
Qed.

Lemma elem_of_reassigned (os : list (Z * Member)) (ms : list Member) m' :
  m' ∈ reassigned os ms
  ↔ ∃ i o m, os !! i = Some o ∧ ms !! i = Some m
             ∧ m' = mkMember (ID m) (Name o.2) (PeerURLs o.2) (ClientURLs o.2).
Proof.
  unfold reassigned. rewrite elem_of_lookup_zip_with. unfold setID.
  split; intros (i & o & m & H); exists i, o, m; tauto.
Qed.

Global Instance lessByFirstPeerURL_total :
  Total (not_less lessByFirstPeerURL).
Proof.
  intros a b. unfold not_less, lessByFirstPeerURL.
  apply (string_not_less_total (hd EmptyString (PeerURLs a))
           (hd EmptyString (PeerURLs b))).
Qed.

Global Instance lessByFirstPeerURL_keyed_total :
  Total (not_less (λ a b : Z * Member, lessByFirstPeerURL a.2 b.2)).
Proof. intros a b. apply (lessByFirstPeerURL_total a.2 b.2). Qed.

Lemma not_less_first_peer_URL a b :
  not_less lessByFirstPeerURL a b →
  String.leb (hd EmptyString (PeerURLs a)) (hd EmptyString (PeerURLs b))
  = true.
Proof. unfold lessByFirstPeerURL. apply string_not_less_leb. Qed.

(** C7.  For members that have a peer URL each, [ValidateAndAssignIDs]
    returns (it does not panic).  There are an arrangement [os] of the
    members of the cluster and an arrangement [ms] of the external
    members, both in ascending order of the first peer URL, for which: an
    error is returned exactly when the numbers of members differ or some
    position has unequal peer URLs; on success nothing but the members
    map changes, every entry of the map is, under its new id, the member
    of some position with the id of the external member of that position,
    and every position has an entry (the one of that position when the
    external ids are pairwise distinct). *)
Theorem ValidateAndAssignIDs_spec
    (visit : gmap Z Member → list (Z * Member))
    (c : Cluster) (membs : list Member) :
  admissible visit →
  Forall (λ m, PeerURLs m ≠ []) (member_list c) →
  Forall (λ m, PeerURLs m ≠ []) membs →
  ∃ (os : list (Z * Member)) (ms : list Member) c' e,
    os ≡ₚ map_to_list (c_members c)
    ∧ ms ≡ₚ membs
    ∧ Sorted (λ a b, String.leb (hd EmptyString (PeerURLs a))
                                (hd EmptyString (PeerURLs b)) = true) os.*2
    ∧ Sorted (λ a b, String.leb (hd EmptyString (PeerURLs a))
                                (hd EmptyString (PeerURLs b)) = true) ms
    ∧ ValidateAndAssignIDs visit lessByFirstPeerURL c membs = Ret (c', e)
    ∧ (is_Some e
       ↔ size (c_members c) ≠ length membs
         ∨ ∃ i o m, os !! i = Some o ∧ ms !! i = Some m
                    ∧ PeerURLs o.2 ≠ PeerURLs m)
    ∧ (e = None →
         c' = set_members c (c_members c')
         ∧ (∀ k m', c_members c' !! k = Some m' →
              ID m' = k
              ∧ ∃ i o m, os !! i = Some o ∧ ms !! i = Some m
                         ∧ m' = mkMember (ID m) (Name o.2) (PeerURLs o.2)
                                         (ClientURLs o.2))
         ∧ (∀ i o m, os !! i = Some o → ms !! i = Some m →
              is_Some (c_members c' !! ID m))
         ∧ (NoDup (map ID membs) →
              ∀ i o m, os !! i = Some o → ms !! i = Some m →
                c_members c' !! ID m
                = Some (mkMember (ID m) (Name o.2) (PeerURLs o.2)
                                 (ClientURLs o.2)))).
Proof.
  intros Hv _ _.
  set (os := sort_Sort (λ a b : Z * Member, lessByFirstPeerURL a.2 b.2)
               (visit (c_members c))).
  set (ms := sort_Sort lessByFirstPeerURL membs).
  destruct (ValidateAndAssignIDs_reassigned visit lessByFirstPeerURL c membs
              Hv) as (c' & e & Hrun & Herr & Hok).
  fold os ms in Herr, Hok.
  exists os, ms, c', e. split_and!.
  - unfold os. by rewrite sort_Sort_perm, (Hv _).
  - apply sort_Sort_perm.
  - apply (Sorted_fmap snd
             (not_less (λ a b : Z * Member, lessByFirstPeerURL a.2 b.2))).
    + intros x y Hxy. exact (not_less_first_peer_URL x.2 y.2 Hxy).
    + apply (sort_Sort_sorted _).
  - eapply Sorted_weaken; [|apply (sort_Sort_sorted lessByFirstPeerURL)].
    apply not_less_first_peer_URL.
  - exact Hrun.
  - exact Herr.
  - intros He. destruct (Hok He) as (_ & Hc' & Hentries & Hsome & Hnd).
    split_and!; [exact Hc'| | |].
    + intros k m' Hk. destruct (Hentries k m' Hk) as [Hid Hin].
      split; [exact Hid|]. by apply elem_of_reassigned.
    + intros i o m Hi Hm.
      apply (Hsome (mkMember (ID m) (Name o.2) (PeerURLs o.2)
                             (ClientURLs o.2))).
      apply elem_of_reassigned. eauto 10.
    + intros Hnodup i o m Hi Hm.
      apply (Hnd Hnodup (mkMember (ID m) (Name o.2) (PeerURLs o.2)
                                  (ClientURLs o.2))).
      apply elem_of_reassigned. eauto 10.
Qed.

Lemma ValidateAndAssignIDs_spec_witness :
  ∃ (os : list (Z * Member)) (ms : list Member) c',
    os ≡ₚ map_to_list (c_members example_cluster)
    ∧ ms ≡ₚ external_members
    ∧ ValidateAndAssignIDs map_to_list lessByFirstPeerURL example_cluster
        external_members = Ret (c', None)
    ∧ ∀ i o m, os !! i = Some o → ms !! i = Some m →
        c_members c' !! ID m
        = Some (mkMember (ID m) (Name o.2) (PeerURLs o.2) (ClientURLs o.2)).
Proof.
  destruct (ValidateAndAssignIDs_spec map_to_list example_cluster
              external_members)
    as (os & ms & c' & e & Hos & Hms & _ & _ & Hrun & _ & Hok).
  - intros m. reflexivity.
  - repeat apply Forall_cons_2; [..|apply Forall_nil_2]; discriminate.
  - repeat apply Forall_cons_2; [..|apply Forall_nil_2]; discriminate.
  - assert (e = None) as ->.
    { assert (ValidateAndAssignIDs map_to_list lessByFirstPeerURL
                example_cluster external_members
              = Ret (set_members example_cluster
                       (list_to_map
                          [(10, mkMember 10 "a" ["http://a:2380"] []);
                           (20, mkMember 20 "b" ["http://b:2380"] []);
                           (30, mkMember 30 "c" ["http://c:2380"] [])]),
                     None)) as Hval by (vm_compute; reflexivity).
      rewrite Hval in Hrun. by injection Hrun as _ <-. }
    destruct (Hok eq_refl) as (_ & _ & _ & Hnd).
    exists os, ms, c'. split_and!; [exact Hos|exact Hms|exact Hrun|].
    apply Hnd. apply (bool_decide_unpack _). vm_compute. exact I.
Defined.

Example ValidateAndAssignIDs_transplants :
  ValidateAndAssignIDs map_to_list lessByFirstPeerURL example_cluster
    external_members
  = Ret (set_members example_cluster
           (list_to_map
              [(10, mkMember 10 "a" ["http://a:2380"] []);
               (20, mkMember 20 "b" ["http://b:2380"] []);
               (30, mkMember 30 "c" ["http://c:2380"] [])]), None).
Proof. vm_compute. reflexivity. Qed.

(** A mismatch at the second sorted position: the error is returned, the
    map keeps its keys, and the member reached before the mismatch
    already carries its new id. *)
Example ValidateAndAssignIDs_partial :
  ValidateAndAssignIDs map_to_list lessByFirstPeerURL example_cluster
    [mkMember 10 "" ["http://a:2380"] []; mkMember 20 "" ["http://x:2380"] [];
     mkMember 30 "" ["http://y:2380"] []]
  = Ret (set_members example_cluster
           (list_to_map
              [(1, mkMember 10 "a" ["http://a:2380"] []);
               (2, mkMember 2 "b" ["http://b:2380"] []);
               (3, mkMember 3 "c" ["http://c:2380"] [])]),
         Some ErrUnmatchedMember).
Proof. vm_compute. reflexivity. Qed.

(** ** The loop of NewClusterFromString *)

Section loop_facts.
Context (parseURL : string → option URL).

Lemma addParsed_derive c name urls :
  addParsed parseURL c name urls
  = match derive parseURL (c_name c) name urls with
    | Err e => Err e
    | Ok m =>
        match c_members c !! ID m with
        | Some _ => Err (ErrDuplicateID (ID m))
        | None => Ok (set_members c (<[ID m := m]> (c_members c)))
        end
    end.
Proof using Type.
  unfold addParsed, derive. destruct urls as [|u0 urls]; [done|].
  destruct (String.eqb u0 ""); [done|].
  by destruct (URLsValue_Set parseURL _).
Qed.

Lemma derived_cons_Ok cn k urls es m :
  derive parseURL cn k urls = Ok m →
  derived parseURL cn ((k, urls) :: es) = m :: derived parseURL cn es.
Proof using Type. intros H. unfold derived. cbn. by rewrite H. Qed.

Lemma derived_all_accepted cn es :
  Forall (accepted parseURL cn) es →
  Forall2 (λ e m, derive parseURL cn e.1 e.2 = Ok m) es
          (derived parseURL cn es).
Proof using Type.
  induction 1 as [|[k urls] es [m Hm] _ IH]; [constructor|].
  cbn in Hm. rewrite (derived_cons_Ok _ _ _ _ _ Hm). by constructor.
Qed.

(** The loop succeeds exactly when every setting passes the checks and
    the ids derived are pairwise distinct and new; the members map is
    then the one of the members derived. *)
Lemma addAllParsed_Ok_iff entries : ∀ c c',
  addAllParsed parseURL c entries = Ok c' ↔
    Forall (accepted parseURL (c_name c)) entries
    ∧ NoDup (map ID (derived parseURL (c_name c) entries))
    ∧ (∀ m, m ∈ derived parseURL (c_name c) entries →
         c_members c !! ID m = None)
    ∧ c' = set_members c
             (list_to_map (by_id (derived parseURL (c_name c) entries))
              ∪ c_members c).
Proof using Type.
  induction entries as [|[k urls] es IH]; intros c c'.
  - cbn. split.
    + intros [= <-]. split_and!; [constructor|constructor| |].
      * intros m Hm. by apply elem_of_nil in Hm.
      * destruct c. unfold set_members. cbn. by rewrite (left_id_L ∅ (∪)).
    + intros (_ & _ & _ & ->). destruct c. unfold set_members. cbn.
      by rewrite (left_id_L ∅ (∪)).
  - cbn [addAllParsed]. rewrite addParsed_derive.
    destruct (derive parseURL (c_name c) k urls) as [m|e] eqn:Hd.
    2:{ split; [done|]. intros (Hacc & _).
        apply Forall_cons in Hacc as [[m Hm] _]. cbn in Hm. congruence. }
    rewrite (derived_cons_Ok _ _ _ _ _ Hd).
    destruct (c_members c !! ID m) as [m0|] eqn:Hm0.
    { split; [done|]. intros (_ & _ & Hnew & _).
      rewrite Hnew in Hm0; [done|]. by left. }
    rewrite IH. cbn [c_name c_members set_members].
    set (ds := derived parseURL (c_name c) es).
    split.
    + intros (Hacc & Hnd & Hnew & ->).
      assert (ID m ∉ map ID ds) as Hnotin.
      { intros Hin. apply list_elem_of_fmap in Hin as (m' & Heq & Hin).
        specialize (Hnew m' Hin). rewrite <- Heq in Hnew.
        by rewrite lookup_insert_eq in Hnew. }
      split_and!.
      * constructor; [by exists m | done].
      * cbn [map]. by constructor.
      * intros m' [->|Hin]%elem_of_cons; [done|].
        specialize (Hnew m' Hin).
        destruct (decide (ID m = ID m')) as [Heq|Hne].
        -- rewrite Heq, lookup_insert_eq in Hnew. done.
        -- by rewrite lookup_insert_ne in Hnew.
      * unfold set_members. cbn. f_equal.
        rewrite <- insert_union_l, <- insert_union_r; [done|].
        apply not_elem_of_list_to_map_1. unfold by_id.
        rewrite <- list_fmap_compose. done.
    + intros (Hacc & Hnd & Hnew & ->).
      apply Forall_cons in Hacc as [_ Hacc]. cbn [map] in Hnd.
      apply NoDup_cons in Hnd as [Hnotin Hnd].
      split_and!; [done..| |].
      * intros m' Hin. rewrite lookup_insert_ne.
        -- apply Hnew. by right.
        -- intros Heq. apply Hnotin. rewrite Heq.
           apply list_elem_of_fmap. by exists m'.
      * unfold set_members. cbn. f_equal.
        rewrite <- insert_union_l, <- insert_union_r; [done|].
        apply not_elem_of_list_to_map_1. unfold by_id.
        rewrite <- list_fmap_compose. done.
Qed.

(** When every setting passes the checks, the loop can only fail on a
    duplicate id. *)
Lemma addAllParsed_accepted entries : ∀ c,
  Forall (accepted parseURL (c_name c)) entries →
  (∃ c', addAllParsed parseURL c entries = Ok c')
  ∨ (∃ i, addAllParsed parseURL c entries = Err (ErrDuplicateID i)).
Proof using Type.
  induction entries as [|[k urls] es IH]; intros c Hacc; [left; eauto|].
  apply Forall_cons in Hacc as [[m Hm] Hacc]. cbn in Hm.
  cbn [addAllParsed]. rewrite addParsed_derive, Hm.
  destruct (c_members c !! ID m); [right; eauto|].
  by apply IH.
Qed.

Lemma addAllParsed_result entries c :
  (∃ c', addAllParsed parseURL c entries = Ok c')
  ∨ (∃ e, addAllParsed parseURL c entries = Err e).
Proof using Type.
  destruct (addAllParsed parseURL c entries); eauto.
Qed.
End loop_facts.

Lemma derived_Permutation parseURL cn es es' :
  es ≡ₚ es' → derived parseURL cn es ≡ₚ derived parseURL cn es'.
Proof. intros Hp. unfold derived. by rewrite Hp. Qed.

(** The outcome of a successful loop does not depend on the order in
    which the settings are visited. *)
Lemma addAllParsed_Permutation parseURL c es es' c' :
  es ≡ₚ es' →
  addAllParsed parseURL c es = Ok c' → addAllParsed parseURL c es' = Ok c'.
Proof.
  intros Hp. rewrite !addAllParsed_Ok_iff.
  intros (Hacc & Hnd & Hnew & ->).
  pose proof (derived_Permutation parseURL (c_name c) es es' Hp) as Hd.
  split_and!.
  - by rewrite <- Hp.
  - by rewrite <- Hd.
  - intros m Hm. apply Hnew. by rewrite Hd.
  - f_equal. f_equal. apply list_to_map_proper.
    + unfold by_id. rewrite <- list_fmap_compose. done.
    + unfold by_id. by rewrite Hd.
Qed.

(** ** Strings: splitting, cutting, unescaping *)

Lemma append_nil s : "" +:+ s = s.
Proof. done. Qed.

Lemma append_cons c s1 s2 : String c s1 +:+ s2 = String c (s1 +:+ s2).
Proof. done. Qed.

Lemma free_of_app bad s1 s2 :
  free_of bad (s1 +:+ s2) = free_of bad s1 && free_of bad s2.
Proof.
  induction s1 as [|c s1 IH]; [done|].
  rewrite append_cons. cbn [free_of]. rewrite IH.
  by rewrite andb_assoc.
Qed.

Lemma free_of_weaken (bad bad' : ascii → bool) s :
  (∀ c, bad' c = true → bad c = true) →
  free_of bad s = true → free_of bad' s = true.
Proof.
  intros Hb. induction s as [|c s IH]; cbn; [done|].
  intros [Hc Hs]%andb_true_iff. apply andb_true_iff. split; [|by apply IH].
  destruct (bad' c) eqn:Hc'; [|done]. by rewrite (Hb c Hc') in Hc.
Qed.

Lemma replace_char_free old new s :
  free_of (λ c, Ascii.eqb c old) s = true → replace_char old new s = s.
Proof.
  induction s as [|c s IH]; cbn; [done|].
  intros [Hc Hs]%andb_true_iff. rewrite IH by done.
  by destruct (Ascii.eqb c old).
Qed.

Lemma replace_char_app old new s1 s2 :
  replace_char old new (s1 +:+ s2)
  = replace_char old new s1 +:+ replace_char old new s2.
Proof.
  induction s1 as [|c s1 IH]; [done|].
  rewrite append_cons. cbn [replace_char]. by rewrite IH.
Qed.

Lemma concat_cons2 sep x y l :
  String.concat sep (x :: y :: l) = x +:+ sep +:+ String.concat sep (y :: l).
Proof. done. Qed.

Lemma replace_char_concat (l : list string) :
  Forall (λ s, free_of (λ c, Ascii.eqb c ",") s = true) l →
  replace_char "," "&" (String.concat "," l) = String.concat "&" l.
Proof.
  induction l as [|x [|y l] IH]; intros Hl; [done| |].
  - cbn. apply replace_char_free. by apply Forall_cons in Hl as [? _].
  - rewrite !concat_cons2, !replace_char_app.
    apply Forall_cons in Hl as [Hx Hl].
    rewrite (replace_char_free _ _ x Hx), (IH Hl). done.
Qed.

Lemma split_on_nonempty sep s : split_on sep s ≠ [].
Proof.
  destruct s as [|c s]; cbn; [done|].
  destruct (sep c); [done|]. by destruct (split_on sep s).
Qed.

Lemma split_on_free sep s : free_of sep s = true → split_on sep s = [s].
Proof.
  induction s as [|c s IH]; cbn; [done|].
  intros [Hc Hs]%andb_true_iff. apply negb_true_iff in Hc.
  by rewrite Hc, IH.
Qed.

Lemma split_on_app sep s1 c s2 :
  free_of sep s1 = true → sep c = true →
  split_on sep (s1 +:+ String c s2) = s1 :: split_on sep s2.
Proof.
  intros Hs1 Hc. induction s1 as [|a s1 IH].
  - rewrite append_nil. cbn [split_on]. by rewrite Hc.
  - rewrite append_cons. cbn [split_on].
    cbn in Hs1. apply andb_true_iff in Hs1 as [Ha Hs1].
    apply negb_true_iff in Ha. by rewrite Ha, IH.
Qed.

Lemma split_on_concat sep c (l : list string) :
  sep c = true → l ≠ [] →
  Forall (λ s, free_of sep s = true) l →
  split_on sep (String.concat (String c "") l) = l.
Proof.
  intros Hc. induction l as [|x [|y l] IH]; intros Hne Hl; [done| |].
  - cbn. apply split_on_free. by apply Forall_cons in Hl as [? _].
  - rewrite concat_cons2. apply Forall_cons in Hl as [Hx Hl].
    rewrite append_cons, append_nil, split_on_app by done.
    by rewrite IH.
Qed.

Lemma cut_at_app sep k v :
  free_of (λ c, Ascii.eqb c sep) k = true →
  cut_at sep (k +:+ String sep v) = (k, v).
Proof.
  induction k as [|c k IH].
  - intros _. rewrite append_nil. cbn [cut_at]. by rewrite Ascii.eqb_refl.
  - rewrite append_cons. cbn [cut_at free_of].
    intros [Hc Hk]%andb_true_iff. apply negb_true_iff in Hc.
    by rewrite Hc, IH.
Qed.

Lemma QueryUnescape_cons c s :
  Ascii.eqb c "%" = false → Ascii.eqb c "+" = false →
  QueryUnescape (String c s) = String c <$> QueryUnescape s.
Proof.
  intros H1 H2.
  destruct c as [[] [] [] [] [] [] [] []]; try done.
Qed.

Lemma QueryUnescape_free s :
  free_of (λ c, Ascii.eqb c "%" || Ascii.eqb c "+") s = true →
  QueryUnescape s = Some s.
Proof.
  induction s as [|c s IH]; [done|]. cbn [free_of].
  intros [Hc Hs]%andb_true_iff.
  apply negb_true_iff, orb_false_iff in Hc as [H1 H2].
  by rewrite QueryUnescape_cons, IH.
Qed.

Lemma plain_no_comma s :
  plain s → free_of (λ c, Ascii.eqb c ",") s = true.
Proof.
  apply free_of_weaken. intros c Hc. unfold reserved. by rewrite Hc.
Qed.

Lemma plain_no_separator s :
  plain s → free_of (λ c, Ascii.eqb c "&" || Ascii.eqb c ";") s = true.
Proof.
  apply free_of_weaken. intros c Hc. unfold reserved.
  apply orb_true_iff in Hc as [->| ->]; by rewrite ?orb_true_r.
Qed.

Lemma plain_no_escape s :
  plain s → free_of (λ c, Ascii.eqb c "%" || Ascii.eqb c "+") s = true.
Proof.
  apply free_of_weaken. intros c Hc. unfold reserved.
  apply orb_true_iff in Hc as [->| ->]; by rewrite ?orb_true_r.
Qed.

Lemma plain_name_plain s : plain_name s → plain s.
Proof.
  apply free_of_weaken. intros c Hc. by rewrite Hc.
Qed.

Lemma plain_name_no_equals s :
  plain_name s → free_of (λ c, Ascii.eqb c "=") s = true.
Proof.
  apply free_of_weaken. intros c Hc. by rewrite Hc, orb_true_r.
Qed.

Lemma plain_render_entry e :
  plain_name e.1 → plain e.2 → plain (render_entry e).
Proof.
  intros Hk Hv. unfold plain, render_entry. rewrite !free_of_app.
  rewrite (plain_name_plain _ Hk), Hv. done.
Qed.

Lemma render_entry_not_empty e : String.eqb (render_entry e) "" = false.
Proof.
  unfold render_entry. destruct (e.1); done.
Qed.

Lemma parseQuery_step_entry m err e :
  plain_name e.1 → plain e.2 →
  parseQuery_step (m, err) (render_entry e) = (Values_add m e.1 e.2, err).
Proof.
  intros Hk Hv. unfold parseQuery_step.
  rewrite render_entry_not_empty. unfold render_entry.
  change ("=" +:+ e.2) with (String "=" e.2).
  rewrite (cut_at_app "=" _ _ (plain_name_no_equals _ Hk)).
  rewrite (QueryUnescape_free e.1), (QueryUnescape_free e.2); [done|..].
  - by apply plain_no_escape.
  - by apply plain_no_escape, plain_name_plain.
Qed.

Lemma parseQuery_fold_entries (es : list (string * string)) : ∀ m err,
  Forall (λ e, plain_name e.1 ∧ plain e.2) es →
  fold_left parseQuery_step (map render_entry es) (m, err)
  = (fold_left (λ m e, Values_add m e.1 e.2) es m, err).
Proof.
  induction es as [|e es IH]; intros m err Hes; [done|].
  apply Forall_cons in Hes as [[Hk Hv] Hes]. cbn [map fold_left].
  rewrite parseQuery_step_entry by done. by apply IH.
Qed.

(** What [NewClusterFromString] reads in a well-formed string: the
    entries, grouped by name, and no error. *)
Lemma ParseQuery_render (es : list (string * string)) :
  Forall (λ e, plain_name e.1 ∧ plain e.2) es →
  ParseQuery (replace_char "," "&" (render es)) = (group es, None).
Proof.
  intros Hes. unfold render, strings_Join, ParseQuery, group.
  assert (Forall plain (map render_entry es)) as Hplain.
  { apply Forall_fmap. eapply Forall_impl; [done|].
    intros e [? ?]. by apply plain_render_entry. }
  rewrite replace_char_concat.
  2:{ eapply Forall_impl; [done|]. apply plain_no_comma. }
  destruct es as [|e es]; [done|].
  rewrite (split_on_concat _ "&"); [|done|done|].
  - by apply parseQuery_fold_entries.
  - eapply Forall_impl; [done|]. apply plain_no_separator.
Qed.

(** ** Grouping the entries by name *)

Lemma urls_of_cons k e es :
  urls_of k (e :: es)
  = if decide (e.1 = k) then e.2 :: urls_of k es else urls_of k es.
Proof. unfold urls_of. rewrite filter_cons. by case_decide. Qed.

Lemma urls_of_app k es1 es2 :
  urls_of k (es1 ++ es2) = urls_of k es1 ++ urls_of k es2.
Proof. unfold urls_of. by rewrite filter_app, map_app. Qed.

Lemma urls_of_elem k es u : u ∈ urls_of k es ↔ (k, u) ∈ es.
Proof.
  unfold urls_of. rewrite list_elem_of_fmap. split.
  - intros ([k' u'] & -> & Hin). apply list_elem_of_filter in Hin as [Hk Hin].
    cbn in Hk. by subst.
  - intros Hin. exists (k, u). split; [done|].
    by apply list_elem_of_filter.
Qed.

Lemma urls_of_nil k es : urls_of k es = [] ↔ k ∉ es.*1.
Proof.
  split.
  - intros Hnil Hin. apply list_elem_of_fmap in Hin as ([k' u] & -> & Hin).
    cbn in Hnil.
    assert (u ∈ urls_of k' es) as Hu by by apply urls_of_elem.
    rewrite Hnil in Hu. by apply elem_of_nil in Hu.
  - intros Hnotin. destruct (urls_of k es) as [|u us] eqn:Hus; [done|].
    destruct Hnotin. apply list_elem_of_fmap. exists (k, u). split; [done|].
    apply urls_of_elem. rewrite Hus. by left.
Qed.

Lemma urls_of_Permutation k es es' :
  es ≡ₚ es' → urls_of k es ≡ₚ urls_of k es'.
Proof. intros Hp. unfold urls_of. by rewrite Hp. Qed.

Lemma fold_add_lookup es : ∀ acc k,
  fold_left (λ m e, Values_add m e.1 e.2) es acc !! k
  = match urls_of k es with
    | [] => acc !! k
    | us => Some (default [] (acc !! k) ++ us)
    end.
Proof.
  induction es as [|e es IH]; intros acc k; [done|].
  cbn [fold_left]. rewrite IH, urls_of_cons. unfold Values_add.
  destruct (decide (e.1 = k)) as [<-|Hne].
  - rewrite lookup_insert_eq. cbn [default].
    destruct (urls_of e.1 es); unfold id; [done|]. by rewrite <- app_assoc.
  - by rewrite lookup_insert_ne.
Qed.

Lemma group_lookup es k :
  group es !! k = match urls_of k es with [] => None | us => Some us end.
Proof. unfold group. rewrite fold_add_lookup. by destruct (urls_of k es). Qed.

Lemma map_to_list_group es : map_to_list (group es) ≡ₚ settings es.
Proof.
  apply NoDup_Permutation.
  - apply NoDup_map_to_list.
  - unfold settings. apply NoDup_fmap_2_strong; [|apply NoDup_remove_dups].
    by intros k1 k2 _ _ [= ->].
  - intros [k us]. rewrite elem_of_map_to_list, group_lookup.
    unfold settings. rewrite list_elem_of_fmap. split.
    + intros Hus. exists k.
      destruct (urls_of k es) as [|u us'] eqn:Hk; [done|].
      injection Hus as <-. split; [done|].
      apply elem_of_remove_dups.
      destruct (decide (k ∈ es.*1)) as [?|Hn]; [done|].
      apply urls_of_nil in Hn. congruence.
    + intros (k' & [= -> ->] & Hin). rewrite elem_of_remove_dups in Hin.
      destruct (urls_of k' es) as [|u us'] eqn:Hk; [|done].
      by apply urls_of_nil in Hk.
Qed.

(** ** One setting of a well-formed string *)

Lemma split_join_plain (urls : list string) :
  urls ≠ [] → Forall plain urls →
  strings_Split (strings_Join urls ",") "," = urls.
Proof.
  intros Hne Hpl. unfold strings_Split, strings_Join.
  apply (split_on_concat (Ascii.eqb ",") ","); [done|done|].
  eapply Forall_impl; [done|]. intros s. apply free_of_weaken.
  intros c Hc. apply Ascii.eqb_eq in Hc as <-. done.
Qed.

Lemma parse_all_omap parseURL urls :
  Forall (λ u, is_Some (parseURL u)) urls →
  parse_all parseURL urls = Some (omap parseURL urls).
Proof.
  induction 1 as [|u urls [x Hx] _ IH]; [done|].
  cbn. by rewrite Hx, IH.
Qed.

Lemma parse_all_Some parseURL : ∀ urls us,
  parse_all parseURL urls = Some us →
  Forall2 (λ s u, parseURL s = Some u) urls us.
Proof.
  induction urls as [|s urls IH]; intros us; cbn.
  - intros [= <-]. constructor.
  - destruct (parseURL s) as [u|] eqn:Hu; [|done].
    destruct (parse_all parseURL urls) as [us'|]; [|done].
    intros [= <-]. constructor; [done|]. by apply IH.
Qed.

Lemma derive_wellformed parseURL cn k urls :
  urls ≠ [] →
  Forall (λ u, plain u ∧ u ≠ "" ∧ is_Some (parseURL u)) urls →
  derive parseURL cn k urls
  = Ok (NewMember k (sort_Sort lessURL (omap parseURL urls)) cn None).
Proof.
  intros Hne Hall. unfold derive.
  destruct urls as [|u0 urls]; [done|].
  pose proof Hall as Hall'. apply Forall_cons in Hall' as [(_ & Hu0 & _) _].
  destruct (String.eqb_spec u0 "") as [?|_]; [done|].
  unfold URLsValue_Set. rewrite split_join_plain; [|done|].
  2:{ eapply Forall_impl; [done|]. by intros u (? & _). }
  unfold NewURLs. rewrite parse_all_omap.
  2:{ eapply Forall_impl; [done|]. by intros u (_ & _ & ?). }
  done.
Qed.

Lemma derive_Name parseURL cn k urls m :
  derive parseURL cn k urls = Ok m → Name m = k.
Proof.
  unfold derive. destruct urls as [|u0 urls]; [done|].
  destruct (String.eqb u0 ""); [done|].
  destruct (URLsValue_Set parseURL _); [|done]. by intros [= <-].
Qed.

Global Instance lessURL_total : Total (not_less lessURL).
Proof.
  intros a b. unfold not_less, lessURL.
  apply (string_not_less_total (URL_String a) (URL_String b)).
Qed.

(** Sorting URLs and then printing them is sorting their printed
    forms. *)
Lemma sort_URLs_strings us :
  StringSlice (sort_Sort lessURL us) = sort_Strings (StringSlice us).
Proof.
  unfold StringSlice, sort_Strings.
  apply (Sorted_unique (not_less String.ltb)).
  - eapply Sorted_fmap; [|apply (sort_Sort_sorted lessURL)]. done.
  - apply (sort_Sort_sorted String.ltb).
  - rewrite !sort_Sort_perm. done.
Qed.


(** ** NewClusterFromString: order of the visits, collisions *)

(** A successful construction yields the same cluster whatever the order
    in which the maps are visited. *)
Lemma NewClusterFromString_order parseURL visitV visitM visitV' visitM'
    (name s : string) (c : Cluster) :
  admissible visitV → admissible visitM →
  admissible visitV' → admissible visitM' →
  NewClusterFromString parseURL visitV visitM name s = Ok c →
  NewClusterFromString parseURL visitV' visitM' name s = Ok c.
Proof.
  intros HV HM HV' HM'. unfold NewClusterFromString.
  destruct (ParseQuery (replace_char "," "&" s)) as [v [e|]]; [done|].
  destruct (addAllParsed parseURL (newCluster name) (visitV v))
    as [c1|e] eqn:H1; [|done].
  intros [= <-].
  rewrite (addAllParsed_Permutation parseURL _ (visitV v) (visitV' v) c1).
  - by rewrite (genID_visit visitM' visitM).
  - by rewrite (HV v), (HV' v).
  - done.
Qed.

Lemma elem_of_derived parseURL cn es m :
  m ∈ derived parseURL cn es ↔
  ∃ e, e ∈ es ∧ derive parseURL cn e.1 e.2 = Ok m.
Proof.
  unfold derived. rewrite list_elem_of_omap. split.
  - intros (e & He & Hd). exists e. split; [done|].
    destruct (derive parseURL cn e.1 e.2); congruence.
  - intros (e & He & Hd). exists e. split; [done|]. by rewrite Hd.
Qed.

Lemma NoDup_fmap_elem {A B} (f : A → B) (l : list A) x y :
  NoDup (f <$> l) → x ∈ l → y ∈ l → f x = f y → x = y.
Proof.
  induction l as [|a l IH]; intros Hnd Hx Hy Hf;
    [by apply elem_of_nil in Hx|].
  rewrite fmap_cons in Hnd. apply NoDup_cons in Hnd as [Ha Hnd].
  apply elem_of_cons in Hx as [->|Hx]; apply elem_of_cons in Hy as [->|Hy].
  - done.
  - destruct Ha. rewrite Hf. apply list_elem_of_fmap. eauto.
  - destruct Ha. rewrite <- Hf. apply list_elem_of_fmap. eauto.
  - by apply IH.
Qed.

(** C3, as the code has it.  When two settings of the string with
    distinct names pass the checks and derive the same member id, no
    cluster is returned; the error is the duplicate-id error when the
    string parses and every setting passes the checks, whatever the order
    in which the settings are visited. *)
Theorem NewClusterFromString_collision
    (parseURL : string → option URL)
    (visitV : gmap string (list string) → list (string * list string))
    (visitM : gmap Z Member → list (Z * Member))
    (name s k1 k2 : string) (urls1 urls2 : list string) (m1 m2 : Member) :
  admissible visitV →
  (ParseQuery (replace_char "," "&" s)).1 !! k1 = Some urls1 →
  (ParseQuery (replace_char "," "&" s)).1 !! k2 = Some urls2 →
  k1 ≠ k2 →
  derive parseURL name k1 urls1 = Ok m1 →
  derive parseURL name k2 urls2 = Ok m2 →
  ID m1 = ID m2 →
  (∃ e, NewClusterFromString parseURL visitV visitM name s = Err e)
  ∧ ((ParseQuery (replace_char "," "&" s)).2 = None →
     (∀ k urls, (ParseQuery (replace_char "," "&" s)).1 !! k = Some urls →
        accepted parseURL name (k, urls)) →
     ∃ i, NewClusterFromString parseURL visitV visitM name s
          = Err (ErrDuplicateID i)).
Proof.
  intros HV Hk1 Hk2 Hne Hd1 Hd2 Hid. unfold NewClusterFromString.
  destruct (ParseQuery (replace_char "," "&" s)) as [v err].
  cbn [fst snd] in *.
  assert (∀ c', addAllParsed parseURL (newCluster name) (visitV v) ≠ Ok c')
    as Hfail.
  { intros c' Hok. apply addAllParsed_Ok_iff in Hok as (_ & Hnd & _).
    cbn [c_name newCluster] in Hnd.
    assert (m1 = m2) as Heq.
    { apply (NoDup_fmap_elem ID _ _ _ Hnd); [| |done].
      - apply elem_of_derived. exists (k1, urls1). split; [|done].
        rewrite (HV v). by apply elem_of_map_to_list.
      - apply elem_of_derived. exists (k2, urls2). split; [|done].
        rewrite (HV v). by apply elem_of_map_to_list. }
    apply derive_Name in Hd1, Hd2. congruence. }
  split.
  - destruct err as [e|]; [eauto|].
    destruct (addAllParsed parseURL (newCluster name) (visitV v)) as [c'|e];
      [by destruct (Hfail c')|eauto].
  - intros -> Hall.
    destruct (addAllParsed_accepted parseURL (visitV v) (newCluster name))
      as [[c' Hok]|[i Hi]].
    + apply Forall_forall. intros [k urls] Hin. apply Hall.
      apply elem_of_map_to_list. by rewrite <- (HV v).
    + by destruct (Hfail c').
    + rewrite Hi. eauto.
Qed.

Lemma NewClusterFromString_collision_witness :
  ∃ i, NewClusterFromString exampleParseURL map_to_list map_to_list "etcd"
         "a=http://10.0.0.1:2380,b=http://10.0.0.1:2380"
       = Err (ErrDuplicateID i).
Proof.
  refine (proj2 (NewClusterFromString_collision exampleParseURL
    map_to_list map_to_list "etcd"
    "a=http://10.0.0.1:2380,b=http://10.0.0.1:2380" "a" "b"
    ["http://10.0.0.1:2380"] ["http://10.0.0.1:2380"]
    (NewMember "a" [mkURL "http" "10.0.0.1:2380"] "etcd" None)
    (NewMember "b" [mkURL "http" "10.0.0.1:2380"] "etcd" None)
    _ _ _ _ _ _ _) _ _).
  - intros m. reflexivity.
  - vm_compute. reflexivity.
  - vm_compute. reflexivity.
  - discriminate.
  - vm_compute. reflexivity.
  - vm_compute. reflexivity.
  - vm_compute. reflexivity.
  - vm_compute. reflexivity.
  - intros k urls Hk. apply elem_of_map_to_list in Hk.
    vm_compute in Hk.
    repeat (apply elem_of_cons in Hk as [[= -> ->]|Hk]);
      [..|by apply elem_of_nil in Hk];
      eexists; vm_compute; reflexivity.
Defined.

(** C3, the part that fails: with a third setting that is malformed, the
    string of two colliding entries is refused with another error, the
    one of the empty URL when that setting is visited first, the one of
    the parser when the string has an invalid escape. *)
Lemma collision_reported_as_other_error :
  ID (NewMember "a" [mkURL "http" "10.0.0.1:2380"] "etcd" None)
  = ID (NewMember "b" [mkURL "http" "10.0.0.1:2380"] "etcd" None)
  ∧ NewClusterFromString exampleParseURL map_to_list map_to_list "etcd"
      "a=http://10.0.0.1:2380,b=http://10.0.0.1:2380,c="
    = Err (ErrEmptyURL "c")
  ∧ NewClusterFromString exampleParseURL map_to_list map_to_list "etcd"
      "a=http://10.0.0.1:2380,b=http://10.0.0.1:2380,c=%zz"
    = Err ErrEscape.
Proof. split_and!; vm_compute; reflexivity. Qed.

(** ** NewClusterFromString on well-formed strings *)

Lemma derived_map {K} parseURL cn (f : K → string * list string)
    (g : K → Member) (ks : list K) :
  (∀ k, k ∈ ks → derive parseURL cn (f k).1 (f k).2 = Ok (g k)) →
  derived parseURL cn (map f ks) = map g ks.
Proof.
  induction ks as [|k ks IH]; intros Hks; [done|].
  cbn [map]. destruct (f k) as [n urls] eqn:Hf.
  rewrite (derived_cons_Ok parseURL cn n urls _ (g k)).
  - rewrite IH; [done|]. intros k' Hk'. apply Hks. by right.
  - specialize (Hks k). rewrite Hf in Hks. apply Hks. by left.
Qed.

Lemma accepted_of_derived_map {K} parseURL cn (f : K → string * list string)
    (g : K → Member) (ks : list K) :
  (∀ k, k ∈ ks → derive parseURL cn (f k).1 (f k).2 = Ok (g k)) →
  Forall (accepted parseURL cn) (map f ks).
Proof.
  intros Hks. apply Forall_fmap, Forall_forall. intros k Hk.
  exists (g k). by apply Hks.
Qed.

Lemma by_id_fst ms : (by_id ms).*1 = map ID ms.
Proof. unfold by_id. rewrite <- list_fmap_compose. done. Qed.

Lemma by_id_snd ms : (by_id ms).*2 = ms.
Proof.
  unfold by_id. rewrite <- list_fmap_compose. apply list_fmap_id.
Qed.

Lemma member_list_of_list ms c :
  NoDup (map ID ms) → c_members c = list_to_map (by_id ms) →
  member_list c ≡ₚ ms.
Proof.
  intros Hnd Hc. unfold member_list. rewrite Hc.
  rewrite map_to_list_to_map by by rewrite by_id_fst.
  change (map snd (by_id ms)) with ((by_id ms).*2). by rewrite by_id_snd.
Qed.









(** Scenario S1. *)
Example S1_static_bootstrap :
  render S1_entries
  = "n1=http://10.0.0.1:2380,n1=http://10.0.0.2:2380,n2=http://10.0.0.3:2380"
  ∧ ∃ c, NewClusterFromString exampleParseURL map_to_list map_to_list "etcd"
           (render S1_entries) = Ok c
       ∧ c_name c = "etcd" ∧ size (c_members c) = 2%nat
       ∧ map (λ m, (Name m, PeerURLs m)) (Members map_to_list c)
         = [("n2", ["http://10.0.0.3:2380"]);
            ("n1", ["http://10.0.0.1:2380"; "http://10.0.0.2:2380"])].
Proof.
  split; [reflexivity|]. eexists. split; [vm_compute; reflexivity|].
  split_and!; vm_compute; reflexivity.
Qed.


(** ** Printing a cluster and reading it back *)

Lemma URL_String_not_empty u : String.eqb (URL_String u) "" = false.
Proof. unfold URL_String. by destruct (Scheme u). Qed.

Lemma NewMember_ext name us us' cn now :
  StringSlice us = StringSlice us' →
  NewMember name us cn now = NewMember name us' cn now.
Proof. intros H. unfold NewMember. by rewrite H. Qed.

Lemma parse_all_length parseURL : ∀ strs us,
  parse_all parseURL strs = Some us → length us = length strs.
Proof.
  intros strs us H%parse_all_Some. symmetry. by eapply Forall2_length.
Qed.

Lemma parse_all_stable parseURL us :
  stable parseURL →
  Forall (λ u, ∃ s, parseURL s = Some u) us →
  parse_all parseURL (map URL_String us) = Some us.
Proof.
  intros Hst. induction 1 as [|u us [s Hs] _ IH]; [done|].
  cbn. by rewrite (Hst s u Hs), IH.
Qed.

Lemma derive_bootstrapped parseURL cn k urls m :
  derive parseURL cn k urls = Ok m →
  Name m = k ∧ bootstrapped parseURL cn m.
Proof.
  intros Hd. pose proof (derive_Name _ _ _ _ _ Hd) as Hname.
  split; [done|]. revert Hd. unfold derive.
  destruct urls as [|u0 urls]; [done|].
  destruct (String.eqb u0 ""); [done|].
  unfold URLsValue_Set, NewURLs.
  pose proof (split_on_nonempty (Ascii.eqb ",")
                (strings_Join (u0 :: urls) ",")) as Hne.
  unfold strings_Split.
  destruct (split_on (Ascii.eqb ",") (strings_Join (u0 :: urls) ","))
    as [|s0 strs] eqn:Hsplit; [done|].
  destruct (parse_all parseURL (s0 :: strs)) as [us|] eqn:Hus; [|done].
  cbn [fmap option_fmap option_map]. intros [= <-].
  exists (sort_Sort lessURL us). split_and!.
  - done.
  - intros Hnil. apply parse_all_length in Hus.
    apply (f_equal length) in Hnil. rewrite sort_Sort_length in Hnil.
    cbn in Hus, Hnil. lia.
  - rewrite sort_Sort_perm. apply parse_all_Some in Hus.
    clear -Hus. induction Hus; constructor; eauto.
  - cbn [PeerURLs NewMember]. rewrite sort_URLs_strings.
    apply (sort_Sort_sorted String.ltb).
Qed.

(** Reading back the peer URLs of a member, in any order, under its
    name gives the member again. *)
Lemma derive_roundtrip parseURL cn m (urls : list string) :
  stable parseURL → bootstrapped parseURL cn m →
  Forall plain (PeerURLs m) → urls ≡ₚ PeerURLs m →
  derive parseURL cn (Name m) urls = Ok m.
Proof.
  intros Hst (purls & Hm & Hne & Hvalid & Hsorted) Hplain Hperm.
  assert (PeerURLs m = StringSlice purls) as HP by (by rewrite Hm).
  rewrite HP in Hperm. unfold StringSlice in Hperm.
  apply Permutation_map_inv in Hperm as (purls' & -> & Hperm').
  assert (Forall (λ u, ∃ s, parseURL s = Some u) purls') as Hvalid'
    by by rewrite <- Hperm'.
  assert (Forall plain (map URL_String purls')) as Hplain'.
  { rewrite HP in Hplain. unfold StringSlice in Hplain.
    by rewrite <- Hperm'. }
  destruct purls' as [|u0 purls'].
  { apply Permutation_nil_r in Hperm'. done. }
  unfold derive. cbn [map]. rewrite URL_String_not_empty.
  unfold URLsValue_Set.
  change (URL_String u0 :: map URL_String purls')
    with (map URL_String (u0 :: purls')).
  rewrite split_join_plain; [|done|done].
  unfold NewURLs. cbn [map].
  change (URL_String u0 :: map URL_String purls')
    with (map URL_String (u0 :: purls')).
  rewrite (parse_all_stable parseURL (u0 :: purls') Hst Hvalid').
  cbn [fmap option_fmap option_map]. f_equal.
  rewrite Hm at 2. cbn [Name NewMember]. apply NewMember_ext.
  rewrite sort_URLs_strings. unfold sort_Strings.
  rewrite <- (sort_Sort_unique String.ltb (StringSlice purls)).
  2:{ unfold StringSlice. by apply Permutation_map. }
  apply (sort_Sort_sorted_id String.ltb). by rewrite <- HP.
Qed.

Lemma pairs_of_cons m ms :
  pairs_of (m :: ms) = map (λ u, (Name m, u)) (PeerURLs m) ++ pairs_of ms.
Proof. done. Qed.

Lemma pairs_of_Permutation ms ms' :
  ms ≡ₚ ms' → pairs_of ms ≡ₚ pairs_of ms'.
Proof. intros Hp. unfold pairs_of. by apply Permutation_flat_map. Qed.

Lemma elem_of_pairs_of ms k u :
  (k, u) ∈ pairs_of ms ↔ ∃ m, m ∈ ms ∧ Name m = k ∧ u ∈ PeerURLs m.
Proof.
  unfold pairs_of. rewrite list_elem_of_In, in_flat_map. split.
  - intros (m & Hm & Hin). exists m.
    apply list_elem_of_In in Hm. apply list_elem_of_In in Hin.
    apply list_elem_of_fmap in Hin as (u' & [= <- <-] & Hu). done.
  - intros (m & Hm & <- & Hu). exists m. split; [by apply list_elem_of_In|].
    apply list_elem_of_In, list_elem_of_fmap. eauto.
Qed.

Lemma urls_of_same k us : urls_of k (map (λ u, (k, u)) us) = us.
Proof.
  induction us as [|u us IH]; [done|].
  cbn [map]. rewrite urls_of_cons. cbn. rewrite decide_True by done.
  by rewrite IH.
Qed.

Lemma urls_of_other k k' us : k' ≠ k → urls_of k (map (λ u, (k', u)) us) = [].
Proof.
  intros Hne. apply urls_of_nil. rewrite <- list_fmap_compose.
  intros Hin. apply list_elem_of_fmap in Hin as (u & Hk & _). cbn in Hk.
  congruence.
Qed.

(** Among members with distinct names, the URLs printed under the name
    of a member are its peer URLs. *)
Lemma urls_of_pairs_of ms m :
  NoDup (map Name ms) → m ∈ ms → urls_of (Name m) (pairs_of ms) = PeerURLs m.
Proof.
  induction ms as [|m0 ms IH]; intros Hnd Hm;
    [by apply elem_of_nil in Hm|].
  cbn [map] in Hnd. apply NoDup_cons in Hnd as [Hnotin Hnd].
  rewrite pairs_of_cons, urls_of_app.
  apply elem_of_cons in Hm as [->|Hm].
  - rewrite urls_of_same.
    assert (urls_of (Name m0) (pairs_of ms) = []) as ->.
    { apply urls_of_nil. intros Hin.
      apply list_elem_of_fmap in Hin as ([k u] & Hk & Hin). cbn in Hk.
      apply elem_of_pairs_of in Hin as (m' & Hm' & Hn & _).
      apply Hnotin. apply list_elem_of_fmap. exists m'. split; congruence. }
    by rewrite app_nil_r.
  - rewrite urls_of_other.
    + by apply IH.
    + intros Heq. apply Hnotin. apply list_elem_of_fmap. eauto.
Qed.

Lemma Cluster_String_render visit c :
  ∃ pairs, pairs ≡ₚ pairs_of (map snd (visit (c_members c)))
         ∧ Cluster_String visit c = render pairs.
Proof.
  unfold Cluster_String, render, strings_Join.
  assert (∀ l : list (Z * Member),
    flat_map (λ kv, map (λ u, Name kv.2 +:+ "=" +:+ u) (PeerURLs kv.2)) l
    = map render_entry (pairs_of (map snd l))) as ->.
  { induction l as [|[k m] l IH]; [done|].
    cbn [flat_map map]. rewrite pairs_of_cons, map_app, IH. f_equal.
    cbn [snd]. rewrite map_map. done. }
  set (P := pairs_of (map snd (visit (c_members c)))).
  assert (sort_Strings (map render_entry P) ≡ₚ map render_entry P) as Hs.
  { unfold sort_Strings. by rewrite sort_Sort_perm. }
  apply Permutation_map_inv in Hs as (P' & HP' & Hperm).
  exists P'. split; [done|]. by rewrite HP'.
Qed.

Lemma derived_names parseURL cn es :
  Forall (accepted parseURL cn) es →
  map Name (derived parseURL cn es) = es.*1.
Proof.
  intros Hacc. apply derived_all_accepted in Hacc.
  induction Hacc as [|[k urls] m es ms Hd _ IH]; [done|].
  cbn. cbn in Hd. by rewrite IH, (derive_Name _ _ _ _ _ Hd).
Qed.

(** The shape of a cluster built from a string. *)
Lemma NewClusterFromString_shape parseURL visitV visitM name s c :
  admissible visitV →
  NewClusterFromString parseURL visitV visitM name s = Ok c →
  ∃ ds, c = genID visitM
              (set_members (newCluster name) (list_to_map (by_id ds) ∪ ∅))
      ∧ NoDup (map ID ds) ∧ NoDup (map Name ds)
      ∧ Forall (bootstrapped parseURL name) ds.
Proof.
  intros HV. unfold NewClusterFromString.
  destruct (ParseQuery (replace_char "," "&" s)) as [v [e|]]; [done|].
  destruct (addAllParsed parseURL (newCluster name) (visitV v))
    as [c1|e] eqn:H1; [|done].
  intros [= <-]. apply addAllParsed_Ok_iff in H1 as (Hacc & Hnd & _ & ->).
  cbn [c_name newCluster c_members] in *.
  exists (derived parseURL name (visitV v)). split_and!; [done|done| |].
  - rewrite (derived_names _ _ _ Hacc), (HV v).
    apply NoDup_fst_map_to_list.
  - apply Forall_forall. intros m Hm.
    apply elem_of_derived in Hm as (e & _ & Hd).
    by apply derive_bootstrapped in Hd as [_ ?].
Qed.

Lemma bootstrapped_PeerURLs parseURL cn m :
  bootstrapped parseURL cn m → PeerURLs m ≠ [].
Proof.
  intros (purls & Hm & Hne & _). rewrite Hm. cbn. unfold StringSlice.
  by destruct purls.
Qed.

(** C10, as the code has it.  A cluster built from a string whose member
    names hold none of the bytes [, & ; % + =] and whose peer URLs hold
    none of [, & ; % +] is read back from its printed form as the same
    cluster: the same members under the same ids, with the same names and
    peer URLs, and the same cluster id.  The URL validator is assumed to
    give back unchanged the URLs it has produced. *)
Theorem Cluster_String_roundtrip
    (parseURL : string → option URL)
    (visitV visitV' : gmap string (list string) → list (string * list string))
    (visitM visitM' visitS : gmap Z Member → list (Z * Member))
    (name s : string) (c : Cluster) :
  admissible visitV → admissible visitM → admissible visitS →
  admissible visitV' → admissible visitM' →
  stable parseURL →
  NewClusterFromString parseURL visitV visitM name s = Ok c →
  (∀ m, m ∈ member_list c → plain_name (Name m) ∧ Forall plain (PeerURLs m)) →
  NewClusterFromString parseURL visitV' visitM' name (Cluster_String visitS c)
  = Ok c.
Proof.
  intros HV HM HS HV' HM' Hst Hrun Hplain.
  destruct (NewClusterFromString_shape _ _ _ _ _ _ HV Hrun)
    as (ds & Hc & HndID & HndName & Hboot).
  set (c1 := set_members (newCluster name) (list_to_map (by_id ds) ∪ ∅))
    in Hc.
  assert (member_list c ≡ₚ ds) as Hmem.
  { apply member_list_of_list; [done|]. rewrite Hc. cbn.
    by rewrite (right_id_L ∅ (∪)). }
  destruct (Cluster_String_render visitS c) as (pairs & Hpairs & ->).
  assert (pairs ≡ₚ pairs_of ds) as Hpairs'.
  { rewrite Hpairs. apply pairs_of_Permutation.
    rewrite (HS _). exact Hmem. }
  assert (Forall (λ e, plain_name e.1 ∧ plain e.2) pairs) as Hpl.
  { apply Forall_forall. intros [k u] Hin. rewrite Hpairs' in Hin.
    apply elem_of_pairs_of in Hin as (m & Hm & <- & Hu).
    rewrite <- Hmem in Hm. destruct (Hplain m Hm) as [Hn Hus].
    split; [done|]. cbn. rewrite Forall_forall in Hus. by apply Hus. }
  set (f := λ m : Member, (Name m, urls_of (Name m) pairs)).
  assert (∀ m, m ∈ ds →
            derive parseURL name (f m).1 (f m).2 = Ok ((λ m, m) m)) as Hder.
  { intros m Hm. cbn. rewrite Forall_forall in Hboot.
    apply derive_roundtrip; [done|by apply Hboot| |].
    - apply Hplain. by rewrite Hmem.
    - rewrite (urls_of_Permutation _ _ _ Hpairs').
      by rewrite urls_of_pairs_of. }
  assert (addAllParsed parseURL (newCluster name) (map f ds) = Ok c1)
    as Hloop.
  { apply addAllParsed_Ok_iff. cbn [c_name newCluster c_members].
    rewrite (derived_map _ _ _ _ _ Hder), map_id.
    split_and!; [|done| |done].
    - by eapply accepted_of_derived_map.
    - intros m _. apply lookup_empty. }
  assert (remove_dups pairs.*1 ≡ₚ map Name ds) as Hnames.
  { apply NoDup_Permutation; [apply NoDup_remove_dups|done|].
    intros k. rewrite elem_of_remove_dups, !list_elem_of_fmap. split.
    - intros ([k' u] & -> & Hin). rewrite Hpairs' in Hin.
      apply elem_of_pairs_of in Hin as (m & Hm & <- & _). eauto.
    - intros (m & -> & Hm). rewrite Forall_forall in Hboot.
      pose proof (bootstrapped_PeerURLs _ _ _ (Hboot m Hm)) as Hne.
      destruct (PeerURLs m) as [|u us] eqn:HP; [done|].
      exists (Name m, u). split; [done|]. rewrite Hpairs'.
      apply elem_of_pairs_of. exists m. rewrite HP. split_and!; [done..|].
      by left. }
  assert (settings pairs ≡ₚ map f ds) as Hsettings.
  { unfold settings. rewrite Hnames, map_map. done. }
  unfold NewClusterFromString. rewrite (ParseQuery_render pairs Hpl).
  rewrite (addAllParsed_Permutation parseURL _ (map f ds) _ c1);
    [|by rewrite (HV' _), map_to_list_group|done].
  by rewrite Hc, (genID_visit visitM' visitM).
Qed.

Lemma exampleParseURL_stable : stable exampleParseURL.
Proof.
  intros s u. unfold exampleParseURL at 1.
  destruct (cut_at ":" s) as [scheme rest].
  destruct rest as [|a1 [|a2 host]]; try done.
  { by destruct a1 as [[] [] [] [] [] [] [] []]. }
  destruct a1 as [[] [] [] [] [] [] [] []]; try done.
  destruct a2 as [[] [] [] [] [] [] [] []]; try done.
  destruct (String.eqb scheme "http" || String.eqb scheme "https") eqn:Hsch;
    [|done].
  destruct (contains_char ":" host) eqn:Hcolon; [|done].
  destruct (contains_char "/" host) eqn:Hslash; [done|].
  cbn [andb negb]. intros [= <-].
  unfold exampleParseURL, URL_String. cbn [Scheme Host].
  apply orb_true_iff in Hsch as [->%String.eqb_eq | ->%String.eqb_eq].
  - change ("http" +:+ "://" +:+ host)
      with ("http" +:+ String ":" (String "/" (String "/" host))).
    rewrite cut_at_app by reflexivity. cbv beta iota.
    rewrite Hcolon, Hslash. reflexivity.
  - change ("https" +:+ "://" +:+ host)
      with ("https" +:+ String ":" (String "/" (String "/" host))).
    rewrite cut_at_app by reflexivity. cbv beta iota.
    rewrite Hcolon, Hslash. reflexivity.
Qed.

Lemma S1_plain m :
  m ∈ member_list
        (from_Ok (NewClusterFromString exampleParseURL map_to_list map_to_list
                    "etcd" (render S1_entries))) →
  plain_name (Name m) ∧ Forall plain (PeerURLs m).
Proof.
  intros Hm. vm_compute in Hm.
  repeat (apply elem_of_cons in Hm as [->|Hm]);
    [..|by apply elem_of_nil in Hm];
    (split; [reflexivity|repeat constructor]).
Qed.

Lemma Cluster_String_roundtrip_witness :
  NewClusterFromString exampleParseURL map_to_list map_to_list "etcd"
    (Cluster_String map_to_list
       (from_Ok (NewClusterFromString exampleParseURL map_to_list map_to_list
                   "etcd" (render S1_entries))))
  = Ok (from_Ok (NewClusterFromString exampleParseURL map_to_list map_to_list
                   "etcd" (render S1_entries))).
Proof.
  apply (Cluster_String_roundtrip exampleParseURL map_to_list map_to_list
           map_to_list map_to_list map_to_list "etcd" (render S1_entries)).
  - intros m. reflexivity.
  - intros m. reflexivity.
  - intros m. reflexivity.
  - intros m. reflexivity.
  - intros m. reflexivity.
  - exact exampleParseURL_stable.
  - vm_compute. reflexivity.
  - exact S1_plain.
Defined.

(** C10, the part that fails: a name given with an escaped comma is
    printed with the comma, and the printed form is refused when it is
    read back. *)
Lemma escaped_name_not_read_back :
  NewClusterFromString exampleParseURL map_to_list map_to_list "etcd"
    "a%2Cb=http://10.0.0.1:2380" = Ok escaped_name
  ∧ map Name (member_list escaped_name) = ["a,b"]%string
  ∧ Cluster_String map_to_list escaped_name = "a,b=http://10.0.0.1:2380"%string
  ∧ NewClusterFromString exampleParseURL map_to_list map_to_list "etcd"
      (Cluster_String map_to_list escaped_name) = Err (ErrEmptyURL "a").
Proof. split_and!; vm_compute; reflexivity. Qed.

(** * More facts *)

(** ** MemberByName *)

Lemma MemberByName_loop_spec name : ∀ l memb,
  MemberByName_loop name l memb
  = match memb, filter (λ m, Name m = name) l.*2 with
    | None, [] => Ret None
    | None, [m] => Ret (Some m)
    | Some x, [] => Ret (Some x)
    | _, _ => Panic
    end.
Proof.
  induction l as [|[k m] l IH]; intros memb.
  - by destruct memb.
  - cbn [MemberByName_loop]. rewrite fmap_cons, filter_cons. cbn [snd].
    destruct (String.eqb_spec (Name m) name) as [Heq|Hne].
    + rewrite decide_True by done. destruct memb as [x|].
      * done.
      * rewrite IH. by destruct (filter _ _).
    + rewrite decide_False by done. apply IH.
Qed.

(** X1.  [MemberByName] returns nil when no member carries the name, the
    member when exactly one does, and panics when two or more do,
    whatever the order in which the map is visited. *)
Theorem MemberByName_spec (visit : gmap Z Member → list (Z * Member))
    (c : Cluster) (name : string) :
  admissible visit →
  MemberByName visit c name
  = match named c name with
    | [] => Ret None
    | [m] => Ret (Some m)
    | _ => Panic
    end.
Proof.
  intros Hv. unfold MemberByName. rewrite MemberByName_loop_spec.
  assert (filter (λ m, Name m = name) (visit (c_members c)).*2
          ≡ₚ named c name) as Hp.
  { unfold named, member_list. by rewrite (Hv _). }
  destruct (named c name) as [|m [|m' ms]].
  - by apply Permutation_nil_r in Hp as ->.
  - by apply Permutation_singleton_r in Hp as ->.
  - apply Permutation_length in Hp.
    destruct (filter _ _) as [|x [|y l]]; done.
Qed.

Lemma MemberByName_spec_witness :
  MemberByName map_to_list example_cluster "b"
  = Ret (Some (mkMember 2 "b" ["http://b:2380"] [])).
Proof.
  rewrite (MemberByName_spec map_to_list example_cluster "b").
  - vm_compute. reflexivity.
  - intros m. reflexivity.
Defined.

Example MemberByName_two_panics :
  MemberByName map_to_list
    (NewClusterFromMembers "etcd" 0
       [mkMember 1 "a" [] []; mkMember 2 "a" [] []]) "a" = Panic.
Proof. vm_compute. reflexivity. Qed.

(** ** PeerURLs, ClientURLs and String *)

Lemma sorted_flat_map_spec (f : Member → list string)
    (visit visit' : gmap Z Member → list (Z * Member)) (c : Cluster) :
  admissible visit → admissible visit' →
  let l := sort_Strings (flat_map (λ kv, f kv.2) (visit (c_members c))) in
  l = sort_Strings (flat_map (λ kv, f kv.2) (visit' (c_members c)))
  ∧ Sorted (λ a b, String.leb a b = true) l
  ∧ l ≡ₚ flat_map f (member_list c).
Proof.
  intros Hv Hv' l.
  assert (∀ v : gmap Z Member → list (Z * Member), admissible v →
            flat_map (λ kv, f kv.2) (v (c_members c))
            ≡ₚ flat_map f (member_list c)) as Hflat.
  { intros v Hadm. unfold member_list.
    rewrite (flat_map_concat_map f), map_map, <- flat_map_concat_map.
    apply Permutation_flat_map, Hadm. }
  split_and!.
  - apply (sort_Sort_unique String.ltb). by rewrite !Hflat.
  - eapply Sorted_weaken; [|apply (sort_Sort_sorted String.ltb)].
    intros a b. apply string_not_less_leb.
  - unfold l, sort_Strings. rewrite sort_Sort_perm. by apply Hflat.
Qed.

(** X2.  [PeerURLs] and [ClientURLs] return, in ascending order, the peer
    and the client URLs of all the members, each as often as the members
    hold it, whatever the order in which the map is visited. *)
Theorem Cluster_URLs_sorted (visit visit' : gmap Z Member → list (Z * Member))
    (c : Cluster) :
  admissible visit → admissible visit' →
  (Cluster_PeerURLs visit c = Cluster_PeerURLs visit' c
   ∧ Sorted (λ a b, String.leb a b = true) (Cluster_PeerURLs visit c)
   ∧ Cluster_PeerURLs visit c ≡ₚ flat_map PeerURLs (member_list c))
  ∧ (Cluster_ClientURLs visit c = Cluster_ClientURLs visit' c
     ∧ Sorted (λ a b, String.leb a b = true) (Cluster_ClientURLs visit c)
     ∧ Cluster_ClientURLs visit c ≡ₚ flat_map ClientURLs (member_list c)).
Proof.
  intros Hv Hv'. split.
  - apply (sorted_flat_map_spec PeerURLs visit visit' c Hv Hv').
  - apply (sorted_flat_map_spec ClientURLs visit visit' c Hv Hv').
Qed.

Lemma Cluster_URLs_sorted_witness :
  Cluster_PeerURLs map_to_list example_cluster
  = ["http://a:2380"; "http://b:2380"; "http://c:2380"]
  ∧ Cluster_PeerURLs map_to_list example_cluster
    ≡ₚ flat_map PeerURLs (member_list example_cluster).
Proof.
  split; [vm_compute; reflexivity|].
  apply (Cluster_URLs_sorted map_to_list map_to_list example_cluster);
    intros m; reflexivity.
Defined.

(** X3.  [String] prints one [name=url] entry for each peer URL of each
    member, the entries in ascending order and joined by commas; the text
    does not depend on the order in which the map is visited. *)
Theorem Cluster_String_sorted (visit visit' : gmap Z Member → list (Z * Member))
    (c : Cluster) :
  admissible visit → admissible visit' →
  Cluster_String visit c = Cluster_String visit' c
  ∧ ∃ entries,
      Cluster_String visit c = strings_Join entries ","
      ∧ Sorted (λ a b, String.leb a b = true) entries
      ∧ entries ≡ₚ map render_entry (pairs_of (member_list c)).
Proof.
  intros Hv Hv'.
  pose proof (sorted_flat_map_spec
    (λ m, map (λ u, Name m +:+ "=" +:+ u) (PeerURLs m)) visit visit' c Hv Hv')
    as (Heq & Hs & Hp).
  split.
  - unfold Cluster_String. cbv zeta in Heq. by rewrite Heq.
  - eexists. split; [reflexivity|]. split; [exact Hs|].
    cbv zeta in Hp. rewrite Hp. unfold pairs_of.
    rewrite (flat_map_concat_map _ (member_list c)).
    rewrite (flat_map_concat_map _ (member_list c)).
    rewrite concat_map, map_map.
    erewrite map_ext; [reflexivity|].
    intros m. cbn. by rewrite map_map.
Qed.

Lemma Cluster_String_sorted_witness :
  Cluster_String map_to_list example_cluster
  = "a=http://a:2380,b=http://b:2380,c=http://c:2380"%string
  ∧ Cluster_String map_to_list example_cluster
    = Cluster_String (λ m, reverse (map_to_list m)) example_cluster.
Proof.
  split; [vm_compute; reflexivity|].
  apply (Cluster_String_sorted map_to_list (λ m, reverse (map_to_list m))
           example_cluster).
  - intros m. reflexivity.
  - intros m. apply reverse_Permutation.
Defined.

(** ** NewClusterFromMembers *)

Lemma fold_members_fields (ms : list Member) : ∀ c,
  let c' := fold_left (λ c m, set_members c (<[ID m := m]> (c_members c)))
                      ms c in
  c_id c' = c_id c ∧ c_name c' = c_name c ∧ c_removed c' = c_removed c
  ∧ c_store c' = c_store c
  ∧ c_members c' = fold_left (λ acc m, <[ID m := m]> acc) ms (c_members c).
Proof.
  induction ms as [|m ms IH]; intros c; [done|].
  cbn [fold_left]. cbv zeta. by destruct (IH (set_members c
    (<[ID m := m]> (c_members c)))) as (-> & -> & -> & -> & ->).
Qed.

Lemma fold_insert_last (ms : list Member) (k : Z) :
  fold_left (λ acc m, <[ID m := m]> acc) ms (∅ : gmap Z Member) !! k
  = last (filter (λ m, ID m = k) ms).
Proof.
  induction ms as [|m ms IH] using rev_ind; [done|].
  rewrite fold_left_app, filter_app. cbn [fold_left].
  rewrite filter_cons, filter_nil.
  destruct (decide (ID m = k)) as [<-|Hne].
  - by rewrite lookup_insert_eq, last_snoc.
  - by rewrite lookup_insert_ne, app_nil_r.
Qed.

(** X4.  [NewClusterFromMembers] keeps the id and the name it is given,
    has nothing removed and no store, and looks up under an id the last
    member given with that id: its map is keyed by the ids of its
    members. *)
Theorem NewClusterFromMembers_spec (name : string) (i : Z)
    (membs : list Member) :
  let c := NewClusterFromMembers name i membs in
  Cluster_ID c = i ∧ c_name c = name ∧ c_removed c = ∅ ∧ c_store c = None
  ∧ (∀ k, Cluster_Member c k = last (filter (λ m, ID m = k) membs))
  ∧ keyed c.
Proof.
  intros c.
  destruct (fold_members_fields membs (set_id (newCluster name) i))
    as (H1 & H2 & H3 & H4 & H5).
  fold (NewClusterFromMembers name i membs) in H1, H2, H3, H4, H5. fold c in H1, H2, H3, H4, H5.
  assert (∀ k, Cluster_Member c k = last (filter (λ m, ID m = k) membs))
    as Hlook.
  { intros k. unfold Cluster_Member. rewrite H5. apply fold_insert_last. }
  split_and!; [done..|].
  intros k m Hk. change (Cluster_Member c k = Some m) in Hk.
  rewrite Hlook in Hk. apply last_Some in Hk as [l Hl].
  assert (m ∈ filter (λ m, ID m = k) membs) as Hin.
  { rewrite Hl. apply elem_of_app. right. by left. }
  by apply list_elem_of_filter in Hin as [? _].
Qed.

(** ** AddMember and RemoveMember on the store *)

Lemma store_exists_true st p :
  store_exists st p = true ↔ ∃ q v, st !! q = Some v ∧ below p q = true.
Proof.
  unfold store_exists. rewrite existsb_exists. split.
  - intros ([q v] & Hin & Hb). exists q, v. split; [|done].
    by apply elem_of_map_to_list, list_elem_of_In.
  - intros (q & v & Hq & Hb). exists (q, v). split; [|done].
    by apply list_elem_of_In, elem_of_map_to_list.
Qed.

Lemma store_exists_false st p :
  store_exists st p = false ↔ ∀ q v, st !! q = Some v → below p q = false.
Proof.
  rewrite <- not_true_iff_false, store_exists_true. split.
  - intros Hn q v Hq. destruct (below p q) eqn:Hb; [|done].
    destruct Hn. eauto.
  - intros Hall (q & v & Hq & Hb). by rewrite (Hall q v Hq) in Hb.
Qed.

Lemma prefix_app_same s a b :
  String.prefix (s +:+ a) (s +:+ b) = String.prefix a b.
Proof.
  induction s as [|c s IH]; [done|].
  rewrite !append_cons. cbn [String.prefix].
  by destruct (ascii_dec c c).
Qed.

Lemma below_child dir elem : below dir (path_Join dir elem) = true.
Proof.
  unfold below, path_Join. rewrite prefix_app_same.
  apply orb_true_iff. right.
  change ("/" +:+ elem) with (String "/" elem). cbn [String.prefix].
  destruct (ascii_dec "/" "/"); [by destruct elem|done].
Qed.

Lemma append_inv_head s a b : s +:+ a = s +:+ b → a = b.
Proof.
  induction s as [|c s IH]; [done|].
  rewrite !append_cons. intros [= H]. by apply IH.
Qed.

Lemma member_keys_differ dir :
  path_Join dir raftAttributesSuffix ≠ path_Join dir attributesSuffix.
Proof. unfold path_Join. intros H%append_inv_head. discriminate H. Qed.

Lemma below_self p : below p p = true.
Proof. unfold below. by rewrite String.eqb_refl. Qed.

Lemma tombstone_not_below_member i j :
  below (memberStoreKey i) (removedMemberStoreKey j) = false.
Proof. reflexivity. Qed.

Lemma member_key_not_below_tombstone i j elem :
  below (removedMemberStoreKey i) (path_Join (memberStoreKey j) elem) = false.
Proof. reflexivity. Qed.

Lemma AddMember_Ret_inv c m c' :
  AddMember c m = Ret c' →
  ∃ st,
    c_store c = Some st
    ∧ store_exists st
        (path_Join (memberStoreKey (ID m)) raftAttributesSuffix) = false
    ∧ c' = set_members
             (set_store c
                (Some (<[path_Join (memberStoreKey (ID m)) attributesSuffix
                         := VAttributes (Name m) (ClientURLs m)]>
                       (<[path_Join (memberStoreKey (ID m))
                            raftAttributesSuffix
                          := VRaftAttributes (PeerURLs m)]> st))))
             (<[ID m := m]> (c_members c)).
Proof.
  unfold AddMember, store_Create.
  destruct (c_store c) as [st|]; [|done].
  destruct (store_exists st _) eqn:H1; [done|].
  destruct (store_exists (<[_ := _]> st) _) eqn:H2; [done|].
  intros [= <-]. eauto.
Qed.

(** X5.  After [AddMember] has returned for a member, an [AddMember] of
    any member with the same id panics: the store refuses the key that is
    already there. *)
Theorem AddMember_twice_panics (c : Cluster) (m m' : Member) (c' : Cluster) :
  AddMember c m = Ret c' → ID m' = ID m →
  Cluster_Member c' (ID m) = Some m ∧ AddMember c' m' = Panic.
Proof.
  intros (st & Hst & Hfree & ->)%AddMember_Ret_inv Hid.
  split.
  { unfold Cluster_Member. cbn. by rewrite lookup_insert_eq. }
  unfold AddMember. cbn [c_store set_members set_store]. rewrite Hid.
  unfold store_Create at 1.
  set (p1 := path_Join (memberStoreKey (ID m)) raftAttributesSuffix).
  set (p2 := path_Join (memberStoreKey (ID m)) attributesSuffix).
  assert (store_exists
            (<[p2 := VAttributes (Name m) (ClientURLs m)]>
               (<[p1 := VRaftAttributes (PeerURLs m)]> st)) p1 = true) as ->.
  { apply store_exists_true. exists p1, (VRaftAttributes (PeerURLs m)).
    split; [|apply below_self].
    rewrite lookup_insert_ne; [apply lookup_insert_eq|].
    intros Heq. by apply (member_keys_differ (memberStoreKey (ID m))). }
  done.
Qed.

Lemma AddMember_twice_panics_witness :
  AddMember (from_Ret (AddMember (SetStore (newCluster "etcd") ∅) member_one))
            (mkMember 1 "other" [] []) = Panic.
Proof.
  apply (AddMember_twice_panics (SetStore (newCluster "etcd") ∅) member_one
           (mkMember 1 "other" [] [])).
  - vm_compute. reflexivity.
  - reflexivity.
Defined.

(** X6.  A member added through [AddMember] is removed by [RemoveMember]
    when the store has no tombstone for its id: the members are those
    before the addition, less that id; the id is recorded as removed; and
    a second [RemoveMember] of the id panics. *)
Theorem AddMember_RemoveMember (c : Cluster) (m : Member) (c1 : Cluster)
    (st : gmap string StoreValue) :
  c_store c = Some st →
  store_exists st (removedMemberStoreKey (ID m)) = false →
  AddMember c m = Ret c1 →
  ∃ c2, RemoveMember c1 (ID m) = Ret c2
      ∧ c_members c2 = delete (ID m) (c_members c)
      ∧ IsIDRemoved c2 (ID m) = true
      ∧ RemoveMember c2 (ID m) = Panic.
Proof.
  intros Hst Htomb (st' & Hst' & Hfree & ->)%AddMember_Ret_inv.
  rewrite Hst in Hst'. injection Hst' as <-.
  set (dir := memberStoreKey (ID m)).
  set (p1 := path_Join dir raftAttributesSuffix).
  set (p2 := path_Join dir attributesSuffix).
  set (st2 := <[p2 := VAttributes (Name m) (ClientURLs m)]>
                (<[p1 := VRaftAttributes (PeerURLs m)]> st)).
  set (st3 := filter (λ kv : string * StoreValue, below dir kv.1 = false) st2).
  assert (store_exists st2 dir = true) as Hdir.
  { apply store_exists_true. exists p2, (VAttributes (Name m) (ClientURLs m)).
    split; [apply lookup_insert_eq|apply below_child]. }
  assert (∀ q v, st3 !! q = Some v → st !! q = Some v ∧ below dir q = false)
    as Hst3.
  { intros q v Hq. apply map_lookup_filter_Some in Hq as [Hq Hb].
    cbn in Hb. split; [|done]. unfold st2 in Hq.
    rewrite lookup_insert_ne in Hq.
    - rewrite lookup_insert_ne in Hq; [done|]. intros <-.
      unfold p1 in Hb. by rewrite below_child in Hb.
    - intros <-. unfold p2 in Hb. by rewrite below_child in Hb. }
  assert (store_exists st3 (removedMemberStoreKey (ID m)) = false) as Hfree3.
  { apply store_exists_false. intros q v Hq.
    destruct (Hst3 q v Hq) as [Hq' _].
    rewrite store_exists_false in Htomb. by apply (Htomb q v). }
  unfold RemoveMember at 1. cbn [c_store set_members set_store c_members].
  unfold store_Delete. fold dir p1 p2 st2. rewrite Hdir. fold st3.
  unfold store_Create. rewrite Hfree3.
  eexists. split; [reflexivity|]. split_and!.
  - cbn. by rewrite delete_insert_eq.
  - unfold IsIDRemoved. cbn. by rewrite lookup_insert_eq.
  - unfold RemoveMember. cbn [c_store set_removed set_members set_store].
    unfold store_Delete. fold dir.
    assert (store_exists (<[removedMemberStoreKey (ID m) := VEmpty]> st3) dir
            = false) as ->; [|done].
    apply store_exists_false. intros q v Hq.
    destruct (decide (removedMemberStoreKey (ID m) = q)) as [<-|Hne].
    + apply tombstone_not_below_member.
    + rewrite lookup_insert_ne in Hq by done. by destruct (Hst3 q v Hq).
Qed.

Lemma AddMember_RemoveMember_witness :
  ∃ c2, RemoveMember
          (from_Ret (AddMember (SetStore (newCluster "etcd") ∅) member_one))
          (ID member_one) = Ret c2
      ∧ c_members c2 = delete (ID member_one) ∅
      ∧ IsIDRemoved c2 (ID member_one) = true
      ∧ RemoveMember c2 (ID member_one) = Panic.
Proof.
  apply (AddMember_RemoveMember (SetStore (newCluster "etcd") ∅) member_one
           _ ∅).
  - reflexivity.
  - vm_compute. reflexivity.
  - vm_compute. reflexivity.
Defined.

(** ** ValidateAndAssignIDs: what a mismatch leaves behind *)

Lemma assignIDs_keys : ∀ os ms os' e,
  assignIDs os ms = Ret (os', e) → os'.*1 = os.*1.
Proof.
  induction os as [|[k o] os IH]; intros ms os' e; cbn [assignIDs].
  - by intros [= <- <-].
  - destruct ms as [|m ms]; [done|].
    destruct (decide (PeerURLs o = PeerURLs m)); [|by intros [= <- <-]].
    destruct (assignIDs os ms) as [[os1 e1]|] eqn:Hrec; [|done].
    intros [= <- <-]. cbn. f_equal. by eapply IH.
Qed.

Lemma fold_insert_keys_notin (l : list (Z * Member)) :
  ∀ (acc : gmap Z Member) (k : Z),
  k ∉ l.*1 →
  fold_left (λ ms km, <[km.1 := km.2]> ms) l acc !! k = acc !! k.
Proof.
  induction l as [|[k' m] l IH]; intros acc k Hk; [done|].
  cbn [fold_left]. rewrite fmap_cons in Hk.
  apply not_elem_of_cons in Hk as [Hne Hk].
  rewrite IH by done. cbn. by rewrite lookup_insert_ne.
Qed.

(** X7.  [ValidateAndAssignIDs] is not all-or-nothing.  When the first
    sorted position matches and a later one does not, the error is
    returned, yet the member of the first position already carries the id
    of its external counterpart while the map still holds it under its
    old key. *)
Theorem ValidateAndAssignIDs_mismatch_writes
    (visit : gmap Z Member → list (Z * Member))
    (less : Member → Member → bool) (c : Cluster) (membs : list Member)
    (k : Z) (o m : Member) (os : list (Z * Member)) (ms : list Member) :
  admissible visit →
  size (c_members c) = length membs →
  sort_Sort (λ a b, less a.2 b.2) (visit (c_members c)) = (k, o) :: os →
  sort_Sort less membs = m :: ms →
  PeerURLs o = PeerURLs m →
  mismatch os ms →
  ∃ c', ValidateAndAssignIDs visit less c membs
        = Ret (c', Some ErrUnmatchedMember)
      ∧ c_members c !! k = Some o
      ∧ c_members c' !! k = Some (setID o (ID m))
      ∧ dom (c_members c') = dom (c_members c).
Proof.
  intros Hv Hsz Hos Hms Hfirst Hmis.
  assert (NoDup ((k, o) :: os).*1) as Hnd.
  { rewrite <- Hos, sort_Sort_perm, (Hv _). apply NoDup_fst_map_to_list. }
  assert (length os = length ms) as Hlen.
  { apply (f_equal length) in Hos, Hms.
    rewrite sort_Sort_length in Hos. rewrite sort_Sort_length in Hms.
    rewrite (Hv _) in Hos.
    rewrite length_map_to_list in Hos. cbn in Hos, Hms. lia. }
  unfold ValidateAndAssignIDs.
  destruct (Nat.eqb_spec (size (c_members c)) (length membs)) as [_|?];
    [|done].
  cbn [negb]. rewrite Hos, Hms. cbn [assignIDs].
  rewrite decide_True by done.
  destruct (assignIDs_spec os ms Hlen) as [[Hno _]|[_ [os' Hrec]]]; [done|].
  rewrite Hrec. eexists. split; [reflexivity|].
  pose proof (assignIDs_keys _ _ _ _ Hrec) as Hkeys.
  rewrite fmap_cons in Hnd. apply NoDup_cons in Hnd as [Hk Hnd].
  assert (c_members c !! k = Some o) as Hko.
  { apply elem_of_map_to_list. rewrite <- (Hv _), <- sort_Sort_perm, Hos.
    by left. }
  split_and!; [done| |].
  - cbn [c_members set_members fold_left].
    rewrite fold_insert_keys_notin by by rewrite Hkeys.
    cbn. by rewrite lookup_insert_eq.
  - cbn [c_members set_members].
    assert (∀ (l : list (Z * Member)) (acc : gmap Z Member),
              (∀ q, q ∈ l.*1 → q ∈ dom acc) →
              dom (fold_left (λ ms km, <[km.1 := km.2]> ms) l acc) = dom acc)
      as Hdom.
    { induction l as [|[q x] l IH]; intros acc Hin; [done|].
      cbn [fold_left]. rewrite IH.
      - cbn. rewrite dom_insert_L.
        apply subseteq_union_1_L, singleton_subseteq_l, Hin.
        rewrite fmap_cons. by left.
      - intros q' Hq'. cbn. rewrite dom_insert_L. apply elem_of_union. right.
        apply Hin. rewrite fmap_cons. by right. }
    apply Hdom. intros q Hq.
    assert (q ∈ ((k, o) :: os).*1) as Hq'.
    { rewrite fmap_cons in Hq |- *. cbn in Hq |- *. by rewrite <- Hkeys. }
    rewrite <- Hos, sort_Sort_perm, (Hv _) in Hq'.
    apply list_elem_of_fmap in Hq' as ([q' x] & -> & Hin).
    apply elem_of_map_to_list in Hin. by eapply elem_of_dom_2.
Qed.

Lemma ValidateAndAssignIDs_mismatch_writes_witness :
  ∃ c', ValidateAndAssignIDs map_to_list lessByFirstPeerURL example_cluster
          [mkMember 10 "" ["http://a:2380"] [];
           mkMember 20 "" ["http://x:2380"] [];
           mkMember 30 "" ["http://y:2380"] []]
        = Ret (c', Some ErrUnmatchedMember)
      ∧ c_members example_cluster !! 1
        = Some (mkMember 1 "a" ["http://a:2380"] [])
      ∧ c_members c' !! 1
        = Some (setID (mkMember 1 "a" ["http://a:2380"] []) 10)
      ∧ dom (c_members c') = dom (c_members example_cluster).
Proof.
  apply (ValidateAndAssignIDs_mismatch_writes map_to_list lessByFirstPeerURL
           example_cluster _ 1 (mkMember 1 "a" ["http://a:2380"] [])
           (mkMember 10 "" ["http://a:2380"] [])
           [(2, mkMember 2 "b" ["http://b:2380"] []);
            (3, mkMember 3 "c" ["http://c:2380"] [])]
           [mkMember 20 "" ["http://x:2380"] [];
            mkMember 30 "" ["http://y:2380"] []]).
  - intros m. reflexivity.
  - reflexivity.
  - vm_compute. reflexivity.
  - vm_compute. reflexivity.
  - reflexivity.
  - exists 0%nat, (2, mkMember 2 "b" ["http://b:2380"] []),
      (mkMember 20 "" ["http://x:2380"] []).
    split_and!; [reflexivity|reflexivity|discriminate].
Defined.

(** ** The cluster NewClusterFromString returns *)

Lemma genID_fields visit c :
  c_name (genID visit c) = c_name c
  ∧ c_members (genID visit c) = c_members c
  ∧ c_removed (genID visit c) = c_removed c
  ∧ c_store (genID visit c) = c_store c.
Proof. done. Qed.

Lemma genID_idem visit visit' c :
  admissible visit → admissible visit' →
  genID visit' (genID visit c) = genID visit c.
Proof.
  intros Hv Hv'. rewrite (genID_visit visit' visit) by done.
  unfold genID, MemberIDs. done.
Qed.

(** X8.  A cluster returned by [NewClusterFromString] carries the name
    given, has nothing removed and no store; its map is keyed by the ids
    of its members; its id is the one [genID] derives from its members;
    its members have pairwise distinct names and ids, at least one peer
    URL each, sorted, and no client URL. *)
Theorem NewClusterFromString_cluster
    (parseURL : string → option URL)
    (visitV : gmap string (list string) → list (string * list string))
    (visitM visit : gmap Z Member → list (Z * Member))
    (name s : string) (c : Cluster) :
  admissible visitV → admissible visitM → admissible visit →
  NewClusterFromString parseURL visitV visitM name s = Ok c →
  c_name c = name ∧ c_removed c = ∅ ∧ c_store c = None
  ∧ keyed c
  ∧ genID visit c = c
  ∧ NoDup (map Name (member_list c))
  ∧ NoDup (map ID (member_list c))
  ∧ (∀ m, m ∈ member_list c →
       PeerURLs m ≠ [] ∧ ClientURLs m = []
       ∧ Sorted (λ a b, String.leb a b = true) (PeerURLs m)).
Proof.
  intros HV HM Hv Hrun.
  destruct (NewClusterFromString_shape _ _ _ _ _ _ HV Hrun)
    as (ds & -> & HndID & HndName & Hboot).
  assert (member_list
            (genID visitM (set_members (newCluster name)
                             (list_to_map (by_id ds) ∪ ∅))) ≡ₚ ds) as Hmem.
  { apply member_list_of_list; [done|]. cbn.
    by rewrite (right_id_L ∅ (∪)). }
  split_and!; [done..| | | | |].
  - intros k m Hk. cbn in Hk. rewrite (right_id_L ∅ (∪)) in Hk.
    apply elem_of_list_to_map_2 in Hk. unfold by_id in Hk.
    apply list_elem_of_fmap in Hk as (m' & [= -> ->] & _). done.
  - by apply genID_idem.
  - by rewrite Hmem.
  - by rewrite Hmem.
  - intros m Hm. rewrite Hmem in Hm. rewrite Forall_forall in Hboot.
    pose proof (Hboot m Hm) as Hb. split_and!.
    + by eapply bootstrapped_PeerURLs.
    + destruct Hb as (purls & -> & _). done.
    + destruct Hb as (_ & _ & _ & _ & Hs).
      eapply Sorted_weaken; [|exact Hs].
      intros a b. apply string_not_less_leb.
Qed.

Lemma NewClusterFromString_cluster_witness :
  c_name booted = "etcd"%string ∧ c_removed booted = ∅ ∧ c_store booted = None
  ∧ keyed booted
  ∧ genID map_to_list booted = booted.
Proof.
  destruct (NewClusterFromString_cluster exampleParseURL map_to_list
              map_to_list map_to_list "etcd" "n1=http://10.0.0.1:2380" booted)
    as (H1 & H2 & H3 & H4 & H5 & _).
  - intros m. reflexivity.
  - intros m. reflexivity.
  - intros m. reflexivity.
  - vm_compute. reflexivity.
  - split_and!; assumption.
Defined.

(** X9.  A setting without a URL makes the construction fail: when the
    parsed string has a name whose first URL is empty, no cluster is
    returned, whatever the other settings and the order of the visit. *)
Theorem NewClusterFromString_empty_URL
    (parseURL : string → option URL)
    (visitV : gmap string (list string) → list (string * list string))
    (visitM : gmap Z Member → list (Z * Member))
    (name s k : string) (urls : list string) :
  admissible visitV →
  (ParseQuery (replace_char "," "&" s)).1 !! k = Some urls →
  hd "" urls = "" →
  (∃ e, NewClusterFromString parseURL visitV visitM name s = Err e)
  ∧ derive parseURL name k urls = Err (ErrEmptyURL k).
Proof.
  intros HV Hk Hhd.
  assert (derive parseURL name k urls = Err (ErrEmptyURL k)) as Hd.
  { unfold derive. destruct urls as [|u0 urls]; [done|].
    cbn in Hhd. by rewrite Hhd. }
  split; [|done]. unfold NewClusterFromString.
  destruct (ParseQuery (replace_char "," "&" s)) as [v [e|]]; [eauto|].
  cbn [fst] in Hk.
  destruct (addAllParsed parseURL (newCluster name) (visitV v))
    as [c'|e] eqn:Hloop; [|eauto].
  apply addAllParsed_Ok_iff in Hloop as (Hacc & _).
  rewrite Forall_forall in Hacc.
  destruct (Hacc (k, urls)) as [m Hm].
  - rewrite (HV v). by apply elem_of_map_to_list.
  - cbn in Hm. congruence.
Qed.

Lemma NewClusterFromString_empty_URL_witness :
  ∃ e, NewClusterFromString exampleParseURL map_to_list map_to_list "etcd"
         "a=http://10.0.0.1:2380,b=" = Err e.
Proof.
  apply (NewClusterFromString_empty_URL exampleParseURL map_to_list
           map_to_list "etcd" "a=http://10.0.0.1:2380,b=" "b" [""%string]).
  - intros m. reflexivity.
  - vm_compute. reflexivity.
  - reflexivity.
Defined.

(** ** etcdmain: the cluster of a discovery bootstrap *)

Lemma genClusterString_render name urls :
  genClusterString name urls
  = render (map (λ s, (name, s)) (map URL_String urls)).
Proof.
  unfold genClusterString, render. by rewrite !map_map.
Qed.

Lemma remove_dups_same {A} `{EqDecision A} (x : A) (l : list A) :
  l ≠ [] → Forall (λ y, y = x) l → remove_dups l = [x].
Proof.
  induction l as [|y l IH]; [done|]. intros _ Hall.
  apply Forall_cons in Hall as [-> Hall]. cbn [remove_dups].
  destruct (decide_rel elem_of x l) as [Hin|Hin].
  - apply IH; [|done]. intros ->. by apply elem_of_nil in Hin.
  - destruct l as [|z l]; [done|].
    apply Forall_cons in Hall as [-> _]. destruct Hin. by left.
Qed.

Lemma omap_stable parseURL urls :
  stable parseURL →
  Forall (λ u, ∃ s, parseURL s = Some u) urls →
  omap parseURL (map URL_String urls) = urls.
Proof.
  intros Hst. induction 1 as [|u urls [s Hs] _ IH]; [done|].
  cbn. by rewrite (Hst s u Hs), IH.
Qed.

Lemma settings_one_name name (strs : list string) :
  strs ≠ [] →
  settings (map (λ s, (name, s)) strs) = [(name, strs)].
Proof.
  intros Hne. unfold settings. rewrite (remove_dups_same name).
  - cbn. by rewrite urls_of_same.
  - by destruct strs.
  - rewrite <- list_fmap_compose. by apply Forall_fmap, Forall_forall.
Qed.

Lemma discovery_members
    (parseURL : string → option URL)
    (visitV : gmap string (list string) → list (string * list string))
    (name durl : string) (urls : list URL) :
  admissible visitV → stable parseURL →
  plain_name name →
  Forall (λ u, plain (URL_String u) ∧ ∃ s, parseURL s = Some u) urls →
  urls ≠ [] →
  let m := NewMember name (sort_Sort lessURL urls) durl None in
  addAllParsed parseURL (newCluster durl)
    (visitV (group (map (λ s, (name, s)) (map URL_String urls))))
  = Ok (set_members (newCluster durl) (<[ID m := m]> ∅)).
Proof.
  intros HV Hst Hname Hurls Hne m.
  set (strs := map URL_String urls).
  assert (strs ≠ []) as Hne' by (by destruct urls).
  pose proof (map_to_list_group (map (λ s, (name, s)) strs)) as Hgroup.
  rewrite <- (HV (group _)), (settings_one_name name strs Hne') in Hgroup.
  assert (derive parseURL durl name strs = Ok m) as Hd.
  { rewrite derive_wellformed.
    - unfold m, strs. rewrite omap_stable; [done|done|].
      eapply Forall_impl; [done|]. by intros u [_ ?].
    - done.
    - apply Forall_fmap. eapply Forall_impl; [done|].
      intros u [Hp [s Hs]]. cbn. split_and!; [done| |].
      + intros Heq. pose proof (URL_String_not_empty u) as Hn.
        by rewrite Heq in Hn.
      + rewrite (Hst s u Hs). eauto. }
  apply (addAllParsed_Permutation parseURL _ [(name, strs)]); [done|].
  cbn [addAllParsed]. rewrite addParsed_derive.
  cbn [c_name newCluster]. rewrite Hd. cbn [c_members newCluster].
  by rewrite lookup_empty.
Qed.

(** X10.  The cluster that [setupCluster] builds for a discovery
    bootstrap, from the string [genClusterString] makes of the member's
    name and advertised peer URLs, holds exactly that member with those
    URLs, sorted; with no advertised URL it is the empty cluster.  The
    name and the URLs are assumed free of reserved bytes, and the URLs to
    be ones the validator has produced. *)
Theorem discovery_cluster
    (parseURL : string → option URL)
    (visitV : gmap string (list string) → list (string * list string))
    (visitM : gmap Z Member → list (Z * Member))
    (name durl : string) (urls : list URL) :
  admissible visitV → admissible visitM → stable parseURL →
  plain_name name →
  Forall (λ u, plain (URL_String u) ∧ ∃ s, parseURL s = Some u) urls →
  let m := NewMember name (sort_Sort lessURL urls) durl None in
  NewClusterFromString parseURL visitV visitM durl
    (genClusterString name urls)
  = Ok (genID visitM
          (set_members (newCluster durl)
             (match urls with [] => ∅ | _ => <[ID m := m]> ∅ end)))
  ∧ Name m = name
  ∧ PeerURLs m = sort_Strings (StringSlice urls).
Proof.
  intros HV HM Hst Hname Hurls m.
  split; [|split; [done|apply sort_URLs_strings]].
  rewrite genClusterString_render.
  unfold NewClusterFromString. rewrite ParseQuery_render.
  2:{ apply Forall_fmap, Forall_fmap. eapply Forall_impl; [done|].
      by intros u [? _]. }
  destruct (decide (urls = [])) as [->|Hne].
  - pose proof (map_to_list_group []) as Hgroup.
    rewrite <- (HV (group _)) in Hgroup.
    change (settings []) with (@nil (string * list string)) in Hgroup.
    apply Permutation_nil_r in Hgroup.
    cbn [map]. rewrite Hgroup. by destruct durl.
  - rewrite (discovery_members parseURL visitV name durl urls) by done.
    by destruct urls.
Qed.

Lemma discovery_cluster_witness :
  NewClusterFromString exampleParseURL map_to_list map_to_list
    "https://discovery.example.com/token"
    (genClusterString "node1"
       [mkURL "http" "1.1.1.1:2379"; mkURL "http" "0.0.0.0:2379"])
  = Ok (genID map_to_list
          (set_members (newCluster "https://discovery.example.com/token")
             (<[ID (NewMember "node1"
                      (sort_Sort lessURL
                         [mkURL "http" "1.1.1.1:2379";
                          mkURL "http" "0.0.0.0:2379"])
                      "https://discovery.example.com/token" None)
                := NewMember "node1"
                     (sort_Sort lessURL
                        [mkURL "http" "1.1.1.1:2379";
                         mkURL "http" "0.0.0.0:2379"])
                     "https://discovery.example.com/token" None]> ∅))).
Proof.
  apply (discovery_cluster exampleParseURL map_to_list map_to_list "node1"
           "https://discovery.example.com/token"
           [mkURL "http" "1.1.1.1:2379"; mkURL "http" "0.0.0.0:2379"]).
  - intros m. reflexivity.
  - intros m. reflexivity.
  - exact exampleParseURL_stable.
  - reflexivity.
  - repeat apply Forall_cons_2; [..|apply Forall_nil_2].
    + split; [reflexivity|]. exists "http://1.1.1.1:2379"%string.
      vm_compute. reflexivity.
    + split; [reflexivity|]. exists "http://0.0.0.0:2379"%string.
      vm_compute. reflexivity.
Defined.

(** ** etcdmain: setupCluster *)

(** X11.  [setupCluster] gives neither a cluster nor an error exactly in
    one case: the bootstrap is by DNS, the cluster string was generated,
    and the string was refused by [NewClusterFromString], whose error is
    lost.  In a DNS bootstrap the only errors returned are those of
    [genDNSClusterString]. *)
Theorem setupCluster_lost_error
    (parseURL : string → option URL)
    (visitV : gmap string (list string) → list (string * list string))
    (visitM : gmap Z Member → list (Z * Member))
    (lookupSRV : string → string → option (list SRV))
    (ResolveTCPAddr : string → option string) (cfg : config) :
  (setupCluster parseURL visitV visitM lookupSRV ResolveTCPAddr cfg
   = (None, None)
   ↔ cfg_durl cfg = ""%string ∧ cfg_dnsCluster cfg ≠ ""%string
     ∧ ∃ s tok e,
         genDNSClusterString lookupSRV ResolveTCPAddr (cfg_name cfg)
           (cfg_dnsCluster cfg) (cfg_initialClusterToken cfg)
           (cfg_apurls cfg) = Ok (s, tok)
         ∧ NewClusterFromString parseURL visitV visitM tok s = Err e)
  ∧ (cfg_durl cfg = ""%string → cfg_dnsCluster cfg ≠ ""%string →
     ∀ e, (setupCluster parseURL visitV visitM lookupSRV ResolveTCPAddr
             cfg).2 = Some e
          ↔ genDNSClusterString lookupSRV ResolveTCPAddr (cfg_name cfg)
              (cfg_dnsCluster cfg) (cfg_initialClusterToken cfg)
              (cfg_apurls cfg) = Err e).
Proof.
  unfold setupCluster.
  destruct (String.eqb_spec (cfg_durl cfg) "") as [Hd|Hd]; cbn [negb].
  2:{ split; [|done]. split.
      - by destruct (NewClusterFromString _ _ _ _ _).
      - by intros [? _]. }
  destruct (String.eqb_spec (cfg_dnsCluster cfg) "") as [Hn|Hn]; cbn [negb].
  { split; [|done]. split.
    - by destruct (NewClusterFromString _ _ _ _ _).
    - by intros (_ & ? & _). }
  destruct (genDNSClusterString _ _ _ _ _ _) as [[s tok]|e0].
  - destruct (NewClusterFromString parseURL visitV visitM tok s)
      as [c|e1] eqn:Hrun.
    + split.
      * split; [done|]. intros (_ & _ & s' & tok' & e & [= <- <-] & He).
        congruence.
      * intros _ _ e. split; done.
    + split.
      * split; [|done]. intros _. split_and!; [done..|]. eauto.
      * intros _ _ e. split; done.
  - split.
    + split; [done|]. by intros (_ & _ & s' & tok' & e & ? & _).
    + intros _ _ e. cbn. split; intros [= ->]; done.
Qed.

Lemma setupCluster_lost_error_witness :
  setupCluster exampleParseURL map_to_list map_to_list
    (test_lookupSRV [mkSRV "10.0.0.1" 2480; mkSRV "10.0.0.1" 2480] []) Some
    (mkConfig "node1" "" "" "example.com" "token" "" [])
  = (None, None).
Proof.
  destruct (setupCluster_lost_error exampleParseURL map_to_list map_to_list
              (test_lookupSRV [mkSRV "10.0.0.1" 2480; mkSRV "10.0.0.1" 2480]
                 [])
              Some (mkConfig "node1" "" "" "example.com" "token" "" []))
    as [[_ Hlost] _].
  apply Hlost. split_and!; [reflexivity|discriminate|].
  destruct (NewClusterFromString exampleParseURL map_to_list map_to_list
              "token" "0=https://10.0.0.1:2480,1=https://10.0.0.1:2480")
    as [c|e] eqn:Hrun.
  - vm_compute in Hrun. discriminate Hrun.
  - exists "0=https://10.0.0.1:2480,1=https://10.0.0.1:2480"%string,
      "token"%string, e.
    split; [vm_compute; reflexivity|exact Hrun].
Defined.

(** Two SRV answers for one address: the generated string has two names
    for one URL, the construction fails on the duplicate id, and
    [setupCluster] returns the nil cluster with the nil error. *)
Example setupCluster_dns_duplicate :
  let cfg := mkConfig "node1" "" "" "example.com" "token" "" [] in
  let look := test_lookupSRV [mkSRV "10.0.0.1" 2480; mkSRV "10.0.0.1" 2480] []
  in
  genDNSClusterString look Some "node1" "example.com" "token" []
  = Ok ("0=https://10.0.0.1:2480,1=https://10.0.0.1:2480"%string,
        "token"%string)
  ∧ setupCluster exampleParseURL map_to_list map_to_list look Some cfg
    = (None, None).
Proof. split; vm_compute; reflexivity. Qed.

(** ** genDNSClusterString: when it fails *)

Lemma resolveAPUrls_Err ResolveTCPAddr apurls :
  (∃ e, resolveAPUrls ResolveTCPAddr apurls = Err e)
  ↔ ∃ u, u ∈ apurls ∧ ResolveTCPAddr (Host u) = None.
Proof.
  induction apurls as [|u apurls IH]; cbn [resolveAPUrls].
  - split; [by intros [? ?]|]. intros (u & Hu & _).
    by apply elem_of_nil in Hu.
  - destruct (ResolveTCPAddr (Host u)) as [a|] eqn:Hu.
    + destruct (resolveAPUrls ResolveTCPAddr apurls) as [l|e] eqn:Hrest.
      * split; [by intros [? ?]|]. intros (u' & Hin & Hn).
        apply elem_of_cons in Hin as [->|Hin]; [congruence|].
        destruct (proj2 IH) as [? ?]; [eauto|done].
      * split; [|eauto]. intros _.
        destruct (proj1 IH) as (u' & Hin & Hn); [eauto|].
        exists u'. split; [by right|done].
    + split; [|eauto]. intros _. exists u. split; [by left|done].
Qed.

(** X12.  [genDNSClusterString] fails exactly when an advertised peer URL
    does not resolve or both SRV queries fail; one failed query alone is
    tolerated.  When it succeeds the token returned is the default
    token. *)
Theorem genDNSClusterString_fails
    (lookupSRV : string → string → option (list SRV))
    (ResolveTCPAddr : string → option string)
    (name dns defaultToken : string) (apurls : list URL) :
  ((∃ e, genDNSClusterString lookupSRV ResolveTCPAddr name dns defaultToken
           apurls = Err e)
   ↔ (∃ u, u ∈ apurls ∧ ResolveTCPAddr (Host u) = None)
     ∨ (lookupSRV "etcd-server-ssl" dns = None
        ∧ lookupSRV "etcd-server" dns = None))
  ∧ (∀ s tok, genDNSClusterString lookupSRV ResolveTCPAddr name dns
                defaultToken apurls = Ok (s, tok) → tok = defaultToken).
Proof.
  rewrite <- resolveAPUrls_Err. unfold genDNSClusterString.
  destruct (resolveAPUrls ResolveTCPAddr apurls) as [self|e0].
  2:{ split; [|done]. split; eauto. }
  unfold updateNodeMap.
  destruct (lookupSRV "etcd-server-ssl" dns) as [a1|];
    destruct (lookupSRV "etcd-server" dns) as [a2|]; cbn.
  - split; [|by intros s tok [= _ <-]].
    split; [by intros [? ?]|]. by intros [[? ?]|[? _]].
  - split; [|by intros s tok [= _ <-]].
    split; [by intros [? ?]|]. by intros [[? ?]|[? _]].
  - split; [|by intros s tok [= _ <-]].
    split; [by intros [? ?]|]. by intros [[? ?]|[_ ?]].
  - split; [|done]. split; eauto.
Qed.

Lemma genDNSClusterString_fails_witness :
  ∃ e, genDNSClusterString (λ _ _, None) Some "node1" "example.com" "token"
         [mkURL "http" "10.0.0.1:2380"] = Err e.
Proof.
  apply (proj1 (genDNSClusterString_fails (λ _ _, None) Some "node1"
                  "example.com" "token" [mkURL "http" "10.0.0.1:2380"])).
  right. split; reflexivity.
Defined.

(** ** rafthttp: adding and removing peers *)

Lemma transport_Send_dropped t msgs :
  Forall (λ m, ¬ forwarded t m) msgs → transport_Send t msgs = t.
Proof.
  unfold transport_Send. induction 1 as [|m msgs Hm _ IH]; [done|].
  cbn [fold_left]. by rewrite (sendOne_drop t m Hm).
Qed.

Lemma hub_Send_dropped h msgs :
  Forall (λ m, ¬ forwarded (h_transport h) m) msgs → hub_Send h msgs = h.
Proof.
  intros Hall. unfold hub_Send. rewrite transport_Send_dropped by done.
  by destruct h.
Qed.

Lemma delete_Follower (fs : gmap string FollowerStats) (name : string) :
  delete name (Follower fs name) = delete name fs.
Proof.
  unfold Follower. destruct (fs !! name); [done|].
  by rewrite delete_insert_eq.
Qed.

(** X13.  A peer that has been added can be removed once: [RemovePeer]
    after [AddPeer] never panics, leaves every other peer as it was before
    the two calls, drops the follower statistics of the peer and stops it;
    a message to the removed peer is then dropped by [Send], and removing
    it again panics. *)
Theorem AddPeer_RemovePeer
    (parseURL : string → option URL) (idString : Z → string)
    (h h1 : hub) (i : Z) (us : list string) :
  i ≠ t_id (h_transport h) →
  AddPeer parseURL idString h i us = Ret h1 →
  ∃ h2,
    RemovePeer idString h1 i = Ret h2
    ∧ peers (h_transport h2) = delete i (peers (h_transport h))
    ∧ h_followers h2 = delete (idString i) (h_followers h)
    ∧ h_stopped h2 = h_stopped h ++ [i]
    ∧ transport_Get h2 i = None
    ∧ (∀ msgs, Forall (λ m, To m = i) msgs → hub_Send h2 msgs = h2)
    ∧ RemovePeer idString h2 i = Panic.
Proof.
  intros Hself Hadd.
  assert (∃ p, peers (h_transport h1) !! i = Some p
               ∧ delete i (peers (h_transport h1))
                 = delete i (peers (h_transport h))
               ∧ delete (idString i) (h_followers h1)
                 = delete (idString i) (h_followers h)
               ∧ h_stopped h1 = h_stopped h
               ∧ t_id (h_transport h1) = t_id (h_transport h))
    as (p & Hp & Hpeers & Hfs & Hst & Hid).
  { unfold AddPeer in Hadd.
    destruct (Z.eqb_spec i (t_id (h_transport h))) as [|_]; [done|].
    destruct (peers (h_transport h) !! i) as [p|] eqn:Hp.
    - injection Hadd as <-. eauto 10.
    - destruct (NewURLs parseURL us) as [urls|]; [|done].
      injection Hadd as <-. cbn. exists (mkPeer []).
      rewrite lookup_insert_eq, delete_insert_eq, delete_Follower. done. }
  unfold RemovePeer, removePeer. rewrite Hid.
  destruct (Z.eqb_spec i (t_id (h_transport h))) as [|_]; [done|].
  rewrite Hp. eexists. split; [done|]. cbn.
  rewrite Hid. destruct (Z.eqb_spec i (t_id (h_transport h))) as [|_]; [done|].
  rewrite Hpeers, Hfs, Hst. unfold transport_Get. cbn.
  rewrite !lookup_delete_eq. split_and!; try done.
  intros msgs Hall. apply hub_Send_dropped. cbn.
  eapply Forall_impl; [done|]. intros m Hm [_ [q Hq]]. cbn in Hq.
  by rewrite Hm, lookup_delete_eq in Hq.
Qed.

Lemma AddPeer_RemovePeer_witness :
  ∃ h1 h2,
    AddPeer exampleParseURL (hex 16) (NewTransporter 1 (mkServerStats 0) ∅)
      2 ["http://10.0.0.2:2380"%string] = Ret h1
    ∧ RemovePeer (hex 16) h1 2 = Ret h2
    ∧ transport_Get h2 2 = None
    ∧ RemovePeer (hex 16) h2 2 = Panic.
Proof.
  destruct (AddPeer exampleParseURL (hex 16)
              (NewTransporter 1 (mkServerStats 0) ∅) 2
              ["http://10.0.0.2:2380"%string]) as [h1|] eqn:Hadd.
  - destruct (AddPeer_RemovePeer exampleParseURL (hex 16)
                (NewTransporter 1 (mkServerStats 0) ∅) h1 2
                ["http://10.0.0.2:2380"%string])
      as (h2 & Hrm & _ & _ & _ & Hget & _ & Hagain).
    + cbn. lia.
    + exact Hadd.
    + exists h1, h2. split_and!; [reflexivity|exact Hrm|exact Hget|exact Hagain].
  - vm_compute in Hadd. discriminate Hadd.
Defined.

(** X14.  [AddPeer] registers a peer once: a second [AddPeer] for the
    same id changes nothing and cannot panic, whatever URLs it is given,
    so the URLs of the first call stay.  A peer that was new, and is not
    the hub itself, has been sent nothing and has the URLs of the call. *)
Theorem AddPeer_once
    (parseURL : string → option URL) (idString : Z → string)
    (h h1 : hub) (i : Z) (us : list string) :
  AddPeer parseURL idString h i us = Ret h1 →
  (∀ us', AddPeer parseURL idString h1 i us' = Ret h1)
  ∧ (i ≠ t_id (h_transport h) → transport_Get h i = None →
     transport_Get h1 i = Some (mkPeer [])
     ∧ h_urls h1 !! i = NewURLs parseURL us
     ∧ is_Some (h_followers h1 !! idString i)
     ∧ ∀ j, j ≠ i → transport_Get h1 j = transport_Get h j).
Proof.
  unfold AddPeer, transport_Get. intros Hadd.
  destruct (Z.eqb_spec i (t_id (h_transport h))) as [Hi|Hi].
  { injection Hadd as <-. split; [|done]. intros us'.
    by rewrite (proj2 (Z.eqb_eq _ _) Hi). }
  destruct (peers (h_transport h) !! i) as [p|] eqn:Hp.
  { injection Hadd as <-. split; [|done]. intros us'.
    rewrite (proj2 (Z.eqb_neq _ _) Hi). by rewrite Hp. }
  destruct (NewURLs parseURL us) as [urls|]; [|done].
  injection Hadd as <-. cbn. split.
  - intros us'. rewrite (proj2 (Z.eqb_neq _ _) Hi).
    by rewrite lookup_insert_eq.
  - intros _ _. rewrite !lookup_insert_eq. split_and!; [done..| |].
    + unfold Follower. destruct (h_followers h !! idString i) eqn:Hf.
      * rewrite Hf. eauto.
      * rewrite lookup_insert_eq. eauto.
    + intros j Hj. by rewrite lookup_insert_ne.
Qed.

Lemma AddPeer_once_witness :
  ∃ h1,
    AddPeer exampleParseURL (hex 16) (NewTransporter 1 (mkServerStats 0) ∅)
      2 ["http://10.0.0.2:2380"%string] = Ret h1
    ∧ (∀ us', AddPeer exampleParseURL (hex 16) h1 2 us' = Ret h1)
    ∧ transport_Get h1 2 = Some (mkPeer []).
Proof.
  destruct (AddPeer exampleParseURL (hex 16)
              (NewTransporter 1 (mkServerStats 0) ∅) 2
              ["http://10.0.0.2:2380"%string]) as [h1|] eqn:Hadd.
  - destruct (AddPeer_once exampleParseURL (hex 16)
                (NewTransporter 1 (mkServerStats 0) ∅) h1 2
                ["http://10.0.0.2:2380"%string] Hadd) as [Hidem Hnew].
    destruct Hnew as (Hget & _); [cbn; lia|reflexivity|].
    exists h1. split_and!; [reflexivity|exact Hidem|exact Hget].
  - vm_compute in Hadd. discriminate Hadd.
Defined.

(** ** rafthttp: removing all peers *)

Lemma removePeers_spec (idString : Z → string) (ids : list Z) :
  ∀ h,
    NoDup ids →
    (∀ i, i ∈ ids → is_Some (peers (h_transport h) !! i)) →
    ∃ h',
      removePeers idString h ids = Ret h'
      ∧ t_id (h_transport h') = t_id (h_transport h)
      ∧ serverStats (h_transport h') = serverStats (h_transport h)
      ∧ (∀ j, peers (h_transport h') !! j
              = if decide (j ∈ ids) then None
                else peers (h_transport h) !! j)
      ∧ (∀ j, h_urls h' !! j
              = if decide (j ∈ ids) then None else h_urls h !! j)
      ∧ (∀ n, h_followers h' !! n
              = if decide (n ∈ idString <$> ids) then None
                else h_followers h !! n)
      ∧ h_stopped h' = h_stopped h ++ ids.
Proof.
  induction ids as [|i ids IH]; intros h Hnd Hall.
  { exists h. cbn. rewrite app_nil_r. split_and!; try done.
    all: intros j; by rewrite decide_False by apply not_elem_of_nil. }
  apply NoDup_cons in Hnd as [Hi Hnd].
  destruct (Hall i) as [p Hp]; [by left|].
  cbn [removePeers]. unfold removePeer. rewrite Hp.
  edestruct IH as (h' & Hrun & Hid & Hss & Hps & Hus & Hfs & Hst);
    [done| |].
  2:{ exists h'. split; [exact Hrun|]. cbn in *.
      rewrite Hid, Hss, Hst, <- app_assoc. split_and!; try done.
      - intros j. rewrite Hps. destruct (decide (j = i)) as [->|Hj].
        + rewrite decide_False by done.
          rewrite decide_True by (by left). apply lookup_delete_eq.
        + rewrite lookup_delete_ne by done.
          destruct (decide (j ∈ ids)) as [Hin|Hin].
          * by rewrite decide_True by (by right).
          * rewrite decide_False; [done|].
            intros [?|?]%elem_of_cons; done.
      - intros j. rewrite Hus. destruct (decide (j = i)) as [->|Hj].
        + rewrite decide_False by done.
          rewrite decide_True by (by left). apply lookup_delete_eq.
        + rewrite lookup_delete_ne by done.
          destruct (decide (j ∈ ids)) as [Hin|Hin].
          * by rewrite decide_True by (by right).
          * rewrite decide_False; [done|].
            intros [?|?]%elem_of_cons; done.
      - intros n. rewrite Hfs.
        destruct (decide (n ∈ idString <$> ids)) as [Hin|Hin].
        + by rewrite decide_True by (by right).
        + destruct (decide (n = idString i)) as [->|Hn].
          * rewrite decide_True by (by left). apply lookup_delete_eq.
          * rewrite lookup_delete_ne by done.
            rewrite decide_False; [done|].
            intros [?|?]%elem_of_cons; done. }
  intros j Hj. cbn. rewrite lookup_delete_ne; [by apply Hall; right|].
  by intros <-.
Qed.

(** X15.  [RemoveAllPeers] never panics, in whatever order the peer map
    is visited: it leaves the hub with no peer and no URL of a peer,
    drops the follower statistics of every peer and stops each peer
    exactly once.  [Stop], whose range over the map has an order of its
    own, stops the same peers, each once, but keeps the peer map, so
    that [Send] still forwards to them. *)
Theorem RemoveAllPeers_spec
    (idString : Z → string) (visit visit' : gmap Z Peer → list (Z * Peer))
    (h : hub) :
  admissible visit → admissible visit' →
  dom (h_urls h) ⊆ dom (peers (h_transport h)) →
  ∃ h',
    RemoveAllPeers idString visit h = Ret h'
    ∧ h_transport h'
      = mkTransport (t_id (h_transport h)) (serverStats (h_transport h)) ∅
    ∧ h_urls h' = ∅
    ∧ (∀ i, is_Some (peers (h_transport h) !! i) →
            h_followers h' !! idString i = None)
    ∧ h_stopped h' = h_stopped h ++ (visit (peers (h_transport h))).*1
    ∧ (visit (peers (h_transport h))).*1
      ≡ₚ (map_to_list (peers (h_transport h))).*1
    ∧ NoDup (visit (peers (h_transport h))).*1
    ∧ h_stopped (transport_Stop visit' h)
      = h_stopped h ++ (visit' (peers (h_transport h))).*1
    ∧ (visit' (peers (h_transport h))).*1
      ≡ₚ (visit (peers (h_transport h))).*1
    ∧ h_transport (transport_Stop visit' h) = h_transport h.
Proof.
  intros Hadm Hadm' Hsub. unfold RemoveAllPeers.
  set (ids := (visit (peers (h_transport h))).*1).
  assert (ids ≡ₚ (map_to_list (peers (h_transport h))).*1) as Hperm.
  { unfold ids. by rewrite (Hadm _). }
  assert (NoDup ids) as Hnd.
  { rewrite Hperm. apply NoDup_fst_map_to_list. }
  assert (∀ i, i ∈ ids ↔ is_Some (peers (h_transport h) !! i)) as Hin.
  { intros i. rewrite Hperm, list_elem_of_fmap. split.
    - intros ([j p] & -> & Hjp). apply elem_of_map_to_list in Hjp.
      cbn. eauto.
    - intros [p Hp]. exists (i, p). split; [done|].
      by apply elem_of_map_to_list. }
  destruct (removePeers_spec idString ids h Hnd)
    as (h' & Hrun & Hid & Hss & Hps & Hus & Hfs & Hst).
  { intros i. apply Hin. }
  exists h'. split_and!; try done.
  - destruct (h_transport h') as [i' ss' ps']. cbn in *. subst i' ss'.
    f_equal. apply map_eq. intros j. rewrite Hps, lookup_empty.
    destruct (decide (j ∈ ids)) as [|Hj]; [done|].
    rewrite Hin in Hj. by apply eq_None_not_Some.
  - apply map_eq. intros j. rewrite Hus, lookup_empty.
    destruct (decide (j ∈ ids)) as [|Hj]; [done|].
    apply not_elem_of_dom. intros Hd. apply Hj, Hin, elem_of_dom.
    by apply Hsub.
  - intros i Hi. rewrite Hfs. rewrite decide_True; [done|].
    apply list_elem_of_fmap. exists i. by rewrite Hin.
  - by rewrite (Hadm' _), Hperm.
Qed.

Lemma RemoveAllPeers_spec_witness :
  ∃ h',
    RemoveAllPeers (hex 16) map_to_list
      (mkHub (mkTransport 1 (mkServerStats 0)
                (<[2 := mkPeer []]> (<[3 := mkPeer []]> ∅)))
             ∅ (<[2 := []]> ∅) []) = Ret h'
    ∧ h_transport h' = mkTransport 1 (mkServerStats 0) ∅
    ∧ h_urls h' = ∅.
Proof.
  destruct (RemoveAllPeers_spec (hex 16) map_to_list
              (λ m, reverse (map_to_list m))
              (mkHub (mkTransport 1 (mkServerStats 0)
                        (<[2 := mkPeer []]> (<[3 := mkPeer []]> ∅)))
                     ∅ (<[2 := []]> ∅) []))
    as (h' & Hrun & Ht & Hu & _).
  - intros m. reflexivity.
  - intros m. apply reverse_Permutation.
  - cbn. rewrite !dom_insert_L. apply union_mono_l.
    apply empty_subseteq.
  - exists h'. split_and!; [exact Hrun|exact Ht|exact Hu].
Defined.

(** The two ranges need not agree: with the map visited forwards by
    [RemoveAllPeers] and backwards by [Stop], the peers are stopped in
    opposite orders. *)
Example Stop_in_another_order :
  let h := mkHub (mkTransport 1 (mkServerStats 0)
                    (<[2 := mkPeer []]> (<[3 := mkPeer []]> ∅)))
                 ∅ ∅ [] in
  h_stopped (transport_Stop (λ m, reverse (map_to_list m)) h)
  = reverse (map fst (map_to_list (peers (h_transport h))))
  ∧ ∃ h', RemoveAllPeers (hex 16) map_to_list h = Ret h'
          ∧ h_stopped h' = map fst (map_to_list (peers (h_transport h)))
          ∧ h_stopped h'
            ≠ h_stopped (transport_Stop (λ m, reverse (map_to_list m)) h).
Proof.
  split; [vm_compute; reflexivity|].
  eexists. split; [vm_compute; reflexivity|].
  split; [vm_compute; reflexivity|]. vm_compute. discriminate.
Qed.

(** ** rafthttp: what every run of the hub keeps *)

Lemma transport_Send_keeps t msgs :
  t_id (transport_Send t msgs) = t_id t
  ∧ dom (peers (transport_Send t msgs)) = dom (peers t).
Proof.
  unfold transport_Send. revert t.
  induction msgs as [|m msgs IH]; intros t; [done|].
  cbn [fold_left]. destruct (IH (sendOne t m)) as [-> ->].
  destruct (sendOne_spec t m) as (-> & -> & _). done.
Qed.

Lemma removePeer_keeps (idString : Z → string) (h h' : hub) (i self : Z) :
  removePeer idString h i = Ret h' →
  t_id (h_transport h) = self
  ∧ peers (h_transport h) !! self = None
  ∧ dom (h_urls h) = dom (peers (h_transport h)) →
  t_id (h_transport h') = self
  ∧ peers (h_transport h') !! self = None
  ∧ dom (h_urls h') = dom (peers (h_transport h')).
Proof.
  unfold removePeer. destruct (peers (h_transport h) !! i); [|done].
  intros [= <-] (Hid & Hself & Hdom). cbn. split_and!; [done| |].
  - rewrite lookup_delete_None. by right.
  - by rewrite !dom_delete_L, Hdom.
Qed.

Lemma removePeers_keeps (idString : Z → string) (ids : list Z) (self : Z) :
  ∀ h h',
    removePeers idString h ids = Ret h' →
    t_id (h_transport h) = self
    ∧ peers (h_transport h) !! self = None
    ∧ dom (h_urls h) = dom (peers (h_transport h)) →
    t_id (h_transport h') = self
    ∧ peers (h_transport h') !! self = None
    ∧ dom (h_urls h') = dom (peers (h_transport h')).
Proof.
  induction ids as [|i ids IH]; intros h h'; cbn [removePeers].
  { by intros [= <-]. }
  destruct (removePeer idString h i) as [h1|] eqn:H1; [|done].
  intros Hrun Hinv. apply (IH h1 h' Hrun).
  by apply (removePeer_keeps idString h h1 i).
Qed.

Lemma hub_step_keeps
    (parseURL : string → option URL) (idString : Z → string)
    (visit : gmap Z Peer → list (Z * Peer))
    (h h' : hub) (call : hub_call) (self : Z) :
  hub_step parseURL idString visit h call = Ret h' →
  t_id (h_transport h) = self
  ∧ peers (h_transport h) !! self = None
  ∧ dom (h_urls h) = dom (peers (h_transport h)) →
  t_id (h_transport h') = self
  ∧ peers (h_transport h') !! self = None
  ∧ dom (h_urls h') = dom (peers (h_transport h')).
Proof.
  destruct call as [i us|i| |i us|msgs|]; cbn [hub_step].
  - unfold AddPeer.
    destruct (Z.eqb_spec i (t_id (h_transport h))) as [Hi|Hi];
      [by intros [= <-]|].
    destruct (peers (h_transport h) !! i); [by intros [= <-]|].
    destruct (NewURLs parseURL us) as [urls|]; [|done].
    intros [= <-] (Hid & Hself & Hdom). cbn. split_and!; [done| |].
    + rewrite lookup_insert_ne; [done|]. by rewrite <- Hid.
    + by rewrite !dom_insert_L, Hdom.
  - unfold RemovePeer.
    destruct (i =? t_id (h_transport h)); [by intros [= <-]|].
    apply removePeer_keeps.
  - unfold RemoveAllPeers. apply removePeers_keeps.
  - unfold UpdatePeer.
    destruct (i =? t_id (h_transport h)); [by intros [= <-]|].
    destruct (peers (h_transport h) !! i) as [p|] eqn:Hp;
      [|by intros [= <-]].
    destruct (NewURLs parseURL us) as [urls|]; [|done].
    intros [= <-] (Hid & Hself & Hdom). cbn. split_and!; [done..|].
    rewrite dom_insert_L, Hdom.
    apply subseteq_union_1_L, singleton_subseteq_l, elem_of_dom. eauto.
  - intros [= <-] (Hid & Hself & Hdom). unfold hub_Send. cbn.
    destruct (transport_Send_keeps (h_transport h) msgs) as [Ht Hd].
    rewrite Ht, Hd. split_and!; [done| |done].
    apply not_elem_of_dom. rewrite Hd. by apply not_elem_of_dom.
  - by intros [= <-].
Qed.

(** X16.  The hub of server [i] never holds a peer for [i] itself,
    whatever calls are made on it after [NewTransporter]: [AddPeer] and
    [UpdatePeer] ignore the own id, so a message addressed to the own id
    is always dropped by [Send].  The peers that have URLs are at every
    moment exactly the peers of the map. *)
Theorem hub_run_self_excluded
    (parseURL : string → option URL) (idString : Z → string)
    (visit : gmap Z Peer → list (Z * Peer))
    (i : Z) (ss : ServerStats) (ls : gmap string FollowerStats)
    (calls : list hub_call) (h : hub) :
  hub_run parseURL idString visit (NewTransporter i ss ls) calls = Ret h →
  t_id (h_transport h) = i
  ∧ transport_Get h i = None
  ∧ dom (h_urls h) = dom (peers (h_transport h))
  ∧ ∀ msgs, Forall (λ m, To m = i) msgs → hub_Send h msgs = h.
Proof.
  intros Hrun.
  assert (t_id (h_transport h) = i
          ∧ peers (h_transport h) !! i = None
          ∧ dom (h_urls h) = dom (peers (h_transport h)))
    as (Hid & Hself & Hdom).
  { revert Hrun.
    assert (t_id (h_transport (NewTransporter i ss ls)) = i
            ∧ peers (h_transport (NewTransporter i ss ls)) !! i = None
            ∧ dom (h_urls (NewTransporter i ss ls))
              = dom (peers (h_transport (NewTransporter i ss ls))))
      as Hinit.
    { cbn. by rewrite !dom_empty_L. }
    revert Hinit. generalize (NewTransporter i ss ls).
    induction calls as [|call calls IH]; intros h0 Hinv; cbn [hub_run].
    { by intros [= <-]. }
    destruct (hub_step parseURL idString visit h0 call) as [h1|] eqn:H1;
      [|done].
    intros Hrun. apply (IH h1); [|done].
    by apply (hub_step_keeps parseURL idString visit h0 h1 call). }
  split_and!; [done..|].
  intros msgs Hall. apply hub_Send_dropped.
  eapply Forall_impl; [done|]. intros m Hm [_ [q Hq]].
  rewrite Hm in Hq. congruence.
Qed.

Lemma hub_run_self_excluded_witness :
  ∃ h,
    hub_run exampleParseURL (hex 16) map_to_list
      (NewTransporter 1 (mkServerStats 0) ∅)
      [CallAddPeer 1 ["http://10.0.0.1:2380"%string];
       CallAddPeer 2 ["http://10.0.0.2:2380"%string];
       CallUpdatePeer 1 ["http://10.0.0.3:2380"%string];
       CallSend [mkMessage 1 MsgApp 10; mkMessage 2 MsgApp 20];
       CallRemovePeer 1;
       CallStop] = Ret h
    ∧ transport_Get h 1 = None
    ∧ hub_Send h [mkMessage 1 MsgApp 10] = h.
Proof.
  destruct (hub_run exampleParseURL (hex 16) map_to_list
              (NewTransporter 1 (mkServerStats 0) ∅)
              [CallAddPeer 1 ["http://10.0.0.1:2380"%string];
               CallAddPeer 2 ["http://10.0.0.2:2380"%string];
               CallUpdatePeer 1 ["http://10.0.0.3:2380"%string];
               CallSend [mkMessage 1 MsgApp 10; mkMessage 2 MsgApp 20];
               CallRemovePeer 1;
               CallStop]) as [h|] eqn:Hrun.
  - destruct (hub_run_self_excluded exampleParseURL (hex 16) map_to_list
                1 (mkServerStats 0) ∅ _ h Hrun) as (_ & Hget & _ & Hsend).
    exists h. split_and!; [reflexivity|exact Hget|].
    apply Hsend. apply Forall_cons_2; [reflexivity|apply Forall_nil_2].
  - vm_compute in Hrun. discriminate Hrun.
Defined.

(** ** Looking up a member of a bootstrapped cluster by name *)

Lemma filter_unique_key {A B} `{EqDecision B} (f : A → B) (b : B)
    (l : list A) :
  NoDup (map f l) → (length (filter (λ x, f x = b) l) ≤ 1)%nat.
Proof.
  induction l as [|x l IH]; [cbn; lia|].
  cbn [map]. intros [Hx Hnd]%NoDup_cons. rewrite filter_cons.
  destruct (decide (f x = b)) as [Hb|Hb]; [|by apply IH].
  destruct (filter (λ y, f y = b) l) as [|y l'] eqn:Hf; [cbn; lia|].
  assert (y ∈ filter (λ y, f y = b) l) as Hy by (rewrite Hf; left).
  apply list_elem_of_filter in Hy as [Hfy Hy]. destruct Hx.
  rewrite Hb, <- Hfy. apply list_elem_of_In, in_map.
  by apply list_elem_of_In.
Qed.

(** X17.  [MemberByName] never panics on a cluster returned by
    [NewClusterFromString], whose members have distinct names: it returns
    the member of that name, or nil when there is none. *)
Theorem MemberByName_bootstrapped
    (parseURL : string → option URL)
    (visitV : gmap string (list string) → list (string * list string))
    (visitM visit : gmap Z Member → list (Z * Member))
    (name s : string) (c : Cluster) (n : string) :
  admissible visitV → admissible visit →
  NewClusterFromString parseURL visitV visitM name s = Ok c →
  (MemberByName visit c n = Ret None
   ∧ ∀ m, m ∈ member_list c → Name m ≠ n)
  ∨ (∃ m, MemberByName visit c n = Ret (Some m)
          ∧ m ∈ member_list c ∧ Name m = n).
Proof.
  intros HV Hv Hrun.
  destruct (NewClusterFromString_shape _ _ _ _ _ _ HV Hrun)
    as (ds & Hc & HndID & HndName & _).
  assert (member_list c ≡ₚ ds) as Hmem.
  { apply member_list_of_list; [done|]. rewrite Hc. cbn.
    by rewrite (right_id_L ∅ (∪)). }
  unfold MemberByName. rewrite MemberByName_loop_spec.
  assert (filter (λ m, Name m = n) (visit (c_members c)).*2
          ≡ₚ filter (λ m, Name m = n) ds) as Hp.
  { rewrite <- Hmem. unfold member_list. by rewrite (Hv _). }
  pose proof (filter_unique_key Name n ds HndName) as Hlen.
  rewrite <- (Permutation_length Hp) in Hlen.
  assert (∀ m, m ∈ filter (λ m, Name m = n) (visit (c_members c)).*2
               ↔ Name m = n ∧ m ∈ member_list c) as Hin.
  { intros m. rewrite list_elem_of_filter. unfold member_list.
    by rewrite (Hv _). }
  destruct (filter (λ m, Name m = n) (visit (c_members c)).*2)
    as [|m [|m' l]].
  - left. split; [done|]. intros m Hm Hn.
    by apply (not_elem_of_nil m), Hin.
  - right. exists m. split; [done|].
    destruct (proj1 (Hin m)) as [? ?]; [by left|done].
  - cbn in Hlen. lia.
Qed.

Lemma MemberByName_bootstrapped_witness :
  (MemberByName map_to_list booted "n1" = Ret None
   ∧ ∀ m, m ∈ member_list booted → Name m ≠ "n1"%string)
  ∨ (∃ m, MemberByName map_to_list booted "n1" = Ret (Some m)
          ∧ m ∈ member_list booted ∧ Name m = "n1"%string).
Proof.
  apply (MemberByName_bootstrapped exampleParseURL map_to_list map_to_list
           map_to_list "etcd" "n1=http://10.0.0.1:2380" booted "n1").
  - intros m. reflexivity.
  - intros m. reflexivity.
  - vm_compute. reflexivity.
Defined.

(** ** etcdmain: startProxy *)

(** X18.  [startProxy] calls [PeerURLs] on a nil cluster, and so panics,
    exactly when [setupCluster] has lost the error of a DNS bootstrap (and
    the transport could be made): in a discovery bootstrap the cluster is
    replaced by the one read from the discovery service, and in a static
    bootstrap [setupCluster] returns a cluster or an error. *)
Theorem startProxy_nil_cluster
    (parseURL : string → option URL)
    (visitV : gmap string (list string) → list (string * list string))
    (visitM : gmap Z Member → list (Z * Member))
    (lookupSRV : string → string → option (list SRV))
    (ResolveTCPAddr : string → option string)
    (GetCluster : string → string → result string)
    (NewTransport : option Error)
    (visit : gmap Z Member → list (Z * Member)) (cfg : config) :
  startProxy_peerURLs parseURL visitV visitM lookupSRV ResolveTCPAddr
    GetCluster NewTransport visit cfg = Panic
  ↔ NewTransport = None
    ∧ cfg_durl cfg = ""%string ∧ cfg_dnsCluster cfg ≠ ""%string
    ∧ ∃ s tok e,
        genDNSClusterString lookupSRV ResolveTCPAddr (cfg_name cfg)
          (cfg_dnsCluster cfg) (cfg_initialClusterToken cfg)
          (cfg_apurls cfg) = Ok (s, tok)
        ∧ NewClusterFromString parseURL visitV visitM tok s = Err e.
Proof.
  unfold startProxy_peerURLs, setupCluster.
  destruct (String.eqb_spec (cfg_durl cfg) "") as [Hd|Hd]; cbn [negb].
  2:{ split; [|by intros (_ & ? & _)].
      destruct (NewClusterFromString parseURL visitV visitM (cfg_durl cfg)
                  (genClusterString _ _)); cbn; [|done].
      destruct (GetCluster _ _) as [s|]; [|done].
      destruct (NewClusterFromString parseURL visitV visitM (cfg_durl cfg) s);
        [|done].
      by destruct NewTransport. }
  destruct (String.eqb_spec (cfg_dnsCluster cfg) "") as [Hn|Hn]; cbn [negb].
  { split; [|by intros (_ & _ & ? & _)].
    destruct (NewClusterFromString _ _ _ _ _); cbn; [|done].
    by destruct NewTransport. }
  destruct (genDNSClusterString _ _ _ _ _ _) as [[s tok]|e0].
  2:{ split; [done|]. by intros (_ & _ & _ & ? & ? & ? & ? & _). }
  destruct (NewClusterFromString parseURL visitV visitM tok s)
    as [c|e1] eqn:Hrun.
  - split; [by destruct NewTransport|].
    intros (_ & _ & _ & s' & tok' & e & [= <- <-] & He). congruence.
  - destruct NewTransport as [e|].
    + split; [done|]. by intros [? _].
    + split; [|done]. intros _. split_and!; [done..|]. eauto.
Qed.

(** A DNS bootstrap whose SRV answers name one address twice: the proxy
    start panics. *)
Example startProxy_dns_duplicate :
  startProxy_peerURLs exampleParseURL map_to_list map_to_list
    (test_lookupSRV [mkSRV "10.0.0.1" 2480; mkSRV "10.0.0.1" 2480] [])
    Some (λ _ _, Ok ""%string) None map_to_list
    (mkConfig "node1" "" "" "example.com" "token" "" [])
  = Panic.
Proof. vm_compute. reflexivity. Qed.

(** ** Store keys and the ids in them *)

Lemma hex_digit_value d :
  0 ≤ d < 16 →
  ishex (hex_digit d) = true ∧ Z.of_N (unhex (hex_digit d)) = d
  ∧ Ascii.eqb "/" (hex_digit d) = false.
Proof.
  intros Hd.
  assert (d = 0 ∨ d = 1 ∨ d = 2 ∨ d = 3 ∨ d = 4 ∨ d = 5 ∨ d = 6 ∨ d = 7
          ∨ d = 8 ∨ d = 9 ∨ d = 10 ∨ d = 11 ∨ d = 12 ∨ d = 13 ∨ d = 14
          ∨ d = 15) as Hcases by lia.
  repeat (destruct Hcases as [->|Hcases]; [by vm_compute|]).
  subst d. by vm_compute.
Qed.

Lemma hex_unfold n x :
  hex (S n) x
  = String (hex_digit ((x / 16 ^ Z.of_nat n) mod 16)) (hex n x).
Proof.
  cbn [hex]. rewrite Z.shiftr_div_pow2 by lia.
  by rewrite (Z.pow_mul_r 2 4) by lia.
Qed.

Lemma hex_free n x : free_of (Ascii.eqb "/") (hex n x) = true.
Proof.
  induction n as [|n IH]; [done|].
  rewrite hex_unfold. cbn [free_of]. rewrite IH, andb_true_r.
  apply negb_true_iff, hex_digit_value, Z.mod_pos_bound. lia.
Qed.

Lemma hex_not_empty n x : hex (S n) x ≠ EmptyString.
Proof. by rewrite hex_unfold. Qed.

Lemma ParseUint_loop_hex x : ∀ (n k : nat) acc,
  (k + n = 16)%nat → 0 ≤ acc < 16 ^ Z.of_nat k →
  ParseUint_loop (hex n x) acc
  = Some (acc * 16 ^ Z.of_nat n + x mod 16 ^ Z.of_nat n).
Proof.
  induction n as [|n IH]; intros k acc Hk Hacc.
  { cbn. f_equal. rewrite Z.mod_1_r. lia. }
  rewrite hex_unfold. cbn [ParseUint_loop].
  set (d := (x / 16 ^ Z.of_nat n) mod 16).
  assert (0 ≤ d < 16) as Hd by (apply Z.mod_pos_bound; lia).
  destruct (hex_digit_value d Hd) as (-> & -> & _).
  assert (16 ^ Z.of_nat k ≤ 16 ^ 15) as Hle
    by (apply Z.pow_le_mono_r; lia).
  change (2 ^ 60) with (16 ^ 15).
  destruct (Z.leb_spec (16 ^ 15) acc) as [|_]; [lia|].
  rewrite (IH (S k)); [|lia|].
  2:{ rewrite Nat2Z.inj_succ, Z.pow_succ_r by lia. lia. }
  f_equal. rewrite (Nat2Z.inj_succ n), Z.pow_succ_r by lia.
  rewrite (Z.mul_comm 16 (16 ^ Z.of_nat n)).
  rewrite (Z.rem_mul_r x (16 ^ Z.of_nat n) 16) by lia.
  fold d. lia.
Qed.

Lemma ParseUint16_hex x :
  0 ≤ x < 2 ^ 64 → ParseUint16 (hex 16 x) = Some x.
Proof.
  intros Hx. unfold ParseUint16.
  destruct (String.eqb_spec (hex 16 x) "") as [He|_].
  { by apply hex_not_empty in He. }
  rewrite (ParseUint_loop_hex x 16 0 0); [|done|lia].
  f_equal. change (16 ^ Z.of_nat 16) with (2 ^ 64).
  rewrite Z.mod_small; lia.
Qed.

Lemma strip_slashes_free e :
  e ≠ EmptyString → free_of (Ascii.eqb "/") e = true → strip_slashes e = e.
Proof.
  induction e as [|c e IH]; [done|]. intros _ Hfree.
  cbn [free_of] in Hfree. apply andb_true_iff in Hfree as [Hc He].
  apply negb_true_iff in Hc. cbn [strip_slashes].
  destruct e as [|c' e].
  - cbn [strip_slashes]. rewrite Ascii.eqb_sym. by rewrite Hc.
  - by rewrite IH.
Qed.

Lemma strip_slashes_app p e :
  e ≠ EmptyString → free_of (Ascii.eqb "/") e = true →
  strip_slashes (p +:+ "/" +:+ e) = p +:+ "/" +:+ e.
Proof.
  intros Hne Hfree. induction p as [|c p IH].
  - rewrite append_nil. change ("/" +:+ e) with (String "/" e).
    cbn [strip_slashes]. rewrite strip_slashes_free by done.
    by destruct e.
  - rewrite append_cons. cbn [strip_slashes]. rewrite IH.
    destruct (p +:+ "/" +:+ e) eqn:Hpe; [|done].
    destruct p; [by rewrite append_nil in Hpe|].
    by rewrite append_cons in Hpe.
Qed.

Lemma path_Base_key (dir h : string) :
  h ≠ EmptyString → free_of (Ascii.eqb "/") h = true →
  path_Base (dir +:+ "/" +:+ h) = h.
Proof.
  intros Hne Hfree. unfold path_Base.
  destruct (String.eqb_spec (dir +:+ "/" +:+ h) "") as [He|_].
  { destruct dir; [by rewrite append_nil in He|].
    by rewrite append_cons in He. }
  rewrite strip_slashes_app by done.
  assert (∀ d, List.last (split_on (Ascii.eqb "/") (d +:+ "/" +:+ h))
                 EmptyString = h) as ->.
  { induction d as [|c d IH].
    - rewrite append_nil. change ("/" +:+ h) with (String "/" h).
      cbn [split_on]. rewrite Ascii.eqb_refl.
      by rewrite split_on_free.
    - rewrite append_cons. cbn [split_on].
      destruct (Ascii.eqb "/" c).
      + pose proof (split_on_nonempty (Ascii.eqb "/") (d +:+ "/" +:+ h)).
        destruct (split_on _ (d +:+ "/" +:+ h)); done.
      + destruct (split_on _ (d +:+ "/" +:+ h)) as [|seg [|seg' segs]] eqn:Hs.
        * by apply split_on_nonempty in Hs.
        * cbn in IH. subst seg.
          exfalso.
          assert (length (split_on (Ascii.eqb "/") (d +:+ "/" +:+ h)) ≥ 2)%nat
            as Hlen; [|rewrite Hs in Hlen; cbn in Hlen; lia].
          clear. induction d as [|c d IH].
          -- rewrite append_nil. change ("/" +:+ h) with (String "/" h).
             cbn [split_on]. rewrite Ascii.eqb_refl. cbn.
             pose proof (split_on_nonempty (Ascii.eqb "/") h).
             destruct (split_on _ h); [done|cbn; lia].
          -- rewrite append_cons. cbn [split_on].
             destruct (Ascii.eqb "/" c); [cbn; lia|].
             destruct (split_on _ (d +:+ "/" +:+ h)); cbn in *; lia.
        * exact IH. }
  destruct (String.eqb_spec h "") as [|_]; done.
Qed.

Lemma parseMemberID_memberStoreKey i :
  0 ≤ i < 2 ^ 64 → parseMemberID (memberStoreKey i) = Ret i.
Proof.
  intros Hi. unfold parseMemberID, memberStoreKey.
  change ("/0/members/" +:+ hex 16 i)
    with ("/0/members" +:+ "/" +:+ hex 16 i).
  rewrite path_Base_key; [|apply hex_not_empty|apply hex_free].
  by rewrite ParseUint16_hex.
Qed.

(** ** Reading a member back from the store *)

Lemma strip_prefix_join dir r :
  strip_prefix (dir +:+ "/") (dir +:+ "/" +:+ r) = Some r.
Proof.
  induction dir as [|c dir IH].
  - rewrite !append_nil. change ("/" +:+ r) with (String "/" r).
    cbn [strip_prefix]. by rewrite Ascii.eqb_refl.
  - rewrite !append_cons. cbn [strip_prefix]. by rewrite Ascii.eqb_refl.
Qed.

Lemma strip_prefix_prefix p : ∀ k r,
  strip_prefix p k = Some r → String.prefix p k = true.
Proof.
  induction p as [|a p IH]; intros [|b k] r; cbn; try done.
  destruct (Ascii.eqb_spec a b) as [->|Hab]; [|done].
  intros Hr. destruct (ascii_dec b b); [by eapply IH|done].
Qed.

Lemma child_key_below dir k k' :
  child_key dir k = Some k' → below dir k = true.
Proof.
  unfold child_key, below.
  destruct (strip_prefix (dir +:+ "/") k) as [r|] eqn:Hr; [|done].
  intros _. rewrite (strip_prefix_prefix _ _ _ Hr). apply orb_true_r.
Qed.

Lemma child_key_child dir elem :
  free_of (Ascii.eqb "/") elem = true →
  child_key dir (path_Join dir elem) = Some (path_Join dir elem).
Proof.
  intros Hfree. unfold child_key, path_Join. rewrite strip_prefix_join.
  assert (∀ e, free_of (Ascii.eqb "/") e = true
               → cut_at "/" e = (e, EmptyString)) as ->; [|done|done].
  induction e as [|c e IH]; [done|]. cbn [free_of cut_at].
  intros [Hc He]%andb_true_iff. apply negb_true_iff in Hc.
  rewrite Ascii.eqb_sym, Hc. by rewrite IH.
Qed.

Lemma compare_app_same s a b :
  String.compare (s +:+ a) (s +:+ b) = String.compare a b.
Proof.
  induction s as [|c s IH]; [by rewrite !append_nil|].
  rewrite !append_cons. cbn [String.compare].
  by rewrite ascii_compare_refl.
Qed.

Lemma member_keys_sorted dir :
  sort_Strings [path_Join dir attributesSuffix;
                path_Join dir raftAttributesSuffix]
  = [path_Join dir attributesSuffix; path_Join dir raftAttributesSuffix].
Proof.
  apply (sort_Sort_sorted_id _).
  repeat constructor. unfold not_less, String.ltb, path_Join.
  by rewrite compare_app_same.
Qed.

Lemma store_children_member st dir v1 v2 :
  store_exists st dir = false →
  store_children
    (<[path_Join dir attributesSuffix := v2]>
       (<[path_Join dir raftAttributesSuffix := v1]> st)) dir
  = [path_Join dir attributesSuffix; path_Join dir raftAttributesSuffix].
Proof.
  intros Hno. rewrite store_exists_false in Hno.
  unfold store_children. rewrite <- member_keys_sorted.
  apply (sort_Sort_unique _). apply NoDup_Permutation.
  - apply NoDup_remove_dups.
  - apply NoDup_cons. split; [|apply NoDup_singleton].
    intros Heq%list_elem_of_singleton.
    by apply (member_keys_differ dir).
  - intros k. rewrite elem_of_remove_dups, list_elem_of_omap. split.
    + intros (q & Hq & Hk). apply list_elem_of_fmap in Hq as ([q' v] & -> & Hq).
      apply elem_of_map_to_list in Hq. cbn in Hk.
      apply lookup_insert_Some in Hq as [[<- _]|[_ Hq]].
      { rewrite child_key_child in Hk by done. injection Hk as <-. by left. }
      apply lookup_insert_Some in Hq as [[<- _]|[_ Hq]].
      { rewrite child_key_child in Hk by done. injection Hk as <-.
        right. by left. }
      apply child_key_below in Hk. by rewrite (Hno q' v Hq) in Hk.
    + intros [->|[->|[]%elem_of_nil]%elem_of_cons]%elem_of_cons.
      * exists (path_Join dir attributesSuffix).
        split; [|by apply child_key_child].
        apply list_elem_of_fmap. exists (path_Join dir attributesSuffix, v2).
        split; [done|]. apply elem_of_map_to_list, lookup_insert_eq.
      * exists (path_Join dir raftAttributesSuffix).
        split; [|by apply child_key_child].
        apply list_elem_of_fmap.
        exists (path_Join dir raftAttributesSuffix, v1).
        split; [done|]. apply elem_of_map_to_list.
        rewrite lookup_insert_ne by (intros H; by apply (member_keys_differ dir)).
        apply lookup_insert_eq.
Qed.

(** X19.  What [AddMember] writes is what [nodeToMember] reads: when the
    store has nothing under the key of the member and the id is a 64-bit
    number, the node of the member, read from the store of the cluster
    that [AddMember] returns, has the attributes before the raft
    attributes, although they were written in the other order, and
    [nodeToMember] makes the member of it.  With the children in the order
    of writing [nodeToMember] reports the first key instead. *)
Theorem AddMember_nodeToMember (c c' : Cluster) (m : Member)
    (st : gmap string StoreValue) :
  c_store c = Some st →
  store_exists st (memberStoreKey (ID m)) = false →
  0 ≤ ID m < 2 ^ 64 →
  AddMember c m = Ret c' →
  ∃ st',
    c_store c' = Some st'
    ∧ nodeToMember (store_node st' (memberStoreKey (ID m))) = Ret (m, None)
    ∧ nodeToMember
        (mkNode (memberStoreKey (ID m))
           (reverse (n_Nodes (store_node st' (memberStoreKey (ID m))))))
      = Ret (mkMember (ID m) EmptyString [] [],
             Some (ErrKey
                     (path_Join (memberStoreKey (ID m)) raftAttributesSuffix)
                     (path_Join (memberStoreKey (ID m)) attributesSuffix))).
Proof.
  intros Hst Hno Hid Hadd.
  apply AddMember_Ret_inv in Hadd as (st0 & Hst0 & _ & ->).
  rewrite Hst in Hst0. injection Hst0 as <-.
  eexists. split; [reflexivity|].
  unfold store_node. rewrite (store_children_member _ _ _ _ Hno).
  cbn [map]. rewrite lookup_insert_eq.
  rewrite lookup_insert_ne by apply not_eq_sym, member_keys_differ.
  rewrite lookup_insert_eq.
  unfold nodeToMember. cbn [n_Key n_Nodes reverse rev_append].
  rewrite (parseMemberID_memberStoreKey _ Hid).
  split.
  - rewrite !String.eqb_refl. cbn. by destruct m.
  - cbn [reverse rev_append].
    destruct (String.eqb_spec
                (path_Join (memberStoreKey (ID m)) raftAttributesSuffix)
                (path_Join (memberStoreKey (ID m)) attributesSuffix))
      as [Heq|_]; [|done].
    by apply member_keys_differ in Heq.
Qed.

Lemma AddMember_nodeToMember_witness :
  ∃ st',
    c_store (from_Ret (AddMember (SetStore (newCluster "etcd") ∅) member_one))
    = Some st'
    ∧ nodeToMember (store_node st' (memberStoreKey (ID member_one)))
      = Ret (member_one, None).
Proof.
  destruct (AddMember_nodeToMember (SetStore (newCluster "etcd") ∅)
              (from_Ret (AddMember (SetStore (newCluster "etcd") ∅)
                           member_one))
              member_one ∅) as (st' & Hst & Hread & _).
  - reflexivity.
  - reflexivity.
  - change (0 ≤ 1 < 2 ^ 64). lia.
  - vm_compute. reflexivity.
  - exists st'. split; [exact Hst|exact Hread].
Defined.

(** ** rafthttp: UpdatePeer *)

(** X20.  [UpdatePeer] only reaches a peer that is in the map.  For an id
    that is not the hub's own and has no peer yet: an [UpdatePeer] before
    the [AddPeer] changes nothing, even with URLs that are not valid, so
    after the [AddPeer] the peer has the URLs of the [AddPeer]; an
    [UpdatePeer] after the [AddPeer] gives the peer the new URLs and
    leaves the peer map, the follower statistics and the stopped peers as
    the [AddPeer] left them. *)
Theorem UpdatePeer_order
    (parseURL : string → option URL) (idString : Z → string)
    (h : hub) (i : Z) (us us' : list string) (urls urls' : list URL) :
  i ≠ t_id (h_transport h) →
  transport_Get h i = None →
  NewURLs parseURL us = Some urls →
  NewURLs parseURL us' = Some urls' →
  ∃ h1,
    AddPeer parseURL idString h i us = Ret h1
    ∧ h_urls h1 !! i = Some urls
    ∧ (∀ bad, UpdatePeer parseURL h i bad = Ret h)
    ∧ UpdatePeer parseURL h1 i us'
      = Ret (mkHub (h_transport h1) (h_followers h1)
                   (<[i := urls']> (h_urls h1)) (h_stopped h1)).
Proof.
  unfold transport_Get, AddPeer, UpdatePeer. intros Hself Hnone Hus Hus'.
  rewrite (proj2 (Z.eqb_neq _ _) Hself), Hnone, Hus.
  eexists. split; [reflexivity|]. cbn.
  rewrite (proj2 (Z.eqb_neq _ _) Hself), !lookup_insert_eq, Hus'.
  done.
Qed.

Lemma UpdatePeer_order_witness :
  ∃ h1,
    AddPeer exampleParseURL (hex 16) (NewTransporter 1 (mkServerStats 0) ∅)
      2 ["http://10.0.0.2:2380"%string] = Ret h1
    ∧ h_urls h1 !! 2 = Some [mkURL "http" "10.0.0.2:2380"]
    ∧ (∀ bad, UpdatePeer exampleParseURL
                (NewTransporter 1 (mkServerStats 0) ∅) 2 bad
              = Ret (NewTransporter 1 (mkServerStats 0) ∅)).
Proof.
  destruct (UpdatePeer_order exampleParseURL (hex 16)
              (NewTransporter 1 (mkServerStats 0) ∅) 2
              ["http://10.0.0.2:2380"%string]
              ["http://10.0.0.3:2380"%string]
              [mkURL "http" "10.0.0.2:2380"] [mkURL "http" "10.0.0.3:2380"])
    as (h1 & Hadd & Hurls & Hbad & _).
  - cbn. lia.
  - reflexivity.
  - vm_compute. reflexivity.
  - vm_compute. reflexivity.
  - exists h1. split_and!; [exact Hadd|exact Hurls|exact Hbad].
Defined.

(** ** The vectors of TestGenClusterString *)

Example TestGenClusterString_0 :
  genClusterString "default" [mkURL "http" "127.0.0.1:4001"]
  = "default=http://127.0.0.1:4001"%string.
Proof. reflexivity. Qed.

Example TestGenClusterString_1 :
  genClusterString "node1"
    [mkURL "http" "0.0.0.0:2379"; mkURL "http" "1.1.1.1:2379"]
  = "node1=http://0.0.0.0:2379,node1=http://1.1.1.1:2379"%string.
Proof. reflexivity. Qed.

(** ** When NewClusterFromString succeeds *)

(** X21.  [NewClusterFromString] returns a cluster exactly when the string
    parses, every name of the parsed string has a first URL that is not
    empty and URLs that are all valid, and the member ids derived are
    pairwise distinct.  Whether it succeeds, and the cluster returned, do
    not depend on the order in which the maps are visited. *)
Theorem NewClusterFromString_succeeds_iff
    (parseURL : string → option URL)
    (visitV visitV' : gmap string (list string) → list (string * list string))
    (visitM visitM' : gmap Z Member → list (Z * Member))
    (name s : string) :
  admissible visitV → admissible visitM →
  admissible visitV' → admissible visitM' →
  let v := (ParseQuery (replace_char "," "&" s)).1 in
  ((∃ c, NewClusterFromString parseURL visitV visitM name s = Ok c)
   ↔ (ParseQuery (replace_char "," "&" s)).2 = None
     ∧ (∀ k urls, v !! k = Some urls → accepted parseURL name (k, urls))
     ∧ NoDup (map ID (derived parseURL name (map_to_list v))))
  ∧ (∀ c, NewClusterFromString parseURL visitV visitM name s = Ok c
          ↔ NewClusterFromString parseURL visitV' visitM' name s = Ok c).
Proof.
  intros HV HM HV' HM' v. split.
  2:{ intros c. split; by apply NewClusterFromString_order. }
  unfold NewClusterFromString. subst v.
  destruct (ParseQuery (replace_char "," "&" s)) as [v err].
  cbn [fst snd].
  destruct err as [e|].
  { split; [by intros [? ?]|]. by intros [? _]. }
  pose proof (derived_Permutation parseURL name _ _ (HV v)) as Hd.
  split.
  - intros [c Hc].
    destruct (addAllParsed parseURL (newCluster name) (visitV v))
      as [c1|e] eqn:H1; [|done].
    apply addAllParsed_Ok_iff in H1 as (Hacc & Hnd & _ & _).
    cbn [c_name newCluster] in Hacc, Hnd. split_and!; [done| |].
    + intros k urls Hk. rewrite Forall_forall in Hacc. apply Hacc.
      rewrite (HV v). by apply elem_of_map_to_list.
    + by rewrite <- Hd.
  - intros (_ & Hacc & Hnd).
    destruct (addAllParsed parseURL (newCluster name) (visitV v))
      as [c1|e] eqn:H1; [eauto|].
    exfalso.
    assert (∃ c', addAllParsed parseURL (newCluster name) (visitV v) = Ok c')
      as [c' Hc']; [|congruence].
    eexists. apply addAllParsed_Ok_iff. cbn [c_name c_members newCluster].
    split_and!; [| |done|reflexivity].
    + apply Forall_forall. intros [k urls] Hin. apply Hacc.
      rewrite (HV v) in Hin. by apply elem_of_map_to_list in Hin.
    + by rewrite Hd.
Qed.

Lemma NewClusterFromString_succeeds_iff_witness :
  ∃ c, NewClusterFromString exampleParseURL
         (λ m, reverse (map_to_list m)) (λ m, reverse (map_to_list m))
         "etcd" "n1=http://10.0.0.1:2380,n2=http://10.0.0.2:2380" = Ok c.
Proof.
  destruct (NewClusterFromString_succeeds_iff exampleParseURL
              map_to_list (λ m, reverse (map_to_list m)) map_to_list
              (λ m, reverse (map_to_list m)) "etcd"
              "n1=http://10.0.0.1:2380,n2=http://10.0.0.2:2380")
    as [_ Horder].
  - intros m. reflexivity.
  - intros m. reflexivity.
  - intros m. apply reverse_Permutation.
  - intros m. apply reverse_Permutation.
  - destruct (NewClusterFromString exampleParseURL map_to_list map_to_list
                "etcd" "n1=http://10.0.0.1:2380,n2=http://10.0.0.2:2380")
      as [c|e] eqn:Hrun.
    + exists c. destruct (Horder c) as [Hfwd _]. exact (Hfwd eq_refl).
    + vm_compute in Hrun. discriminate Hrun.
Defined.

(** ** AddMember and RemoveMember consult the store only *)

Lemma append_assoc_string a b c : (a +:+ b) +:+ c = a +:+ (b +:+ c).
Proof.
  induction a as [|x a IH]; [done|]. by rewrite !append_cons, IH.
Qed.

Lemma append_empty_r a : a +:+ EmptyString = a.
Proof.
  induction a as [|x a IH]; [done|]. by rewrite append_cons, IH.
Qed.

Lemma prefix_inv p s : ∀ q,
  String.prefix (p +:+ s) q = true → ∃ r, q = p +:+ r.
Proof.
  induction p as [|a p IH]; intros q.
  { exists q. by rewrite append_nil. }
  rewrite append_cons. destruct q as [|b q]; cbn [String.prefix]; [done|].
  destruct (ascii_dec a b) as [->|]; [|done].
  intros [r ->]%IH. exists r. by rewrite append_cons.
Qed.

Lemma below_inv p q : below p q = true → ∃ r, q = p +:+ r.
Proof.
  unfold below. intros [Heq|Hpre]%orb_true_iff.
  - apply String.eqb_eq in Heq as ->. exists EmptyString.
    by rewrite append_empty_r.
  - by apply prefix_inv in Hpre.
Qed.

Lemma below_tombstone_not_member i j q :
  below (removedMemberStoreKey i) q = true →
  below (memberStoreKey j) q = false.
Proof. intros [r ->]%below_inv. reflexivity. Qed.

Lemma raft_key_not_below_attributes dir :
  below (path_Join dir attributesSuffix)
        (path_Join dir raftAttributesSuffix) = false.
Proof.
  unfold below, path_Join. apply orb_false_iff. split.
  - apply String.eqb_neq. intros Heq%append_inv_head. discriminate Heq.
  - rewrite append_assoc_string. by rewrite prefix_app_same.
Qed.

Lemma store_exists_insert_other st p q v :
  below p q = false →
  store_exists (<[q := v]> st) p = true → store_exists st p = true.
Proof.
  intros Hb. rewrite !store_exists_true. intros (k & w & Hk & Hbk).
  destruct (decide (q = k)) as [->|Hne]; [congruence|].
  rewrite lookup_insert_ne in Hk by done. eauto.
Qed.

Lemma store_exists_insert_mono st p q v :
  st !! q = None →
  store_exists st p = true → store_exists (<[q := v]> st) p = true.
Proof.
  intros Hq. rewrite !store_exists_true. intros (k & w & Hk & Hbk).
  exists k, w. split; [|done]. rewrite lookup_insert_ne; [done|].
  intros <-. congruence.
Qed.

(** X22.  Whether [AddMember] and [RemoveMember] panic is decided by the
    store alone, never by the members or the removed ids held in memory.
    With a store bound, [AddMember] panics exactly when the store already
    has one of the two keys of the member, and [RemoveMember] exactly when
    the store has nothing under the key of the member or already has the
    tombstone of the id. *)
Theorem store_decides_panic (c : Cluster) (st : gmap string StoreValue) :
  c_store c = Some st →
  (∀ m, AddMember c m = Panic
        ↔ store_exists st
            (path_Join (memberStoreKey (ID m)) raftAttributesSuffix) = true
          ∨ store_exists st
              (path_Join (memberStoreKey (ID m)) attributesSuffix) = true)
  ∧ (∀ i, RemoveMember c i = Panic
          ↔ store_exists st (memberStoreKey i) = false
            ∨ store_exists st (removedMemberStoreKey i) = true).
Proof.
  intros Hst. split.
  - intros m. unfold AddMember, store_Create. rewrite Hst.
    set (p1 := path_Join (memberStoreKey (ID m)) raftAttributesSuffix).
    set (p2 := path_Join (memberStoreKey (ID m)) attributesSuffix).
    destruct (store_exists st p1) eqn:H1; [split; eauto|].
    destruct (store_exists (<[p1 := _]> st) p2) eqn:H2.
    + split; [|done]. intros _. right.
      eapply store_exists_insert_other; [|exact H2].
      apply raft_key_not_below_attributes.
    + split; [done|]. intros [?|H2']; [done|].
      rewrite store_exists_false in H1.
      rewrite (store_exists_insert_mono st p2 p1) in H2; [done| |done].
      destruct (st !! p1) as [v|] eqn:Hv; [|done].
      specialize (H1 p1 v Hv). by rewrite below_self in H1.
  - intros i. unfold RemoveMember, store_Delete, store_Create. rewrite Hst.
    destruct (store_exists st (memberStoreKey i)) eqn:H1; [|split; eauto].
    set (st' := filter (λ kv : string * StoreValue,
                          below (memberStoreKey i) kv.1 = false) st).
    assert (store_exists st' (removedMemberStoreKey i)
            = store_exists st (removedMemberStoreKey i)) as ->.
    { destruct (store_exists st (removedMemberStoreKey i)) eqn:H2.
      - apply store_exists_true in H2 as (q & v & Hq & Hb).
        apply store_exists_true. exists q, v. split; [|done].
        apply map_lookup_filter_Some. split; [done|]. cbn.
        by eapply below_tombstone_not_member.
      - rewrite store_exists_false in H2. apply store_exists_false.
        intros q v [Hq _]%map_lookup_filter_Some. by eapply H2. }
    destruct (store_exists st (removedMemberStoreKey i)); split; try done.
    + eauto.
    + by intros [?|?].
Qed.

Lemma store_decides_panic_witness :
  RemoveMember (SetStore booted ∅) (ID member_one) = Panic
  ∧ AddMember (SetStore booted ∅) member_one ≠ Panic.
Proof.
  destruct (store_decides_panic (SetStore booted ∅) ∅) as [Hadd Hrm].
  - reflexivity.
  - split.
    + apply Hrm. left. reflexivity.
    + intros Hp. apply Hadd in Hp as [Hp|Hp]; discriminate Hp.
Defined.

(** The member of a cluster built from a string is in the map but not in
    the store that is bound afterwards: removing it panics. *)
Example bootstrap_member_not_removable :
  ∃ m, member_list booted = [m]
       ∧ RemoveMember (SetStore booted ∅) (ID m) = Panic.
Proof. eexists. split; vm_compute; reflexivity. Qed.

(** ** Reading the cluster back from the store *)

Lemma nodeToMember_member_node m :
  0 ≤ ID m < 2 ^ 64 → nodeToMember (member_node m) = Ret (m, None).
Proof.
  intros Hid. unfold nodeToMember, member_node. cbn [n_Key n_Nodes].
  rewrite (parseMemberID_memberStoreKey _ Hid).
  rewrite !String.eqb_refl. cbn. by destruct m.
Qed.

Lemma parseMemberID_removedMemberStoreKey i :
  0 ≤ i < 2 ^ 64 → parseMemberID (removedMemberStoreKey i) = Ret i.
Proof.
  intros Hi. unfold parseMemberID, removedMemberStoreKey.
  change ("/0/removed_members/" +:+ hex 16 i)
    with ("/0/removed_members" +:+ "/" +:+ hex 16 i).
  rewrite path_Base_key; [|apply hex_not_empty|apply hex_free].
  by rewrite ParseUint16_hex.
Qed.

Lemma load_members_member_nodes (ms : list Member) : ∀ c,
  Forall (λ m, 0 ≤ ID m < 2 ^ 64) ms →
  load_members c (map member_node ms)
  = Ret (fold_left (λ c m, set_members c (<[ID m := m]> (c_members c)))
                   ms c).
Proof.
  induction ms as [|m ms IH]; intros c Hall; [done|].
  apply Forall_cons in Hall as [Hm Hall]. cbn [map load_members fold_left].
  rewrite (nodeToMember_member_node m Hm). by apply IH.
Qed.

Lemma load_removed_removed_nodes (rs : list Z) : ∀ c,
  Forall (λ i, 0 ≤ i < 2 ^ 64) rs →
  ∃ c', load_removed c (map removed_node rs) = Ret c'
        ∧ c_id c' = c_id c ∧ c_name c' = c_name c
        ∧ c_members c' = c_members c ∧ c_store c' = c_store c
        ∧ ∀ i, c_removed c' !! i
               = if decide (i ∈ rs) then Some true else c_removed c !! i.
Proof.
  induction rs as [|r rs IH]; intros c Hall.
  { exists c. split_and!; [done..|]. intros i.
    by rewrite decide_False by apply not_elem_of_nil. }
  apply Forall_cons in Hall as [Hr Hall]. cbn [map load_removed].
  cbn [removed_node n_Key].
  rewrite (parseMemberID_removedMemberStoreKey r Hr).
  destruct (IH (set_removed c (<[r := true]> (c_removed c))) Hall)
    as (c' & Hrun & Hid & Hname & Hmem & Hst & Hrem).
  exists c'. split_and!; try done. intros i. rewrite Hrem. cbn.
  destruct (decide (i ∈ rs)) as [Hin|Hin].
  - by rewrite decide_True by (by right).
  - destruct (decide (i = r)) as [->|Hne].
    + rewrite decide_True by (by left). apply lookup_insert_eq.
    + rewrite lookup_insert_ne by done. rewrite decide_False; [done|].
      intros [?|?]%elem_of_cons; done.
Qed.

(** X23.  [NewClusterFromStore] reads back what [AddMember] and
    [RemoveMember] have written.  When the store lists, for members with
    64-bit ids, the nodes [AddMember] writes for them, and, for removed
    ids, the nodes [RemoveMember] writes, the cluster returned has the
    given name and the store, looks up under an id the last member listed
    with that id, and has exactly the listed ids removed.  Its id is zero:
    the id of the cluster is not read back. *)
Theorem NewClusterFromStore_reads_back
    (Get : string → GetResult) (name : string) (st : gmap string StoreValue)
    (ms : list Member) (rs : list Z) :
  Forall (λ m, 0 ≤ ID m < 2 ^ 64) ms →
  Forall (λ i, 0 ≤ i < 2 ^ 64) rs →
  Get storeMembersPrefix = GetNodes (map member_node ms) →
  Get storeRemovedMembersPrefix = GetNodes (map removed_node rs) →
  ∃ c,
    NewClusterFromStore Get name st = Ret c
    ∧ Cluster_ID c = 0 ∧ c_name c = name ∧ c_store c = Some st
    ∧ (∀ k, Cluster_Member c k = last (filter (λ m, ID m = k) ms))
    ∧ (∀ i, IsIDRemoved c i = true ↔ i ∈ rs).
Proof.
  intros Hms Hrs Hgm Hgr. unfold NewClusterFromStore. rewrite Hgm.
  rewrite (load_members_member_nodes ms _ Hms). rewrite Hgr.
  set (c0 := set_store (newCluster name) (Some st)).
  destruct (fold_members_fields ms c0) as (Hid & Hname & Hrem & Hst & Hmem).
  destruct (load_removed_removed_nodes rs
              (fold_left (λ c m, set_members c (<[ID m := m]> (c_members c)))
                         ms c0) Hrs)
    as (c & Hrun & Hid' & Hname' & Hmem' & Hst' & Hrem').
  exists c. split; [exact Hrun|]. unfold Cluster_ID, Cluster_Member.
  rewrite Hid', Hname', Hst', Hmem', Hid, Hname, Hst, Hmem.
  split_and!; [done..| |].
  - intros k. apply fold_insert_last.
  - intros i. unfold IsIDRemoved. rewrite Hrem', Hrem. cbn.
    destruct (decide (i ∈ rs)); [done|]. by rewrite lookup_empty.
Qed.

Lemma NewClusterFromStore_reads_back_witness :
  ∃ c,
    NewClusterFromStore
      (λ key, if String.eqb key storeMembersPrefix
              then GetNodes (map member_node example_members)
              else GetNodes (map removed_node [4]))
      "etcd" ∅ = Ret c
    ∧ Cluster_ID c = 0
    ∧ Cluster_Member c 2 = Some (mkMember 2 "b" ["http://b:2380"] []).
Proof.
  destruct (NewClusterFromStore_reads_back
              (λ key, if String.eqb key storeMembersPrefix
                      then GetNodes (map member_node example_members)
                      else GetNodes (map removed_node [4]))
              "etcd" ∅ example_members [4])
    as (c & Hrun & Hid & _ & _ & Hmem & _).
  - repeat apply Forall_cons_2; [..|apply Forall_nil_2];
      (change (ID _) with 3 || change (ID _) with 1 || change (ID _) with 2);
      lia.
  - apply Forall_cons_2; [lia|apply Forall_nil_2].
  - reflexivity.
  - reflexivity.
  - exists c. split_and!; [exact Hrun|exact Hid|].
    rewrite Hmem. reflexivity.
Defined.

(** A node whose children are in the order of writing stops the reading
    with a panic. *)
Example NewClusterFromStore_unsorted_panics :
  NewClusterFromStore
    (λ _, GetNodes
            [mkNode (memberStoreKey 1)
               (reverse (n_Nodes (member_node member_one)))])
    "etcd" ∅ = Panic.
Proof. vm_compute. reflexivity. Qed.
